(** * Qubery: rotations as turn vectors, quaternions and Pauli operators

    A shallow embedding of [src/rotation.py].  Python floats are read as real
    numbers ([R]): every comparison, [%], [round] and [sqrt] below is the exact
    real operation that the float operation approximates, so the theorems are
    statements about the algorithm in exact arithmetic.  Signed zeros, NaN and
    infinities have no counterpart here. *)

From Stdlib Require Import Reals Lra Lia List ZArith Bool Psatz.
From Stdlib Require String.
Import ListNotations String.StringSyntax.
Delimit Scope string_scope with string.
Bind Scope string_scope with String.string.
Open Scope R_scope.

(** ** Python numerics *)

(** [a == b] on floats. *)
Definition Reqb (a b : R) : bool := if Req_dec_T a b then true else false.

(** [a % m] on floats: the remainder of floored division, [a - m*floor(a/m)]. *)
Definition py_mod (a m : R) : R := a - m * IZR (Int_part (a / m)).

(** [round(x)] with one argument, as in the Python 2 this file targets: nearest
    integer, ties away from zero. *)
Definition py_round (x : R) : R :=
  if Rle_dec 0 x then IZR (Int_part (x + / 2)) else - IZR (Int_part (- x + / 2)).

(** [math.copysign(1, v)]. *)
Definition copysign1 (v : R) : R := if Rlt_dec v 0 then -1 else 1.

(** [math.atan2(y, x)]: the angle in (-PI, PI] of the point (x, y). *)
Definition atan2 (y x : R) : R :=
  if Rlt_dec 0 x then atan (y / x)
  else if Rlt_dec x 0 then
         (if Rle_dec 0 y then atan (y / x) + PI else atan (y / x) - PI)
  else if Rlt_dec 0 y then PI / 2
  else if Rlt_dec y 0 then - (PI / 2)
  else 0.

(** Python's built-in [complex]. *)
Module Complex.
Record t : Type := mk { re : R; im : R }.

Definition of_real (a : R) : t := mk a 0.
Definition j : t := mk 0 1.
Definition add (a b : t) : t := mk (re a + re b) (im a + im b).
Definition sub (a b : t) : t := mk (re a - re b) (im a - im b).
Definition neg (a : t) : t := mk (- re a) (- im a).
Definition mul (a b : t) : t :=
  mk (re a * re b - im a * im b) (re a * im b + im a * re b).
Definition div (a b : t) : t :=
  let n := re b * re b + im b * im b in
  mk ((re a * re b + im a * im b) / n) ((im a * re b - re a * im b) / n).
(** a float times a complex *)
Definition scale (k : R) (a : t) : t := mk (k * re a) (k * im a).
Definition abs (a : t) : R := sqrt (re a * re a + im a * im a).
Definition conj (a : t) : t := mk (re a) (- im a).
(** [cmath.log(p).imag] *)
Definition phase (a : t) : R := atan2 (im a) (re a).
(** [cmath.exp(angle * 1j)] *)
Definition exp_j (angle : R) : t := mk (Rtrigo_def.cos angle) (Rtrigo_def.sin angle).
End Complex.

(** 2x2 complex [numpy] matrices; [mIJ] is the entry [m[I, J]]. *)
Module Mat2.
Record t : Type := mk { m00 : Complex.t; m01 : Complex.t;
                        m10 : Complex.t; m11 : Complex.t }.

Definition map (f : Complex.t -> Complex.t) (m : t) : t :=
  mk (f (m00 m)) (f (m01 m)) (f (m10 m)) (f (m11 m)).
Definition map2 (f : Complex.t -> Complex.t -> Complex.t) (m n : t) : t :=
  mk (f (m00 m) (m00 n)) (f (m01 m) (m01 n))
     (f (m10 m) (m10 n)) (f (m11 m) (m11 n)).

Definition of_reals (a b c d : R) : t :=
  mk (Complex.of_real a) (Complex.of_real b) (Complex.of_real c) (Complex.of_real d).
Definition identity : t := of_reals 1 0 0 1.
Definition pauli_x : t := of_reals 0 1 1 0.
Definition pauli_y : t :=
  mk (Complex.of_real 0) (Complex.neg Complex.j) Complex.j (Complex.of_real 0).
Definition pauli_z : t := of_reals 1 0 0 (-1).

Definition add : t -> t -> t := map2 Complex.add.
(** matrix times a float, matrix times a complex, matrix over a float or a
    complex: all entrywise *)
Definition scale (k : R) : t -> t := map (Complex.scale k).
Definition cscale (c : Complex.t) : t -> t := map (fun e => Complex.mul e c).
Definition cdiv (m : t) (c : Complex.t) : t := map (fun e => Complex.div e c) m.
Definition rdiv (m : t) (k : R) : t := cdiv m (Complex.of_real k).
(** the conjugate transpose *)
Definition dagger (m : t) : t :=
  mk (Complex.conj (m00 m)) (Complex.conj (m10 m))
     (Complex.conj (m01 m)) (Complex.conj (m11 m)).
(** [*] on [np.mat]: the matrix product *)
Definition mul (m n : t) : t :=
  mk (Complex.add (Complex.mul (m00 m) (m00 n)) (Complex.mul (m01 m) (m10 n)))
     (Complex.add (Complex.mul (m00 m) (m01 n)) (Complex.mul (m01 m) (m11 n)))
     (Complex.add (Complex.mul (m10 m) (m00 n)) (Complex.mul (m11 m) (m10 n)))
     (Complex.add (Complex.mul (m10 m) (m01 n)) (Complex.mul (m11 m) (m11 n))).
End Mat2.

(** ** The collaborators of [rotation.py] *)

(** Modelled from the spec: the module [trig_tau] (imported by [rotation.py],
    not among the sources): trigonometry on angles counted in turns.  The spec
    gives [cos], [sin], [atan2] and [acos] in turns;
    [sinc(theta) = sin(theta)/theta] with the value 1 at [theta = 0], where
    [sin] is the sine in turns and [theta] the angle in turns (the reading
    under which the doctests of [from_quaternion], [then] and
    [as_pauli_operation] hold, as proved further down);
    [sin_scale_ratio(theta, f) = sin(theta*f)/sin(theta)], numerically
    stabilised, which is read as: the removable singularity at [theta = 0] is
    filled with the limit [f]; [expi(theta) = cos(theta) + i sin(theta)]; and
    [tau], a full turn in radians.  No theorem below depends on the value of
    [sinc] at 0. *)
Module trig_tau.
Definition tau : R := 2 * PI.
Definition cos (turns : R) : R := Rtrigo_def.cos (tau * turns).
Definition sin (turns : R) : R := Rtrigo_def.sin (tau * turns).
Definition atan2 (y x : R) : R := atan2 y x / tau.
Definition acos (x : R) : R := Ratan.acos x / tau.
Definition sinc (turns : R) : R :=
  if Req_dec_T turns 0 then 1 else sin turns / turns.
Definition sin_scale_ratio (theta fraction : R) : R :=
  if Req_dec_T theta 0 then fraction else sin (theta * fraction) / sin theta.
Definition expi (turns : R) : Complex.t := Complex.mk (cos turns) (sin turns).
End trig_tau.

(** Modelled from the spec: the class [Quaternion] of the module [quaternion]
    (imported by [rotation.py], not among the sources): construction from
    (w, x, y, z) or from a scalar, the Hamilton product, the dot product and
    component access. *)
Module Quaternion.
Record t : Type := mk { w : R; x : R; y : R; z : R }.

Definition of_scalar (a : R) : t := mk a 0 0 0.
Definition mul (p q : t) : t :=
  mk (w p * w q - x p * x q - y p * y q - z p * z q)
     (w p * x q + x p * w q + y p * z q - z p * y q)
     (w p * y q - x p * z q + y p * w q + z p * x q)
     (w p * z q + x p * y q - y p * x q + z p * w q).
Definition dot (p q : t) : R := w p * w q + x p * x q + y p * y q + z p * z q.
Definition neg (p : t) : t := mk (- w p) (- x p) (- y p) (- z p).
Definition conjugate (p : t) : t := mk (w p) (- x p) (- y p) (- z p).
End Quaternion.

(** ** rotation.py *)

(** [smooth_near_quarter_turn] *)
Definition smooth_near_quarter_turn (turns : R) : R :=
  let err := py_mod (turns - 0.125) 0.25 - 0.125 in
  if Rlt_dec (Rabs err) 0.000001 then py_round (turns * 4) / 4 else turns.

(** [max(l, key=lambda e: abs(e))] on a non-empty list [first :: rest]: the
    first element of largest modulus. *)
Definition max_by_abs (first : Complex.t) (rest : list Complex.t) : Complex.t :=
  fold_left (fun best e => if Rlt_dec (Complex.abs best) (Complex.abs e) then e else best)
            rest first.

(** [unitary_breakdown] *)
Definition unitary_breakdown (m : Mat2.t) : R * R * R * R * Complex.t :=
  let a := Mat2.m00 m in let b := Mat2.m01 m in
  let c := Mat2.m10 m in let d := Mat2.m11 m in
  let t := Complex.div (Complex.add a d) (Complex.mk 0 2) in
  let x := Complex.div (Complex.add b c) (Complex.of_real 2) in
  let y := Complex.div (Complex.sub b c) (Complex.mk 0 (-2)) in
  let z := Complex.div (Complex.sub a d) (Complex.of_real 2) in
  let p := max_by_abs t [x; y; z] in
  let p := Complex.div p (Complex.of_real (Complex.abs p)) in
  let pt := Complex.div t p in let px := Complex.div x p in
  let py := Complex.div y p in let pz := Complex.div z p in
  (Complex.re pt, Complex.re px, Complex.re py, Complex.re pz, p).

(** [unitary_lerp] *)
Definition unitary_lerp (u1 u2 : Mat2.t) (t : R) : Mat2.t :=
  let '(t1, x1, y1, z1, p1) := unitary_breakdown u1 in
  let '(t2, x2, y2, z2, p2) := unitary_breakdown u2 in
  let n1 := Mat2.cdiv u1 p1 in
  let n2 := Mat2.cdiv u2 p2 in
  let dot := Quaternion.dot (Quaternion.mk t1 x1 y1 z1) (Quaternion.mk t2 x2 y2 z2) in
  let '(p2, n2, dot) :=
    if Rlt_dec dot 0 then (Complex.scale (-1) p2, Mat2.scale (-1) n2, dot * -1)
    else (p2, n2, dot) in
  let theta := trig_tau.acos (Rmax (Rmin dot 1) (-1)) in
  let c1 := trig_tau.sin_scale_ratio theta (1 - t) in
  let c2 := trig_tau.sin_scale_ratio theta t in
  let n3 := Mat2.add (Mat2.scale c1 n1) (Mat2.scale c2 n2) in
  let phase_angle_1 := Complex.phase p1 in
  let phase_angle_2 := Complex.phase p2 in
  let phase_drift := py_mod (phase_angle_2 - phase_angle_1 + PI) trig_tau.tau - PI in
  let phase_angle_3 := phase_angle_1 + phase_drift * t in
  let p3 := Complex.exp_j phase_angle_3 in
  Mat2.cscale p3 n3.

(** [class Rotation]: the raw components, stored as given. *)
Record Rotation : Type := mkRotation { x : R; y : R; z : R }.

(** [Rotation()] *)
Definition no_rotation : Rotation := mkRotation 0 0 0.

Definition v (self : Rotation) : R * R * R := (x self, y self, z self).

Definition turns (self : Rotation) : R :=
  sqrt (x self ^ 2 + y self ^ 2 + z self ^ 2).

Definition axis (self : Rotation) : R * R * R :=
  let length := turns self in
  if Rlt_dec length 0.0000001 then (0, 0, 0)
  else (x self / length, y self / length, z self / length).

Definition as_pauli_operation (self : Rotation) : Mat2.t :=
  let '(x, y, z) := v self in
  let s := copysign1 (11 * x + 13 * y + 17 * z) in
  let theta := sqrt (x ^ 2 + y ^ 2 + z ^ 2) in
  let v := Mat2.add (Mat2.add (Mat2.scale x Mat2.pauli_x) (Mat2.scale y Mat2.pauli_y))
                    (Mat2.scale z Mat2.pauli_z) in
  let ci := Complex.add (Complex.of_real 1) (trig_tau.expi (s * theta)) in
  let cv :=
    if Rlt_dec theta 0.001 then
      Complex.sub (Complex.of_real (trig_tau.sin (theta / 2) * trig_tau.sinc (theta / 2)))
                  (Complex.scale (trig_tau.sinc theta) (Complex.scale s Complex.j))
    else
      Complex.div (Complex.sub (Complex.of_real 1) (trig_tau.expi (s * theta)))
                  (Complex.of_real theta) in
  Mat2.rdiv (Mat2.add (Mat2.cscale ci Mat2.identity) (Mat2.cscale cv (Mat2.scale s v))) 2.

Definition as_quaternion (self : Rotation) : Quaternion.t :=
  let t := turns self in
  if Rlt_dec t 0.000001 then Quaternion.of_scalar 1
  else
    let c := trig_tau.cos (t / 2) in
    let s := trig_tau.sin (t / 2) / t in
    Quaternion.mk c (s * x self) (s * y self) (s * z self).

(** [from_quaternion].  The three divisions by [d] are the total division of
    [R].  Where [d] is 0, which is where a full turn is recovered, Python
    raises ZeroDivisionError: the theorems on [from_quaternion] and [then]
    keep [d] away from 0 by their hypotheses, or equate two calls on one and
    the same quaternion. *)
Definition from_quaternion (q : Quaternion.t) : Rotation :=
  let turns :=
    2 * trig_tau.atan2
          (sqrt (Quaternion.x q ^ 2 + Quaternion.y q ^ 2 + Quaternion.z q ^ 2))
          (Quaternion.w q) in
  let smoothed_turns := smooth_near_quarter_turn turns in
  let d := trig_tau.sinc (smoothed_turns / 2) / 2 in
  let x := Quaternion.x q / d in
  let y := Quaternion.y q / d in
  let z := Quaternion.z q / d in
  mkRotation (smooth_near_quarter_turn x) (smooth_near_quarter_turn y)
             (smooth_near_quarter_turn z).

(** [then]: this rotation, then the following one. *)
Definition then_ (self following_rotation : Rotation) : Rotation :=
  from_quaternion (Quaternion.mul (as_quaternion following_rotation) (as_quaternion self)).

(** [__canonical]: the comparison key (t, x, y, z). *)
Definition __canonical (self : Rotation) : R * R * R * R :=
  let '(x, y, z) := axis self in
  let t := turns self in
  let s := x in
  let s := if Req_dec_T s 0 then y else s in
  let s := if Req_dec_T s 0 then z else s in
  let '(t, x, y, z) := if Rlt_dec s 0 then (- t, - x, - y, - z) else (t, x, y, z) in
  let t := py_mod t 1 in
  if Req_dec_T t 0 then (0, 0, 0, 0)
  else
    let t := if Rle_dec 0.5 t then t - 1 else t in
    (t, x, y, z).

Definition tuple4_eqb (a b : R * R * R * R) : bool :=
  let '(a1, a2, a3, a4) := a in
  let '(b1, b2, b3, b4) := b in
  Reqb a1 b1 && Reqb a2 b2 && Reqb a3 b3 && Reqb a4 b4.

Definition __eq__ (self other : Rotation) : bool :=
  tuple4_eqb (__canonical self) (__canonical other).

Definition __neg__ (self : Rotation) : Rotation :=
  mkRotation (- x self) (- y self) (- z self).

(** [l[-k]] for [k >= 1]; [None] stands for Python's IndexError. *)
Definition index_from_end {A : Type} (l : list A) (k : nat) : option A :=
  if ((1 <=? k) && (k <=? length l))%nat then nth_error l (length l - k) else None.

(** [l[:-k]] for [k >= 1]; a slice never fails, it is clamped at the front. *)
Definition slice_to_end {A : Type} (l : list A) (k : nat) : list A :=
  firstn (length l - k) l.

(** A test on [l[-k]], written behind a length guard of an [and] chain: the
    guard fails before [l[-k]] can raise (see [index_from_end_in_range]). *)
Definition test_at_end (test : Rotation -> bool) (l : list Rotation) (k : nat) : bool :=
  match index_from_end l k with
  | Some r => test r
  | None => false
  end.

Definition plus_rotation_simplified (prev_rotations : list Rotation)
           (next_rotation : Rotation) : list Rotation :=
  let n := length prev_rotations in
  if (1 <=? n)%nat
     && test_at_end (fun last => __eq__ next_rotation (__neg__ last)) prev_rotations 1
  then slice_to_end prev_rotations 1
  else if (2 <=? n)%nat
          && Reqb (turns next_rotation) 0.25
          && test_at_end (__eq__ next_rotation) prev_rotations 1
          && test_at_end (__eq__ next_rotation) prev_rotations 2
  then slice_to_end prev_rotations 2 ++ [__neg__ next_rotation]
  else prev_rotations ++ [next_rotation].

(** [__ne__] *)
Definition __ne__ (self other : Rotation) : bool := negb (__eq__ self other).

(** [__hash__]: the hash of the comparison key.  [hash] stands for the hash
    that Python's tuples of floats come with. *)
Definition __hash__ (hash : R * R * R * R -> Z) (self : Rotation) : Z :=
  hash (__canonical self).

(** The two printers that [rotation.py] takes from the language, Python's
    [str] on a float and [repr] on a tuple of three floats, are left open:
    [str_fraction] and [__repr__] are functions of them. *)
Section Printing.
Variable str : R -> String.string.
Variable tuple_repr : R * R * R -> String.string.

(** [str_fraction]; the strings for the vulgar fractions are the UTF-8 bytes
    of the source.  The recursive call of the source is on [-v] for a
    negative [v], a positive number, which takes the branches after the
    first: they are written once, as [named]. *)
Definition str_fraction (v : R) : String.string :=
  let named (v : R) : String.string :=
    if Req_dec_T v 0 then "0"%string
    else if Req_dec_T v 0.25 then "¼"%string
    else if Req_dec_T v 0.5 then "½"%string
    else if Req_dec_T v 0.75 then "¾"%string
    else str v in
  if Rlt_dec v 0 then String.append "-" (named (- v)) else named v.

Definition __repr__ (self : Rotation) : String.string :=
  let t := py_mod (turns self) 1 in
  if Req_dec_T t 0 then "(no rotation)"%string
  else if Rlt_dec t 0.001 then "(negligible rotation)"%string
  else if Rlt_dec 0.999 t then "(negligible rotation)"%string
  else if Reqb (y self) 0 && Reqb (z self) 0
       then String.append "X:" (str_fraction (py_mod (x self) 1))
  else if Reqb (x self) 0 && Reqb (z self) 0
       then String.append "Y:" (str_fraction (py_mod (y self) 1))
  else if Reqb (x self) 0 && Reqb (y self) 0
       then String.append "Z:" (str_fraction (py_mod (z self) 1))
  else tuple_repr (x self, y self, z self).

Definition __str__ (self : Rotation) : String.string := __repr__ self.
End Printing.

(** *** Lists as Python objects

    A Python list is a mutable object reached through a reference.  To state
    what [plus_rotation_simplified] leaves alone, the list objects live in a
    store addressed by position; the function reads its argument through its
    reference and, as every [return] of the source builds its value with a
    slice or with [+], allocates the result as a new object. *)
Definition heap : Type := list (list Rotation).
Definition loc : Type := nat.

Definition load (h : heap) (p : loc) : option (list Rotation) := nth_error h p.
Definition alloc (h : heap) (l : list Rotation) : heap * loc := (h ++ [l], length h).

Definition plus_rotation_simplified_on_heap (h : heap) (prev_rotations : loc)
           (next_rotation : Rotation) : option (heap * loc) :=
  match load h prev_rotations with
  | Some l => Some (alloc h (plus_rotation_simplified l next_rotation))
  | None => None
  end.

(** ** Vocabulary of the specification *)

(** The turn component of a comparison key. *)
Definition turn_of (c : R * R * R * R) : R := let '(t, _, _, _) := c in t.

(** First rule of the simplifier: the new rotation undoes the last one. *)
Definition cancels_last (prev : list Rotation) (next : Rotation) : Prop :=
  exists init last, prev = init ++ [last] /\ __eq__ next (__neg__ last) = true.

(** Second rule: a third equal quarter turn. *)
Definition third_quarter_turn (prev : list Rotation) (next : Rotation) : Prop :=
  exists init r2 r1,
    prev = init ++ [r2; r1] /\ turns next = 0.25
    /\ __eq__ next r1 = true /\ __eq__ next r2 = true /\ __eq__ r1 r2 = true.

(** A 2x2 unitary matrix: its conjugate transpose is its inverse. *)
Definition is_unitary (m : Mat2.t) : Prop :=
  Mat2.mul m (Mat2.dagger m) = Mat2.identity /\ Mat2.mul (Mat2.dagger m) m = Mat2.identity.

(** The matrix [p * (t*E + x*X + y*Y + z*Z)] of a breakdown (t, x, y, z, p), for
    a first basis element [E]: the specification names the identity, the
    docstring of [unitary_breakdown] names [Ii], the identity times i. *)
Definition recombine (E : Mat2.t) (b : R * R * R * R * Complex.t) : Mat2.t :=
  let '(t, x, y, z, p) := b in
  Mat2.cscale p
    (Mat2.add (Mat2.add (Mat2.add (Mat2.scale t E) (Mat2.scale x Mat2.pauli_x))
                        (Mat2.scale y Mat2.pauli_y))
              (Mat2.scale z Mat2.pauli_z)).

Definition identity_i : Mat2.t := Mat2.cscale Complex.j Mat2.identity.

(** The four complex coefficients that [unitary_breakdown] extracts first,
    in the order in which it hands them to [max]. *)
Definition pauli_coefficients (m : Mat2.t) : list Complex.t :=
  [ Complex.div (Complex.add (Mat2.m00 m) (Mat2.m11 m)) (Complex.mk 0 2);
    Complex.div (Complex.add (Mat2.m01 m) (Mat2.m10 m)) (Complex.of_real 2);
    Complex.div (Complex.sub (Mat2.m01 m) (Mat2.m10 m)) (Complex.mk 0 (-2));
    Complex.div (Complex.sub (Mat2.m00 m) (Mat2.m11 m)) (Complex.of_real 2) ].

(** The phase component of a breakdown. *)
Definition phase_of (b : R * R * R * R * Complex.t) : Complex.t := snd b.

(** The 2x2 matrix [w*I - i*(x*X + y*Y + z*Z)] that represents a quaternion:
    the Hamilton product becomes the matrix product. *)
Definition quat_matrix (q : Quaternion.t) : Mat2.t :=
  Mat2.mk (Complex.mk (Quaternion.w q) (- Quaternion.z q))
          (Complex.mk (- Quaternion.y q) (- Quaternion.x q))
          (Complex.mk (Quaternion.y q) (- Quaternion.x q))
          (Complex.mk (Quaternion.w q) (Quaternion.z q)).

(** The global phase that [as_pauli_operation] puts in front of that matrix:
    half the signed angle. *)
Definition rotation_phase (r : Rotation) : Complex.t :=
  trig_tau.expi (copysign1 (11 * x r + 13 * y r + 17 * z r) * turns r / 2).

(** No rotation at all, or a rotation at or above the small-angle cut-off of
    [as_quaternion]. *)
Definition regular (r : Rotation) : Prop := turns r = 0 \/ 0.000001 <= turns r.

(** Equality of matrices up to a global phase. *)
Definition equal_up_to_phase (m n : Mat2.t) : Prop :=
  exists c : Complex.t, Complex.abs c = 1 /\ m = Mat2.cscale c n.

(** The squared modulus. *)
Definition norm2 (c : Complex.t) : R := Complex.re c * Complex.re c + Complex.im c * Complex.im c.

(** Two complex numbers on one real line through the origin. *)
Definition collinear (u v : Complex.t) : Prop :=
  Complex.im u * Complex.re v = Complex.re u * Complex.im v.

(** The first nonzero coordinate of a direction is positive: the directions
    that [__canonical] keeps. *)
Definition leading_positive (n : R * R * R) : Prop :=
  let '(a, b, c) := n in 0 < a \/ (a = 0 /\ 0 < b) \/ (a = 0 /\ b = 0 /\ 0 < c).

(** The squared length of a triple. *)
Definition norm3 (n : R * R * R) : R := let '(a, b, c) := n in a * a + b * b + c * c.

(** The rotation vector of [c] turns about the direction [n]. *)
Definition about (n : R * R * R) (c : R) : Rotation :=
  let '(a, b, d) := n in mkRotation (c * a) (c * b) (c * d).

(** The coordinate that [__canonical] tests the sign of: the first nonzero
    one, or 0. *)
Definition first_nonzero (n : R * R * R) : R :=
  let '(a, b, c) := n in
  let s := a in
  let s := if Req_dec_T s 0 then b else s in
  if Req_dec_T s 0 then c else s.

(** The key of [c] turns about a kept direction [n]. *)
Definition key_of (n : R * R * R) (c : R) : R * R * R * R :=
  let '(a, b, d) := n in
  let t := py_mod c 1 in
  if Req_dec_T t 0 then (0, 0, 0, 0)
  else (if Rle_dec 0.5 t then t - 1 else t, a, b, d).

Definition opp3 (n : R * R * R) : R * R * R := let '(a, b, c) := n in (- a, - b, - c).

(** The linear form whose sign [as_pauli_operation] takes as its phase
    branch. *)
Definition branch_form (n : R * R * R) : R := let '(a, b, c) := n in 11 * a + 13 * b + 17 * c.

(** The unit quaternion and the phase of [a] turns about the unit direction
    [n], for the branch sign [sg]. *)
Definition axis_quaternion (n : R * R * R) (a : R) : Quaternion.t :=
  let '(n1, n2, n3) := n in
  Quaternion.mk (Rtrigo_def.cos (PI * a)) (Rtrigo_def.sin (PI * a) * n1)
                (Rtrigo_def.sin (PI * a) * n2) (Rtrigo_def.sin (PI * a) * n3).

Definition axis_phase (sg a : R) : Complex.t :=
  Complex.mk (Rtrigo_def.cos (PI * a)) (sg * Rtrigo_def.sin (PI * a)).

(** The matrix [t*iI + x*X + y*Y + z*Z] of four real coefficients: what a
    breakdown describes once its phase is divided out. *)
Definition pauli_combination (q : Quaternion.t) : Mat2.t :=
  Mat2.add (Mat2.add (Mat2.add (Mat2.scale (Quaternion.w q) identity_i)
                               (Mat2.scale (Quaternion.x q) Mat2.pauli_x))
                     (Mat2.scale (Quaternion.y q) Mat2.pauli_y))
           (Mat2.scale (Quaternion.z q) Mat2.pauli_z).

(** The operator of a sequence of rotations applied one after the other, the
    first element first: each further operator multiplies from the left. *)
Definition net_operation (l : list Rotation) : Mat2.t :=
  fold_left (fun acc r => Mat2.mul (as_pauli_operation r) acc) l Mat2.identity.

(** A rotation of at least a ten-millionth of a turn, which is where [axis]
    starts to return a direction, that lies off the plane
    11x + 13y + 17z = 0 of the phase branch of [as_pauli_operation]. *)
Definition well_conditioned (r : Rotation) : Prop :=
  0.0000001 <= turns r /\ 11 * x r + 13 * y r + 17 * z r <> 0.

(** What is printed for a rotation of [a] turns along a coordinate axis with
    the label [label]: it depends on [a % 1] alone. *)
Definition axis_text (str : R -> String.string) (label : String.string) (a : R)
  : String.string :=
  let f := py_mod a 1 in
  if Req_dec_T f 0 then "(no rotation)"%string
  else if Rlt_dec f 0.001 then "(negligible rotation)"%string
  else if Rlt_dec 0.999 f then "(negligible rotation)"%string
  else String.append label (str_fraction str f).

(** What [from_quaternion] recovers from a quaternion before it smooths: the
    number of turns, and the rotation vector for that number of turns. *)
Definition quaternion_turns (q : Quaternion.t) : R :=
  2 * trig_tau.atan2
        (sqrt (Quaternion.x q ^ 2 + Quaternion.y q ^ 2 + Quaternion.z q ^ 2))
        (Quaternion.w q).

Definition quaternion_vector (q : Quaternion.t) : Rotation :=
  let d := trig_tau.sinc (quaternion_turns q / 2) / 2 in
  mkRotation (Quaternion.x q / d) (Quaternion.y q / d) (Quaternion.z q / d).

(** [from_quaternion] smooths nothing away on [q]: the recovered turns and
    the three recovered components are fixed points of
    [smooth_near_quarter_turn]. *)
Definition unsmoothed (q : Quaternion.t) : Prop :=
  smooth_near_quarter_turn (quaternion_turns q) = quaternion_turns q
  /\ smooth_near_quarter_turn (x (quaternion_vector q)) = x (quaternion_vector q)
  /\ smooth_near_quarter_turn (y (quaternion_vector q)) = y (quaternion_vector q)
  /\ smooth_near_quarter_turn (z (quaternion_vector q)) = z (quaternion_vector q).

(** ** Tactics and arithmetic helpers *)

(** Decide the first real comparison the goal branches on; [lra] closes the
    branch that cannot happen. *)
Ltac rdec :=
  match goal with
  | |- context [Rlt_dec ?a ?b] => destruct (Rlt_dec a b); try lra
  | |- context [Rle_dec ?a ?b] => destruct (Rle_dec a b); try lra
  | |- context [Req_dec_T ?a ?b] => destruct (Req_dec_T a b); try lra
  end.

(** Unfold the complex and matrix operations down to real arithmetic. *)
Tactic Notation "cx_unfold" "in" hyp(H) :=
  cbv beta iota zeta delta
    [Mat2.rdiv Mat2.cdiv Mat2.cscale Mat2.add Mat2.scale Mat2.map Mat2.map2
     Mat2.mul Mat2.dagger Mat2.identity Mat2.pauli_x Mat2.pauli_y Mat2.pauli_z
     Mat2.of_reals Mat2.m00 Mat2.m01 Mat2.m10 Mat2.m11
     Complex.mul Complex.div Complex.add Complex.sub Complex.scale Complex.neg
     Complex.conj Complex.j Complex.of_real Complex.re Complex.im
     Quaternion.w Quaternion.x Quaternion.y Quaternion.z] in H.

Ltac cx_unfold :=
  cbv beta iota zeta delta
    [Mat2.rdiv Mat2.cdiv Mat2.cscale Mat2.add Mat2.scale Mat2.map Mat2.map2
     Mat2.mul Mat2.dagger Mat2.identity Mat2.pauli_x Mat2.pauli_y Mat2.pauli_z
     Mat2.of_reals Mat2.m00 Mat2.m01 Mat2.m10 Mat2.m11
     Complex.mul Complex.div Complex.add Complex.sub Complex.scale Complex.neg
     Complex.conj Complex.j Complex.of_real Complex.re Complex.im
     Quaternion.w Quaternion.x Quaternion.y Quaternion.z].

Lemma Int_part_eq (r : R) (k : Z) : IZR k <= r < IZR k + 1 -> Int_part r = k.
Proof. intros H. symmetry. apply Int_part_spec. lra. Qed.

Lemma Int_part_IZR_half (k : Z) : Int_part (IZR k + / 2) = k.
Proof. apply Int_part_eq. lra. Qed.

Lemma py_mod_bounds (a m : R) : 0 < m -> 0 <= py_mod a m < m.
Proof.
  intros Hm. unfold py_mod.
  destruct (base_Int_part (a / m)) as [Hlo Hhi].
  assert (Ha : a = m * (a / m)) by (field; lra).
  split.
  - assert (m * IZR (Int_part (a / m)) <= m * (a / m)) by (apply Rmult_le_compat_l; lra).
    lra.
  - assert (m * (a / m - 1) < m * IZR (Int_part (a / m))) by (apply Rmult_lt_compat_l; lra).
    lra.
Qed.

Lemma py_mod_congruent (a m : R) : exists k : Z, py_mod a m = a - m * IZR k.
Proof. now exists (Int_part (a / m)). Qed.

Lemma py_round_IZR (k : Z) : py_round (IZR k) = IZR k.
Proof.
  unfold py_round. rdec.
  - now rewrite Int_part_IZR_half.
  - replace (- IZR k) with (IZR (- k)) by apply opp_IZR.
    rewrite Int_part_IZR_half, opp_IZR. lra.
Qed.

Lemma py_round_integer (x : R) : exists k : Z, py_round x = IZR k.
Proof.
  unfold py_round. rdec.
  - now eexists.
  - exists (- Int_part (- x + / 2))%Z. now rewrite opp_IZR.
Qed.

(** ** [smooth_near_quarter_turn] *)

Lemma smooth_quarter_multiple (k : Z) :
  smooth_near_quarter_turn (IZR k * 0.25) = IZR k * 0.25.
Proof.
  unfold smooth_near_quarter_turn, py_mod.
  replace (Int_part ((IZR k * 0.25 - 0.125) / 0.25)) with (k - 1)%Z.
  2:{ symmetry. apply Int_part_eq. rewrite minus_IZR. lra. }
  rewrite minus_IZR.
  replace (IZR k * 0.25 - 0.125 - 0.25 * (IZR k - 1) - 0.125) with 0 by lra.
  rewrite Rabs_R0. rdec.
  replace (IZR k * 0.25 * 4) with (IZR k) by lra.
  rewrite py_round_IZR. lra.
Qed.

Lemma smooth_cases (v : R) :
  smooth_near_quarter_turn v = v \/
  exists k : Z, smooth_near_quarter_turn v = IZR k * 0.25.
Proof.
  unfold smooth_near_quarter_turn.
  destruct (Rlt_dec _ _) as [_ | _]; [right | now left].
  destruct (py_round_integer (v * 4)) as [k Hk]. exists k. rewrite Hk. lra.
Qed.

(** C9: smoothing twice is smoothing once, and every exact multiple of a
    quarter turn is left as it is. *)
Theorem smooth_near_quarter_turn_idempotent :
  (forall v : R,
      smooth_near_quarter_turn (smooth_near_quarter_turn v) = smooth_near_quarter_turn v)
  /\ (forall k : Z, smooth_near_quarter_turn (IZR k * 0.25) = IZR k * 0.25).
Proof.
  split.
  - intros v. destruct (smooth_cases v) as [H | [k H]].
    + now rewrite !H.
    + rewrite H. apply smooth_quarter_multiple.
  - apply smooth_quarter_multiple.
Qed.

(** Snapping: within a millionth of a multiple of a quarter, the value becomes
    that multiple. *)
Lemma smooth_snaps (k : Z) (v : R) :
  Rabs (v - IZR k * 0.25) < 0.000001 -> smooth_near_quarter_turn v = IZR k * 0.25.
Proof.
  intros H. apply Rabs_def2 in H as [Hhi Hlo].
  unfold smooth_near_quarter_turn, py_mod.
  replace (Int_part ((v - 0.125) / 0.25)) with (k - 1)%Z
    by (symmetry; apply Int_part_eq; rewrite minus_IZR; lra).
  rewrite minus_IZR.
  destruct (Rlt_dec _ _) as [_ | Hn].
  - unfold py_round. destruct (Rle_dec 0 (v * 4)).
    + replace (Int_part (v * 4 + / 2)) with k by (symmetry; apply Int_part_eq; lra). lra.
    + replace (Int_part (- (v * 4) + / 2)) with (- k)%Z
        by (symmetry; apply Int_part_eq; rewrite opp_IZR; lra).
      rewrite opp_IZR. lra.
  - exfalso. apply Hn. apply Rabs_def1; lra.
Qed.

(** Away from every multiple of a quarter, the value is returned as it is. *)
Lemma smooth_keeps (k : Z) (v : R) :
  IZR k * 0.25 + 0.000001 <= v <= IZR (k + 1) * 0.25 - 0.000001 ->
  smooth_near_quarter_turn v = v.
Proof.
  rewrite plus_IZR. intros H.
  unfold smooth_near_quarter_turn, py_mod.
  destruct (Rle_lt_dec (IZR k * 0.25 + 0.125) v) as [Hhalf | Hhalf].
  - replace (Int_part ((v - 0.125) / 0.25)) with k by (symmetry; apply Int_part_eq; lra).
    destruct (Rlt_dec _ _) as [Hs | _]; [ | reflexivity].
    apply Rabs_def2 in Hs. lra.
  - replace (Int_part ((v - 0.125) / 0.25)) with (k - 1)%Z
      by (symmetry; apply Int_part_eq; rewrite minus_IZR; lra).
    rewrite minus_IZR.
    destruct (Rlt_dec _ _) as [Hs | _]; [ | reflexivity].
    apply Rabs_def2 in Hs. lra.
Qed.

(** Two doctests of [smooth_near_quarter_turn]. *)
Example smooth_doctest_drift : smooth_near_quarter_turn 0.250000000001 = 0.25.
Proof.
  replace 0.25 with (IZR 1 * 0.25) by lra. apply smooth_snaps. apply Rabs_def1; lra.
Qed.

Example smooth_doctest_far : smooth_near_quarter_turn 0.223434325454 = 0.223434325454.
Proof. apply (smooth_keeps 0). simpl IZR. lra. Qed.

Lemma smooth_zero : smooth_near_quarter_turn 0 = 0.
Proof.
  replace 0 with (IZR 0 * 0.25) by lra. apply smooth_quarter_multiple.
Qed.

Lemma smooth_quarter : smooth_near_quarter_turn 0.25 = 0.25.
Proof. replace 0.25 with (IZR 1 * 0.25) by lra. apply smooth_quarter_multiple. Qed.

Lemma smooth_half : smooth_near_quarter_turn 0.5 = 0.5.
Proof. replace 0.5 with (IZR 2 * 0.25) by lra. apply smooth_quarter_multiple. Qed.

Lemma smooth_minus_half : smooth_near_quarter_turn (-0.5) = -0.5.
Proof. replace (-0.5) with (IZR (-2) * 0.25) by lra. apply smooth_quarter_multiple. Qed.

(** ** Negation *)

(** C10: negation negates each component, is an involution on the raw
    components and keeps the number of turns. *)
Theorem neg_componentwise_involution (r : Rotation) :
  v (__neg__ r) = (- x r, - y r, - z r)
  /\ __neg__ (__neg__ r) = r
  /\ turns (__neg__ r) = turns r.
Proof.
  destruct r as [a b c]. unfold __neg__, turns, v. simpl.
  repeat split.
  - now rewrite !Ropp_involutive.
  - f_equal. ring.
Qed.

Lemma turns_neg (r : Rotation) : turns (__neg__ r) = turns r.
Proof. unfold turns, __neg__. cbn [x y z]. f_equal. ring. Qed.

Lemma neg_x_axis (a : R) : __neg__ (mkRotation a 0 0) = mkRotation (- a) 0 0.
Proof. unfold __neg__. cbn [x y z]. f_equal; ring. Qed.

(** ** [turns], [axis] and the canonical form *)

Lemma turns_sqr (r : Rotation) : turns r * turns r = x r ^ 2 + y r ^ 2 + z r ^ 2.
Proof. unfold turns. apply sqrt_sqrt. nra. Qed.

Lemma turns_x_axis (a : R) : 0 <= a -> turns (mkRotation a 0 0) = a.
Proof.
  intros Ha. unfold turns. cbn [x y z].
  replace (a ^ 2 + 0 ^ 2 + 0 ^ 2) with (a * a) by ring. now apply sqrt_square.
Qed.

Lemma turns_of (r : Rotation) (t : R) :
  0 <= t -> x r ^ 2 + y r ^ 2 + z r ^ 2 = t * t -> turns r = t.
Proof. intros Ht H. unfold turns. rewrite H. now apply sqrt_square. Qed.

Lemma turns_zero : turns no_rotation = 0.
Proof. unfold no_rotation. apply turns_x_axis. lra. Qed.

Lemma py_mod_small (a : R) : 0 <= a < 1 -> py_mod a 1 = a.
Proof.
  intros Ha. unfold py_mod.
  replace (Int_part (a / 1)) with 0%Z by (symmetry; apply Int_part_eq; lra). lra.
Qed.

Lemma canonical_x_half_turn : __canonical (mkRotation 0.5 0 0) = (-0.5, 1, 0, 0).
Proof.
  unfold __canonical, axis. rewrite turns_x_axis by lra. cbn [x y z].
  rdec.
  replace (0.5 / 0.5) with 1 by lra. replace (0 / 0.5) with 0 by lra.
  destruct (Req_dec_T 1 0); [lra | ]. destruct (Req_dec_T 1 0); [lra | ].
  destruct (Rlt_dec 1 0); [lra | ].
  rewrite py_mod_small by lra.
  destruct (Req_dec_T 0.5 0); [lra | ]. destruct (Rle_dec 0.5 0.5); [ | lra].
  f_equal. f_equal. f_equal. lra.
Qed.

Lemma canonical_no_rotation : __canonical no_rotation = (0, 0, 0, 0).
Proof.
  unfold __canonical, axis. rewrite turns_zero.
  destruct (Rlt_dec 0 0.0000001); [ | lra].
  destruct (Req_dec_T 0 0); [ | lra]. destruct (Req_dec_T 0 0); [ | lra].
  destruct (Rlt_dec 0 0); [lra | ].
  rewrite py_mod_small by lra. destruct (Req_dec_T 0 0); [reflexivity | lra].
Qed.

Lemma canonical_x_axis (a : R) :
  0.0000001 <= a < 0.5 -> __canonical (mkRotation a 0 0) = (a, 1, 0, 0).
Proof.
  intros Ha. unfold __canonical, axis. rewrite turns_x_axis by lra. cbn [x y z].
  destruct (Rlt_dec a 0.0000001); [lra | ].
  replace (a / a) with 1 by (field; lra). replace (0 / a) with 0 by (field; lra).
  destruct (Req_dec_T 1 0); [lra | ]. destruct (Req_dec_T 1 0); [lra | ].
  destruct (Rlt_dec 1 0); [lra | ].
  rewrite py_mod_small by lra.
  destruct (Req_dec_T a 0); [lra | ]. destruct (Rle_dec 0.5 a); [lra | reflexivity].
Qed.

Lemma canonical_minus_x_axis (a : R) :
  0.0000001 <= a <= 0.5 -> __canonical (mkRotation (- a) 0 0) = (- a, 1, 0, 0).
Proof.
  intros Ha. unfold __canonical, axis.
  rewrite (turns_of _ a) by (cbn [x y z]; lra || ring). cbn [x y z].
  destruct (Rlt_dec a 0.0000001); [lra | ].
  replace (- a / a) with (-1) by (field; lra). replace (0 / a) with 0 by (field; lra).
  destruct (Req_dec_T (-1) 0); [lra | ]. destruct (Req_dec_T (-1) 0); [lra | ].
  destruct (Rlt_dec (-1) 0); [ | lra].
  assert (Hm : py_mod (- a) 1 = 1 - a).
  { unfold py_mod. replace (Int_part (- a / 1)) with (-1)%Z
      by (symmetry; apply Int_part_eq; lra). lra. }
  rewrite Hm. destruct (Req_dec_T (1 - a) 0); [lra | ].
  destruct (Rle_dec 0.5 (1 - a)); [ | lra].
  repeat f_equal; lra.
Qed.

(** C6, as stated, fails at a half turn about x: its key has the turn
    component -0.5, which is outside (-0.5, 0.5]. *)
Lemma canonical_half_turn_outside_claimed_range :
  ~ (let c := __canonical (mkRotation 0.5 0 0) in
     c = (0, 0, 0, 0) \/ -0.5 < turn_of c <= 0.5).
Proof.
  rewrite canonical_x_half_turn. simpl. intros [H | H].
  - inversion H. lra.
  - lra.
Qed.

(** C6, amended: the key is exactly (0,0,0,0) when the signed turn count is a
    whole number, and otherwise its turn component is the signed turn count
    reduced by a whole number into [-0.5, 0.5), zero excluded. *)
Theorem canonical_range (r : Rotation) :
  let c := __canonical r in
  (c = (0, 0, 0, 0) /\ exists k : Z, turns r = IZR k)
  \/ (-0.5 <= turn_of c < 0.5 /\ turn_of c <> 0
      /\ exists k : Z, turn_of c = turns r - IZR k \/ turn_of c = - turns r - IZR k).
Proof.
  unfold __canonical. destruct (axis r) as [[ax ay] az].
  set (s := if Req_dec_T (if Req_dec_T ax 0 then ay else ax) 0 then az
            else if Req_dec_T ax 0 then ay else ax).
  destruct (Rlt_dec s 0) as [_ | _].
  - destruct (py_mod_bounds (- turns r) 1) as [Hlo Hhi]; [lra | ].
    destruct (py_mod_congruent (- turns r) 1) as [k Hk].
    destruct (Req_dec_T (py_mod (- turns r) 1) 0) as [H0 | H0].
    + left. split; [reflexivity | ]. exists (- k)%Z. rewrite opp_IZR. lra.
    + right. destruct (Rle_dec 0.5 (py_mod (- turns r) 1)); simpl.
      * repeat split; try lra. exists (k + 1)%Z. right. rewrite plus_IZR. lra.
      * repeat split; try lra. exists k. right. lra.
  - destruct (py_mod_bounds (turns r) 1) as [Hlo Hhi]; [lra | ].
    destruct (py_mod_congruent (turns r) 1) as [k Hk].
    destruct (Req_dec_T (py_mod (turns r) 1) 0) as [H0 | H0].
    + left. split; [reflexivity | ]. exists k. lra.
    + right. destruct (Rle_dec 0.5 (py_mod (turns r) 1)); simpl.
      * repeat split; try lra. exists (k + 1)%Z. left. rewrite plus_IZR. lra.
      * repeat split; try lra. exists k. left. lra.
Qed.

(** ** Canonical equality *)

Lemma Reqb_true (a b : R) : Reqb a b = true <-> a = b.
Proof. unfold Reqb. destruct (Req_dec_T a b); split; congruence. Qed.

Lemma tuple4_eqb_true (a b : R * R * R * R) : tuple4_eqb a b = true <-> a = b.
Proof.
  destruct a as [[[a1 a2] a3] a4], b as [[[b1 b2] b3] b4]. unfold tuple4_eqb.
  rewrite !andb_true_iff, !Reqb_true. split.
  - intros [[[-> ->] ->] ->]. reflexivity.
  - intros H. inversion H. auto.
Qed.

Lemma eq_canonical (a b : Rotation) : __eq__ a b = true <-> __canonical a = __canonical b.
Proof. apply tuple4_eqb_true. Qed.

Lemma eq_refl_rotation (a : Rotation) : __eq__ a a = true.
Proof. now apply eq_canonical. Qed.

Lemma eq_sym_trans (a b c : Rotation) :
  __eq__ a b = true -> __eq__ a c = true -> __eq__ b c = true.
Proof. rewrite !eq_canonical. congruence. Qed.

(** ** The sequence simplifier *)

Section ListEnds.
Context {A : Type}.

Lemma index_from_end_last (init : list A) (a : A) :
  index_from_end (init ++ [a]) 1 = Some a.
Proof.
  unfold index_from_end. rewrite length_app. simpl length.
  replace (1 <=? 1)%nat with true by reflexivity.
  replace (1 <=? length init + 1)%nat with true by (symmetry; apply Nat.leb_le; lia).
  simpl andb. replace (length init + 1 - 1)%nat with (length init) by lia.
  rewrite nth_error_app2 by lia. now rewrite Nat.sub_diag.
Qed.

Lemma index_from_end_second (init : list A) (b a : A) :
  index_from_end (init ++ [b; a]) 2 = Some b.
Proof.
  unfold index_from_end. rewrite length_app. simpl length.
  replace (1 <=? 2)%nat with true by reflexivity.
  replace (2 <=? length init + 2)%nat with true by (symmetry; apply Nat.leb_le; lia).
  simpl andb. replace (length init + 2 - 2)%nat with (length init) by lia.
  rewrite nth_error_app2 by lia. now rewrite Nat.sub_diag.
Qed.

Lemma index_from_end_in_range (l : list A) (k : nat) :
  (1 <= k <= length l)%nat -> exists a, index_from_end l k = Some a.
Proof.
  intros [H1 H2]. unfold index_from_end.
  replace (1 <=? k)%nat with true by (symmetry; now apply Nat.leb_le).
  replace (k <=? length l)%nat with true by (symmetry; now apply Nat.leb_le).
  cbn [andb]. destruct (nth_error l (length l - k)) as [a | ] eqn:E.
  - now exists a.
  - apply nth_error_None in E. lia.
Qed.

Lemma slice_to_end_app (init tail : list A) :
  slice_to_end (init ++ tail) (length tail) = init.
Proof.
  unfold slice_to_end. rewrite length_app.
  replace (length init + length tail - length tail)%nat with (length init) by lia.
  rewrite firstn_app, Nat.sub_diag, firstn_all. simpl. apply app_nil_r.
Qed.

Lemma list_end_cases (l : list A) :
  l = [] \/ (exists a, l = [a]) \/ (exists init b a, l = init ++ [b; a]).
Proof.
  destruct l as [ | a0 l0] using rev_ind; [now left | right].
  destruct l0 as [ | b0 l1] using rev_ind.
  - left. now exists a0.
  - right. exists l1, b0, a0. now rewrite <- app_assoc.
Qed.
End ListEnds.

Lemma prs_snoc (init : list Rotation) (last next : Rotation) :
  plus_rotation_simplified (init ++ [last]) next =
  if __eq__ next (__neg__ last) then init
  else if (2 <=? length init + 1)%nat && Reqb (turns next) 0.25
          && __eq__ next last && test_at_end (__eq__ next) (init ++ [last]) 2
       then slice_to_end (init ++ [last]) 2 ++ [__neg__ next]
       else init ++ [last; next].
Proof.
  unfold plus_rotation_simplified, test_at_end.
  rewrite index_from_end_last, length_app. simpl length.
  replace (1 <=? length init + 1)%nat with true by (symmetry; apply Nat.leb_le; lia).
  simpl andb. change 1%nat with (length [last]) at 1. rewrite slice_to_end_app.
  destruct (__eq__ next (__neg__ last)); [reflexivity | ].
  now rewrite <- app_assoc.
Qed.

Lemma prs_single (a next : Rotation) :
  __eq__ next (__neg__ a) = false -> plus_rotation_simplified [a] next = [a; next].
Proof. intros H. change [a] with ([] ++ [a]). rewrite prs_snoc, H. reflexivity. Qed.

Lemma prs_snoc2 (init : list Rotation) (r2 r1 next : Rotation) :
  __eq__ next (__neg__ r1) = false ->
  plus_rotation_simplified (init ++ [r2; r1]) next =
  if Reqb (turns next) 0.25 && __eq__ next r1 && __eq__ next r2
  then init ++ [__neg__ next] else init ++ [r2; r1; next].
Proof.
  intros H. change [r2; r1] with ([r2] ++ [r1]). rewrite app_assoc, prs_snoc, H.
  rewrite <- !app_assoc. cbn [app]. unfold test_at_end.
  rewrite index_from_end_second. rewrite length_app. simpl length.
  replace (2 <=? length init + 1 + 1)%nat with true by (symmetry; apply Nat.leb_le; lia).
  simpl andb. change 2%nat with (length [r2; r1]) at 1. now rewrite slice_to_end_app.
Qed.

(** C5: the simplifier applies exactly one of its three rules: cancellation
    against the last element; else, a third equal quarter turn replaces the
    last two elements by the negated new one; else the new one is appended. *)
Theorem plus_rotation_simplified_rules (prev : list Rotation) (next : Rotation) :
  (forall init last,
      prev = init ++ [last] -> __eq__ next (__neg__ last) = true ->
      plus_rotation_simplified prev next = init)
  /\ (forall init r2 r1,
         ~ cancels_last prev next ->
         prev = init ++ [r2; r1] -> turns next = 0.25 ->
         __eq__ next r1 = true -> __eq__ next r2 = true -> __eq__ r1 r2 = true ->
         plus_rotation_simplified prev next = init ++ [__neg__ next])
  /\ (~ cancels_last prev next -> ~ third_quarter_turn prev next ->
      plus_rotation_simplified prev next = prev ++ [next]).
Proof.
  repeat split.
  - intros init last -> H. now rewrite prs_snoc, H.
  - intros init r2 r1 Hc -> Ht H1 H2 _.
    assert (Hn : __eq__ next (__neg__ r1) = false).
    { destruct (__eq__ next (__neg__ r1)) eqn:E; [ | reflexivity].
      exfalso. apply Hc. exists (init ++ [r2]), r1. now rewrite <- app_assoc. }
    rewrite prs_snoc2 by assumption.
    apply Reqb_true in Ht. now rewrite Ht, H1, H2.
  - intros Hc Hq. destruct (list_end_cases prev) as [-> | [[a ->] | (init & r2 & r1 & ->)]].
    + reflexivity.
    + apply prs_single. destruct (__eq__ next (__neg__ a)) eqn:E; [ | reflexivity].
      exfalso. apply Hc. now exists [], a.
    + assert (Hn : __eq__ next (__neg__ r1) = false).
      { destruct (__eq__ next (__neg__ r1)) eqn:E; [ | reflexivity].
        exfalso. apply Hc. exists (init ++ [r2]), r1. now rewrite <- app_assoc. }
      rewrite prs_snoc2 by assumption.
      destruct (Reqb (turns next) 0.25 && __eq__ next r1 && __eq__ next r2) eqn:E.
      * exfalso. apply Hq. apply andb_prop in E as [E E2]. apply andb_prop in E as [Et E1].
        exists init, r2, r1. apply Reqb_true in Et.
        repeat split; auto. apply (eq_sym_trans next); assumption.
      * now rewrite <- app_assoc.
Qed.

(** The doctest [plus_rotation_simplified([Rotation(x=0.25)], Rotation(x=-0.25))],
    which is []. *)
Example simplifier_doctest_cancel :
  plus_rotation_simplified [mkRotation 0.25 0 0] (mkRotation (-0.25) 0 0) = [].
Proof.
  change [mkRotation 0.25 0 0] with ([] ++ [mkRotation 0.25 0 0]).
  assert (E : __neg__ (mkRotation 0.25 0 0) = mkRotation (-0.25) 0 0)
    by (unfold __neg__; cbn [x y z]; f_equal; lra).
  now rewrite prs_snoc, E, eq_refl_rotation.
Qed.

(** The doctest with three quarter turns about x, which prints [X:3/4]: the
    one element left is [Rotation(-0.25, 0, 0)]. *)
Example simplifier_doctest_three_quarters :
  plus_rotation_simplified [mkRotation 0.25 0 0; mkRotation 0.25 0 0] (mkRotation 0.25 0 0)
  = [mkRotation (-0.25) 0 0].
Proof.
  change [mkRotation 0.25 0 0; mkRotation 0.25 0 0]
    with ([] ++ [mkRotation 0.25 0 0; mkRotation 0.25 0 0]).
  rewrite prs_snoc2.
  - rewrite turns_x_axis by lra. rewrite eq_refl_rotation.
    replace (Reqb 0.25 0.25) with true by (symmetry; now apply Reqb_true).
    cbn [andb app]. unfold __neg__. cbn [x y z]. repeat f_equal; lra.
  - destruct (__eq__ _ _) eqn:E; [ | reflexivity].
    apply eq_canonical in E.
    rewrite neg_x_axis, canonical_x_axis, canonical_minus_x_axis in E by lra.
    inversion E. lra.
Qed.

(** ** What the simplifier leaves alone *)

Lemma prs_shape (prev : list Rotation) (next : Rotation) :
  (exists init last, prev = init ++ [last] /\ plus_rotation_simplified prev next = init)
  \/ (exists init r2 r1, prev = init ++ [r2; r1]
                         /\ plus_rotation_simplified prev next = init ++ [__neg__ next])
  \/ plus_rotation_simplified prev next = prev ++ [next].
Proof.
  destruct (list_end_cases prev) as [-> | [[a ->] | (init & r2 & r1 & ->)]].
  - now right; right.
  - destruct (__eq__ next (__neg__ a)) eqn:E.
    + left. exists [], a. split; [reflexivity | ].
      change [a] with ([] ++ [a]). now rewrite prs_snoc, E.
    + right; right. now apply prs_single.
  - destruct (__eq__ next (__neg__ r1)) eqn:E.
    + left. exists (init ++ [r2]), r1. rewrite <- app_assoc. split; [reflexivity | ].
      change [r2; r1] with ([r2] ++ [r1]). now rewrite app_assoc, prs_snoc, E.
    + rewrite prs_snoc2 by assumption.
      destruct (Reqb (turns next) 0.25 && __eq__ next r1 && __eq__ next r2).
      * right; left. now exists init, r2, r1.
      * right; right. now rewrite <- app_assoc.
Qed.

Lemma load_alloc_old (h : heap) (l : list Rotation) (p : loc) :
  (p < length h)%nat -> load (fst (alloc h l)) p = load h p.
Proof. intros Hp. unfold load, alloc. simpl. now apply nth_error_app1. Qed.

Lemma load_alloc_new (h : heap) (l : list Rotation) :
  load (fst (alloc h l)) (snd (alloc h l)) = Some l.
Proof.
  unfold load, alloc. simpl. rewrite nth_error_app2 by lia. now rewrite Nat.sub_diag.
Qed.

(** C8: the call returns a new list that agrees with [prev] on the first
    max(len(prev) - 2, 0) positions and is one shorter or one longer than
    [prev]; [prev] itself, like every list that existed before the call, holds
    afterwards what it held before. *)
Theorem plus_rotation_simplified_frame
        (h : heap) (prev : loc) (l : list Rotation) (next : Rotation) :
  load h prev = Some l ->
  exists (h' : heap) (out : loc) (res : list Rotation),
    plus_rotation_simplified_on_heap h prev next = Some (h', out)
    /\ res = plus_rotation_simplified l next
    /\ load h' out = Some res
    /\ (let k := Z.to_nat (Z.max (Z.of_nat (length l) - 2) 0)%Z in
        firstn k res = firstn k l)
    /\ (Z.of_nat (length res) = Z.of_nat (length l) - 1
        \/ Z.of_nat (length res) = Z.of_nat (length l) + 1)%Z
    /\ load h' prev = Some l
    /\ (forall p : loc, (p < length h)%nat -> load h' p = load h p).
Proof.
  intros Hl. unfold plus_rotation_simplified_on_heap. rewrite Hl.
  exists (fst (alloc h (plus_rotation_simplified l next))),
         (snd (alloc h (plus_rotation_simplified l next))),
         (plus_rotation_simplified l next).
  assert (Hp : (prev < length h)%nat).
  { apply nth_error_Some. unfold load in Hl. congruence. }
  repeat split.
  - apply load_alloc_new.
  - destruct (prs_shape l next) as [(init & a & -> & ->) | [(init & r2 & r1 & -> & ->) | ->]];
      cbv zeta; rewrite ?length_app; simpl length.
    + replace (Z.to_nat _) with (length init - 1)%nat by lia.
      rewrite firstn_app. replace (length init - 1 - length init)%nat with 0%nat by lia.
      simpl. now rewrite app_nil_r.
    + replace (Z.to_nat _) with (length init) by lia.
      rewrite !firstn_app, Nat.sub_diag, firstn_all. reflexivity.
    + replace (Z.to_nat _) with (length l - 2)%nat by lia.
      rewrite firstn_app. replace (length l - 2 - length l)%nat with 0%nat by lia.
      simpl. now rewrite app_nil_r.
  - destruct (prs_shape l next) as [(init & a & -> & ->) | [(init & r2 & r1 & -> & ->) | ->]];
      rewrite ?length_app; simpl length; lia.
  - rewrite load_alloc_old; assumption.
  - intros p Hlt. now apply load_alloc_old.
Qed.

Lemma plus_rotation_simplified_frame_witness :
  exists (h' : heap) (out : loc) (res : list Rotation),
    plus_rotation_simplified_on_heap [[no_rotation]] 0%nat no_rotation = Some (h', out)
    /\ res = plus_rotation_simplified [no_rotation] no_rotation
    /\ load h' out = Some res
    /\ (let k := Z.to_nat (Z.max (Z.of_nat (length [no_rotation]) - 2) 0)%Z in
        firstn k res = firstn k [no_rotation])
    /\ (Z.of_nat (length res) = Z.of_nat (length [no_rotation]) - 1
        \/ Z.of_nat (length res) = Z.of_nat (length [no_rotation]) + 1)%Z
    /\ load h' 0%nat = Some [no_rotation]
    /\ (forall p : loc, (p < length [[no_rotation]])%nat ->
                        load h' p = load [[no_rotation]] p).
Proof.
  apply (plus_rotation_simplified_frame [[no_rotation]] 0%nat [no_rotation] no_rotation).
  reflexivity.
Defined.

(** ** Quaternions of rotations *)

Lemma as_quaternion_neg (r : Rotation) :
  as_quaternion (__neg__ r) = Quaternion.conjugate (as_quaternion r).
Proof.
  unfold as_quaternion. rewrite turns_neg.
  destruct (Rlt_dec (turns r) 0.000001).
  - unfold Quaternion.conjugate, Quaternion.of_scalar. cbn. f_equal; ring.
  - unfold Quaternion.conjugate, __neg__. cbn. f_equal; ring.
Qed.

Lemma trig_tau_sin2_cos2 (a : R) :
  trig_tau.sin a * trig_tau.sin a + trig_tau.cos a * trig_tau.cos a = 1.
Proof. unfold trig_tau.sin, trig_tau.cos. apply (sin2_cos2 (trig_tau.tau * a)). Qed.

Lemma as_quaternion_unit (r : Rotation) :
  Quaternion.dot (as_quaternion r) (as_quaternion r) = 1.
Proof.
  unfold as_quaternion. destruct (Rlt_dec (turns r) 0.000001) as [Hs | Hs].
  - unfold Quaternion.dot. cbn. ring.
  - unfold Quaternion.dot. cbn [Quaternion.w Quaternion.x Quaternion.y Quaternion.z].
    pose proof (trig_tau_sin2_cos2 (turns r / 2)) as H.
    pose proof (turns_sqr r) as Ht.
    set (S := trig_tau.sin (turns r / 2)) in *. set (C := trig_tau.cos (turns r / 2)) in *.
    set (t := turns r) in *.
    assert (Hq : S / t * (S / t) * (t * t) = S * S) by (field; lra).
    rewrite Ht in Hq.
    replace (C * C + S / t * x r * (S / t * x r) + S / t * y r * (S / t * y r)
             + S / t * z r * (S / t * z r))
      with (C * C + S / t * (S / t) * (x r ^ 2 + y r ^ 2 + z r ^ 2)) by ring.
    lra.
Qed.

Lemma mul_conjugate_unit (q : Quaternion.t) :
  Quaternion.dot q q = 1 -> Quaternion.mul (Quaternion.conjugate q) q = Quaternion.of_scalar 1.
Proof.
  destruct q as [a b c d]. unfold Quaternion.dot, Quaternion.mul, Quaternion.conjugate,
    Quaternion.of_scalar. cbn. intros H. f_equal; lra.
Qed.

Lemma as_quaternion_below_cutoff (r : Rotation) :
  turns r < 0.000001 -> as_quaternion r = Quaternion.of_scalar 1.
Proof. intros H. unfold as_quaternion. destruct (Rlt_dec (turns r) 0.000001); [reflexivity | lra]. Qed.

Lemma from_quaternion_one : from_quaternion (Quaternion.of_scalar 1) = no_rotation.
Proof.
  unfold from_quaternion, Quaternion.of_scalar. cbn [Quaternion.w Quaternion.x Quaternion.y Quaternion.z].
  replace (0 / _) with 0 by (unfold Rdiv; ring).
  now rewrite smooth_zero.
Qed.

(** C7: a rotation followed by its negation is canonically the rotation that
    does nothing (the composition is [Rotation(0, 0, 0)] itself). *)
Theorem then_neg_is_no_rotation (r : Rotation) :
  __eq__ (then_ r (__neg__ r)) no_rotation = true.
Proof.
  unfold then_.
  rewrite as_quaternion_neg, (mul_conjugate_unit _ (as_quaternion_unit r)).
  rewrite from_quaternion_one. apply eq_refl_rotation.
Qed.

(** ** The quaternion round trip *)

Lemma atan2_sin_cos (a : R) : 0 < a <= PI / 2 -> atan2 (sin a) (cos a) = a.
Proof.
  intros [Hlo Hhi]. unfold atan2. destruct Hhi as [Hlt | ->].
  - assert (Hc : 0 < cos a) by (apply cos_gt_0; lra).
    destruct (Rlt_dec 0 (cos a)); [ | lra].
    change (sin a / cos a) with (tan a). apply atan_tan. lra.
  - rewrite cos_PI2, sin_PI2.
    destruct (Rlt_dec 0 0); [lra | ]. destruct (Rlt_dec 0 1); [reflexivity | lra].
Qed.

Section RoundTrip.
Variable r : Rotation.
Hypothesis turns_lo : 0.000001 <= turns r.
Hypothesis turns_hi : turns r <= 0.5.

Let S := trig_tau.sin (turns r / 2).
Let C := trig_tau.cos (turns r / 2).

Lemma half_angle_sin_pos : 0 < S.
Proof.
  unfold S, trig_tau.sin, trig_tau.tau. pose proof PI_RGT_0.
  apply sin_gt_0; nra.
Qed.

Lemma as_quaternion_regular :
  as_quaternion r =
  Quaternion.mk C (S / turns r * x r) (S / turns r * y r) (S / turns r * z r).
Proof. unfold as_quaternion. destruct (Rlt_dec (turns r) 0.000001); [lra | reflexivity]. Qed.

Lemma imaginary_norm :
  sqrt ((S / turns r * x r) ^ 2 + (S / turns r * y r) ^ 2 + (S / turns r * z r) ^ 2) = S.
Proof.
  pose proof half_angle_sin_pos. pose proof (turns_sqr r) as Ht.
  apply sqrt_lem_1; [nra | lra | ].
  replace ((S / turns r * x r) ^ 2 + (S / turns r * y r) ^ 2 + (S / turns r * z r) ^ 2)
    with (S / turns r * (S / turns r) * (x r ^ 2 + y r ^ 2 + z r ^ 2)) by ring.
  rewrite <- Ht. field. lra.
Qed.

Lemma recovered_turns : 2 * trig_tau.atan2 S C = turns r.
Proof.
  unfold trig_tau.atan2, S, C, trig_tau.sin, trig_tau.cos, trig_tau.tau.
  pose proof PI_RGT_0.
  rewrite atan2_sin_cos by nra. field. lra.
Qed.

Lemma recovered_scale :
  smooth_near_quarter_turn (turns r) = turns r ->
  trig_tau.sinc (smooth_near_quarter_turn (turns r) / 2) / 2 = S / turns r.
Proof.
  intros ->. unfold trig_tau.sinc. destruct (Req_dec_T (turns r / 2) 0); [lra | ].
  fold S. field. lra.
Qed.

Lemma from_as_quaternion :
  smooth_near_quarter_turn (turns r) = turns r ->
  smooth_near_quarter_turn (x r) = x r ->
  smooth_near_quarter_turn (y r) = y r ->
  smooth_near_quarter_turn (z r) = z r ->
  from_quaternion (as_quaternion r) = r.
Proof.
  intros Ht Hx Hy Hz. pose proof half_angle_sin_pos.
  rewrite as_quaternion_regular. unfold from_quaternion.
  cbn [Quaternion.w Quaternion.x Quaternion.y Quaternion.z].
  rewrite imaginary_norm, recovered_turns, (recovered_scale Ht).
  replace (S / turns r * x r / (S / turns r)) with (x r) by (field; lra).
  replace (S / turns r * y r / (S / turns r)) with (y r) by (field; lra).
  replace (S / turns r * z r / (S / turns r)) with (z r) by (field; lra).
  rewrite Hx, Hy, Hz. now destruct r.
Qed.
End RoundTrip.

(** C2, amended: from the small-angle cut-off of [as_quaternion] up to half a
    turn, a rotation whose turn count and components are fixed points of the
    smoothing comes back from its quaternion with the very same components,
    so it is canonically equal to what went in. *)
Theorem quaternion_round_trip (r : Rotation) :
  0.000001 <= turns r <= 0.5 ->
  smooth_near_quarter_turn (turns r) = turns r ->
  smooth_near_quarter_turn (x r) = x r ->
  smooth_near_quarter_turn (y r) = y r ->
  smooth_near_quarter_turn (z r) = z r ->
  from_quaternion (as_quaternion r) = r
  /\ __eq__ (from_quaternion (as_quaternion r)) r = true.
Proof.
  intros [Hlo Hhi] Ht Hx Hy Hz.
  rewrite (from_as_quaternion r Hlo Hhi Ht Hx Hy Hz).
  split; [reflexivity | apply eq_refl_rotation].
Qed.

(** C2, as stated, fails below the small-angle cut-off of [as_quaternion]:
    half a millionth of a turn about x becomes the identity quaternion and
    comes back as [Rotation(0, 0, 0)], whose key is (0,0,0,0). *)
Lemma round_trip_fails_below_cutoff :
  let r := mkRotation 0.0000005 0 0 in
  0 < turns r <= 0.5 /\ __eq__ (from_quaternion (as_quaternion r)) r = false.
Proof.
  cbv zeta. assert (Ht : turns (mkRotation 0.0000005 0 0) = 0.0000005)
    by (apply turns_x_axis; lra).
  split; [rewrite Ht; lra | ].
  rewrite as_quaternion_below_cutoff by (rewrite Ht; lra).
  rewrite from_quaternion_one.
  destruct (__eq__ no_rotation (mkRotation 0.0000005 0 0)) eqn:E; [ | reflexivity].
  apply eq_canonical in E. rewrite canonical_no_rotation, canonical_x_axis in E by lra.
  inversion E. lra.
Qed.

(** What [from_quaternion] returns on the quaternion of a rotation between
    the cut-off and half a turn, before any assumption on the smoothing. *)
Lemma from_as_quaternion_smoothed (r : Rotation) :
  0.000001 <= turns r -> turns r <= 0.5 ->
  from_quaternion (as_quaternion r) =
  let k := trig_tau.sin (turns r / 2) / turns r in
  let d := trig_tau.sinc (smooth_near_quarter_turn (turns r) / 2) / 2 in
  mkRotation (smooth_near_quarter_turn (k * x r / d))
             (smooth_near_quarter_turn (k * y r / d))
             (smooth_near_quarter_turn (k * z r / d)).
Proof.
  intros Hlo Hhi. rewrite (as_quaternion_regular r Hlo). unfold from_quaternion.
  cbn [Quaternion.w Quaternion.x Quaternion.y Quaternion.z].
  now rewrite (imaginary_norm r Hlo Hhi), (recovered_turns r Hlo Hhi).
Qed.

Lemma small_angle_bounds (d : R) :
  0 < d <= 0.0000004 -> 1 - 0.000001 < cos d + sin d < 1 + 0.000001.
Proof.
  intros Hd. pose proof PI2_1.
  assert (Hs : 0 < sin d) by (apply sin_gt_0; lra).
  assert (Hs' : sin d < d) by (apply sin_lt_x; lra).
  assert (Hc : 0 < cos d) by (apply cos_gt_0; lra).
  pose proof (COS_bound d) as [_ Hc1]. pose proof (sin2_cos2 d) as Hsc. unfold Rsqr in Hsc.
  split; nra.
Qed.

(** The smoothing of [from_quaternion] breaks the round trip as well, which is
    why the fixed-point conditions are needed: a rotation of 0.2500001 turns
    about x comes back as the exact quarter turn. *)
Lemma round_trip_snaps_near_quarter_turn :
  let r := mkRotation 0.2500001 0 0 in
  0 < turns r <= 0.5
  /\ from_quaternion (as_quaternion r) = mkRotation 0.25 0 0
  /\ __eq__ (from_quaternion (as_quaternion r)) r = false.
Proof.
  cbv zeta. set (r := mkRotation 0.2500001 0 0).
  assert (Ht : turns r = 0.2500001) by (apply turns_x_axis; lra).
  assert (Hr : from_quaternion (as_quaternion r) = mkRotation 0.25 0 0).
  { rewrite from_as_quaternion_smoothed by (rewrite Ht; lra). cbv zeta.
    rewrite Ht. cbn [x y z r].
    replace (smooth_near_quarter_turn 0.2500001) with 0.25
      by (symmetry; replace 0.25 with (IZR 1 * 0.25) by lra;
          apply smooth_snaps; apply Rabs_def1; lra).
    unfold trig_tau.sinc. destruct (Req_dec_T (0.25 / 2) 0) as [Habs | _]; [lra | ].
    unfold trig_tau.sin, trig_tau.tau.
    replace (2 * PI * (0.25 / 2)) with (PI / 4) by lra.
    replace (2 * PI * (0.2500001 / 2)) with (PI / 4 + PI * 0.0000001) by lra.
    rewrite sin_plus, sin_PI4, cos_PI4.
    set (d := PI * 0.0000001).
    assert (Hd : 0 < d <= 0.0000004) by (unfold d; pose proof PI_RGT_0; pose proof PI_4; lra).
    pose proof (small_angle_bounds d Hd) as Hb.
    assert (H2 : 0 < sqrt 2) by (apply sqrt_lt_R0; lra).
    replace ((1 / sqrt 2 * cos d + 1 / sqrt 2 * sin d) / 0.2500001 * 0.2500001
             / (1 / sqrt 2 / (0.25 / 2) / 2))
      with ((cos d + sin d) * 0.25) by (field; lra).
    replace ((1 / sqrt 2 * cos d + 1 / sqrt 2 * sin d) / 0.2500001 * 0
             / (1 / sqrt 2 / (0.25 / 2) / 2))
      with 0 by (field; lra).
    rewrite smooth_zero. f_equal.
    replace 0.25 with (IZR 1 * 0.25) at 2 by lra. apply smooth_snaps.
    apply Rabs_def1; lra. }
  split; [rewrite Ht; lra | ]. split; [exact Hr | ]. rewrite Hr.
  destruct (__eq__ (mkRotation 0.25 0 0) r) eqn:E; [ | reflexivity].
  apply eq_canonical in E. unfold r in E. rewrite !canonical_x_axis in E by lra.
  inversion E. lra.
Qed.

(** The doctest [Rotation.from_quaternion(Rotation(x=0.25).as_quaternion())],
    which prints [X:1/4]. *)
Lemma quaternion_round_trip_witness :
  from_quaternion (as_quaternion (mkRotation 0.25 0 0)) = mkRotation 0.25 0 0
  /\ __eq__ (from_quaternion (as_quaternion (mkRotation 0.25 0 0))) (mkRotation 0.25 0 0) = true.
Proof.
  apply (quaternion_round_trip (mkRotation 0.25 0 0)).
  - rewrite turns_x_axis; lra.
  - rewrite turns_x_axis by lra. apply smooth_quarter.
  - apply smooth_quarter.
  - apply smooth_zero.
  - apply smooth_zero.
Defined.

(** ** Complex numbers and matrices *)

Lemma norm2_nonneg (c : Complex.t) : 0 <= norm2 c.
Proof. unfold norm2. nra. Qed.

Lemma abs_sqr (c : Complex.t) : Complex.abs c * Complex.abs c = norm2 c.
Proof. apply sqrt_sqrt, norm2_nonneg. Qed.

Lemma abs_nonneg (c : Complex.t) : 0 <= Complex.abs c.
Proof. apply sqrt_pos. Qed.

Lemma abs_one_iff (c : Complex.t) : Complex.abs c = 1 <-> norm2 c = 1.
Proof.
  split; intros H.
  - rewrite <- abs_sqr, H. ring.
  - unfold Complex.abs. fold (norm2 c). rewrite H. apply sqrt_1.
Qed.

Lemma norm2_mul (a b : Complex.t) : norm2 (Complex.mul a b) = norm2 a * norm2 b.
Proof. unfold norm2, Complex.mul. cbn. ring. Qed.

Lemma complex_eq (a b : Complex.t) :
  Complex.re a = Complex.re b -> Complex.im a = Complex.im b -> a = b.
Proof. destruct a, b. cbn. now intros -> ->. Qed.

Lemma mat2_eq (m n : Mat2.t) :
  Mat2.m00 m = Mat2.m00 n -> Mat2.m01 m = Mat2.m01 n ->
  Mat2.m10 m = Mat2.m10 n -> Mat2.m11 m = Mat2.m11 n -> m = n.
Proof. destruct m, n. cbn. now intros -> -> -> ->. Qed.

(** Prove a matrix equation entry by entry, real and imaginary part apart. *)
Ltac entrywise :=
  apply mat2_eq; apply complex_eq;
  cbn [Complex.re Complex.im Mat2.m00 Mat2.m01 Mat2.m10 Mat2.m11
       Quaternion.w Quaternion.x Quaternion.y Quaternion.z].

Lemma max_by_abs_spec (rest : list Complex.t) (first : Complex.t) :
  In (max_by_abs first rest) (first :: rest)
  /\ forall e, In e (first :: rest) -> Complex.abs e <= Complex.abs (max_by_abs first rest).
Proof.
  revert first. induction rest as [ | e rest IH]; intros first.
  - cbn. split; [now left | ]. intros e [<- | []]. lra.
  - unfold max_by_abs. cbn [fold_left].
    destruct (Rlt_dec (Complex.abs first) (Complex.abs e)) as [Hlt | Hge].
    + destruct (IH e) as [Hin Hmax]. fold (max_by_abs e rest). split.
      * right. exact Hin.
      * intros e' [<- | H].
        -- specialize (Hmax e (or_introl eq_refl)). lra.
        -- now apply Hmax.
    + destruct (IH first) as [Hin Hmax]. fold (max_by_abs first rest). split.
      * destruct Hin as [<- | Hin]; [now left | now right; right].
      * intros e' [<- | [<- | H]].
        -- apply Hmax. now left.
        -- specialize (Hmax first (or_introl eq_refl)). lra.
        -- apply Hmax. now right.
Qed.

(** Dividing a nonzero complex by its modulus. *)
Lemma normalise_unit (c : Complex.t) :
  0 < Complex.abs c ->
  Complex.div c (Complex.of_real (Complex.abs c)) = Complex.scale (/ Complex.abs c) c
  /\ norm2 (Complex.div c (Complex.of_real (Complex.abs c))) = 1.
Proof.
  intros H. pose proof (abs_sqr c) as Hs. unfold norm2 in *.
  destruct c as [c1 c2]. set (n := Complex.abs _) in *. cbn in *. split.
  - unfold Complex.div, Complex.scale, Complex.of_real. cbn. f_equal; field; lra.
  - replace ((c1 * n + c2 * 0) / (n * n + 0 * 0)) with (c1 / n) by (field; lra).
    replace ((c2 * n - c1 * 0) / (n * n + 0 * 0)) with (c2 / n) by (field; lra).
    replace (c1 / n * (c1 / n) + c2 / n * (c2 / n)) with ((c1 * c1 + c2 * c2) / (n * n))
      by (field; lra).
    rewrite <- Hs. field. lra.
Qed.

Lemma real_quotient (v p : Complex.t) :
  norm2 p = 1 -> collinear v p ->
  Complex.scale (Complex.re (Complex.div v p)) p = v.
Proof.
  destruct v as [v1 v2], p as [p1 p2]. unfold norm2, collinear, Complex.scale, Complex.div.
  cbn. intros Hn Hc. rewrite Hn. f_equal.
  - replace ((v1 * p1 + v2 * p2) / 1 * p1) with (v1 * (p1 * p1) + v2 * p1 * p2) by field.
    rewrite Hc. replace v1 with (v1 * (p1 * p1 + p2 * p2)) at 3 by (rewrite Hn; ring). ring.
  - replace ((v1 * p1 + v2 * p2) / 1 * p2) with (v1 * p2 * p1 + v2 * (p2 * p2)) by field.
    rewrite <- Hc. replace v2 with (v2 * (p1 * p1 + p2 * p2)) at 3 by (rewrite Hn; ring). ring.
Qed.

(** ** [unitary_breakdown] *)

Section Entries.
Variables a1 a2 b1 b2 c1 c2 d1 d2 : R.

Let m : Mat2.t :=
  Mat2.mk (Complex.mk a1 a2) (Complex.mk b1 b2) (Complex.mk c1 c2) (Complex.mk d1 d2).

Lemma unitary_equations :
  is_unitary m ->
  (a1 * a1 + a2 * a2 + b1 * b1 + b2 * b2 = 1
   /\ c1 * c1 + c2 * c2 + d1 * d1 + d2 * d2 = 1
   /\ a1 * c1 + a2 * c2 + b1 * d1 + b2 * d2 = 0
   /\ a2 * c1 - a1 * c2 + b2 * d1 - b1 * d2 = 0)
  /\ (a1 * a1 + a2 * a2 + c1 * c1 + c2 * c2 = 1
      /\ b1 * b1 + b2 * b2 + d1 * d1 + d2 * d2 = 1
      /\ a1 * b1 + a2 * b2 + c1 * d1 + c2 * d2 = 0
      /\ a1 * b2 - a2 * b1 + c1 * d2 - c2 * d1 = 0).
Proof.
  unfold is_unitary, m. cx_unfold.
  intros [H1 H2]. injection H1. injection H2. intros. repeat split; lra.
Qed.

Lemma coefficients_closed_form :
  pauli_coefficients m =
  [ Complex.mk ((a2 + d2) / 2) (- (a1 + d1) / 2);
    Complex.mk ((b1 + c1) / 2) ((b2 + c2) / 2);
    Complex.mk (- (b2 - c2) / 2) ((b1 - c1) / 2);
    Complex.mk ((a1 - d1) / 2) ((a2 - d2) / 2) ].
Proof.
  unfold pauli_coefficients, m, Complex.div, Complex.add, Complex.sub, Complex.of_real.
  cbn. repeat (apply f_equal2; [apply complex_eq; cbn; field | ]). reflexivity.
Qed.

Lemma coefficients_collinear (u v : Complex.t) :
  is_unitary m -> In u (pauli_coefficients m) -> In v (pauli_coefficients m) ->
  collinear u v.
Proof.
  intros Hu. apply unitary_equations in Hu.
  destruct Hu as [(U1 & U2 & U3 & U4) (V1 & V2 & V3 & V4)].
  rewrite coefficients_closed_form. cbn [In].
  intros [<- | [<- | [<- | [<- | []]]]] [<- | [<- | [<- | [<- | []]]]];
    unfold collinear; cbn; lra.
Qed.

Lemma coefficients_norm :
  is_unitary m ->
  fold_right (fun c acc => norm2 c + acc) 0 (pauli_coefficients m) = 1.
Proof.
  intros Hu. apply unitary_equations in Hu.
  destruct Hu as [(U1 & U2 & U3 & U4) (V1 & V2 & V3 & V4)].
  rewrite coefficients_closed_form. unfold norm2. cbn. lra.
Qed.

Lemma recombine_from_products (t x y z : R) (p : Complex.t) :
  List.map (fun k => Complex.scale k p) [t; x; y; z] = pauli_coefficients m ->
  recombine identity_i (t, x, y, z, p) = m.
Proof.
  rewrite coefficients_closed_form. destruct p as [p1 p2].
  unfold Complex.scale. cbn [List.map Complex.re Complex.im]. intros H. injection H. intros.
  unfold recombine, identity_i, m. cx_unfold. entrywise; lra.
Qed.
End Entries.

Lemma collinear_scale_r (k : R) (v c : Complex.t) :
  collinear v c -> collinear v (Complex.scale k c).
Proof.
  unfold collinear, Complex.scale. cbn. intros H.
  replace (Complex.im v * (k * Complex.re c)) with (k * (Complex.im v * Complex.re c)) by ring.
  rewrite H. ring.
Qed.

Lemma norm2_zero_of_abs (c : Complex.t) : Complex.abs c <= 0 -> norm2 c = 0.
Proof. intros H. pose proof (abs_nonneg c). rewrite <- abs_sqr. nra. Qed.

Lemma breakdown_facts (m : Mat2.t) :
  is_unitary m ->
  exists (t x y z : R) (p : Complex.t),
    unitary_breakdown m = (t, x, y, z, p)
    /\ norm2 p = 1
    /\ List.map (fun k => Complex.scale k p) [t; x; y; z] = pauli_coefficients m
    /\ exists c, In c (pauli_coefficients m)
                 /\ (forall c', In c' (pauli_coefficients m) -> Complex.abs c' <= Complex.abs c)
                 /\ p = Complex.div c (Complex.of_real (Complex.abs c)).
Proof.
  intros Hu.
  assert (Hcol : forall u v, In u (pauli_coefficients m) -> In v (pauli_coefficients m) ->
                             collinear u v).
  { intros u v. destruct m as [[a1 a2] [b1 b2] [c1 c2] [d1 d2]].
    now apply coefficients_collinear. }
  assert (Hsum : fold_right (fun c acc => norm2 c + acc) 0 (pauli_coefficients m) = 1).
  { destruct m as [[a1 a2] [b1 b2] [c1 c2] [d1 d2]]. now apply coefficients_norm. }
  unfold unitary_breakdown. unfold pauli_coefficients in *.
  set (T := Complex.div (Complex.add (Mat2.m00 m) (Mat2.m11 m)) (Complex.mk 0 2)) in *.
  set (X := Complex.div (Complex.add (Mat2.m01 m) (Mat2.m10 m)) (Complex.of_real 2)) in *.
  set (Y := Complex.div (Complex.sub (Mat2.m01 m) (Mat2.m10 m)) (Complex.mk 0 (-2))) in *.
  set (Z := Complex.div (Complex.sub (Mat2.m00 m) (Mat2.m11 m)) (Complex.of_real 2)) in *.
  destruct (max_by_abs_spec [X; Y; Z] T) as [Hin Hmax].
  set (p0 := max_by_abs T [X; Y; Z]) in *.
  assert (Hpos : 0 < Complex.abs p0).
  { destruct (Rle_lt_dec (Complex.abs p0) 0) as [Hle | Hlt]; [exfalso | exact Hlt].
    assert (Hz : forall e, In e [T; X; Y; Z] -> norm2 e = 0).
    { intros e He. apply norm2_zero_of_abs. specialize (Hmax e He). lra. }
    cbn in Hsum.
    rewrite (Hz T), (Hz X), (Hz Y), (Hz Z) in Hsum by (cbn; tauto). lra. }
  destruct (normalise_unit p0 Hpos) as [Hp Hunit].
  set (p := Complex.div p0 (Complex.of_real (Complex.abs p0))) in *.
  assert (Hq : forall e, In e [T; X; Y; Z] -> Complex.scale (Complex.re (Complex.div e p)) p = e).
  { intros e He. apply real_quotient; [exact Hunit | ].
    rewrite Hp. apply collinear_scale_r. now apply Hcol. }
  exists (Complex.re (Complex.div T p)), (Complex.re (Complex.div X p)),
         (Complex.re (Complex.div Y p)), (Complex.re (Complex.div Z p)), p.
  split; [reflexivity | ]. split; [exact Hunit | ]. split.
  - cbn [List.map]. rewrite (Hq T), (Hq X), (Hq Y), (Hq Z) by (cbn; tauto). reflexivity.
  - exists p0. repeat split; assumption.
Qed.

Lemma max_by_abs_cons (first e : Complex.t) (rest : list Complex.t) :
  max_by_abs first (e :: rest) =
  max_by_abs (if Rlt_dec (Complex.abs first) (Complex.abs e) then e else first) rest.
Proof. reflexivity. Qed.

Lemma unitary_identity : is_unitary Mat2.identity.
Proof. split; cx_unfold; entrywise; ring. Qed.

Lemma abs_real_unit : Complex.abs (Complex.mk 0 (-1)) = 1.
Proof. apply abs_one_iff. unfold norm2. cbn. ring. Qed.

Lemma abs_zero : Complex.abs (Complex.mk 0 0) = 0.
Proof.
  unfold Complex.abs. cbn. replace (0 * 0 + 0 * 0) with 0 by ring. apply sqrt_0.
Qed.

(** The first doctest of [unitary_breakdown]:
    [unitary_breakdown(identity) == (1, 0, 0, 0, -1j)]. *)
Lemma unitary_breakdown_identity :
  unitary_breakdown Mat2.identity = (1, 0, 0, 0, Complex.mk 0 (-1)).
Proof.
  unfold unitary_breakdown. cbn [Mat2.m00 Mat2.m01 Mat2.m10 Mat2.m11 Mat2.identity Mat2.of_reals].
  replace (Complex.div (Complex.add (Complex.of_real 1) (Complex.of_real 1)) (Complex.mk 0 2))
    with (Complex.mk 0 (-1)) by (apply complex_eq; cbn; field).
  replace (Complex.div (Complex.add (Complex.of_real 0) (Complex.of_real 0)) (Complex.of_real 2))
    with (Complex.mk 0 0) by (apply complex_eq; cbn; field).
  replace (Complex.div (Complex.sub (Complex.of_real 0) (Complex.of_real 0)) (Complex.mk 0 (-2)))
    with (Complex.mk 0 0) by (apply complex_eq; cbn; field).
  replace (Complex.div (Complex.sub (Complex.of_real 1) (Complex.of_real 1)) (Complex.of_real 2))
    with (Complex.mk 0 0) by (apply complex_eq; cbn; field).
  do 3 (rewrite max_by_abs_cons, abs_real_unit, abs_zero;
        destruct (Rlt_dec 1 0) as [Habs | _]; [lra | ]).
  unfold max_by_abs. cbn [fold_left]. rewrite abs_real_unit.
  replace (Complex.div (Complex.mk 0 (-1)) (Complex.of_real 1)) with (Complex.mk 0 (-1))
    by (apply complex_eq; cbn; field).
  replace (Complex.div (Complex.mk 0 (-1)) (Complex.mk 0 (-1))) with (Complex.mk 1 0)
    by (apply complex_eq; cbn; field).
  replace (Complex.div (Complex.mk 0 0) (Complex.mk 0 (-1))) with (Complex.mk 0 0)
    by (apply complex_eq; cbn; field).
  reflexivity.
Qed.

(** C3, as stated, fails at the identity matrix: with the first basis element
    read as I, the breakdown (1, 0, 0, 0, -1j) recombines to -i times the
    identity. *)
Lemma unitary_breakdown_identity_not_recombined :
  is_unitary Mat2.identity
  /\ recombine Mat2.identity (unitary_breakdown Mat2.identity) <> Mat2.identity.
Proof.
  split; [apply unitary_identity | ].
  rewrite unitary_breakdown_identity. intros H.
  apply (f_equal (fun m => Complex.re (Mat2.m00 m))) in H.
  unfold recombine in H. cx_unfold in H. lra.
Qed.

(** C3, amended: for a unitary [m] the phase [p] of the breakdown has modulus
    one, [m = p * (t*iI + x*X + y*Y + z*Z)] with the identity taken times i,
    as the docstring of the function has it, and [p] is a coefficient of
    largest modulus divided by its modulus. *)
Theorem unitary_breakdown_decomposition (m : Mat2.t) :
  is_unitary m ->
  Complex.abs (phase_of (unitary_breakdown m)) = 1
  /\ recombine identity_i (unitary_breakdown m) = m
  /\ exists c, In c (pauli_coefficients m)
               /\ (forall c', In c' (pauli_coefficients m) -> Complex.abs c' <= Complex.abs c)
               /\ phase_of (unitary_breakdown m) = Complex.div c (Complex.of_real (Complex.abs c)).
Proof.
  intros Hu. destruct (breakdown_facts m Hu) as (t & x & y & z & p & -> & Hn & Hc & Hp).
  unfold phase_of. cbn [snd]. repeat split.
  - now apply abs_one_iff.
  - destruct m as [[a1 a2] [b1 b2] [c1 c2] [d1 d2]]. now apply recombine_from_products.
  - exact Hp.
Qed.

Lemma unitary_breakdown_decomposition_witness :
  Complex.abs (phase_of (unitary_breakdown Mat2.identity)) = 1
  /\ recombine identity_i (unitary_breakdown Mat2.identity) = Mat2.identity
  /\ exists c, In c (pauli_coefficients Mat2.identity)
               /\ (forall c', In c' (pauli_coefficients Mat2.identity) ->
                              Complex.abs c' <= Complex.abs c)
               /\ phase_of (unitary_breakdown Mat2.identity)
                  = Complex.div c (Complex.of_real (Complex.abs c)).
Proof. apply (unitary_breakdown_decomposition Mat2.identity). apply unitary_identity. Defined.

(** ** Angles of unit complex numbers *)

Lemma sqrt_one_plus_ratio (a b : R) :
  a <> 0 -> a * a + b * b = 1 -> sqrt (1 + (b / a)²) = / Rabs a.
Proof.
  intros Ha H. assert (Hp : 0 < Rabs a) by now apply Rabs_pos_lt.
  apply sqrt_lem_1.
  - unfold Rsqr. nra.
  - left. now apply Rinv_0_lt_compat.
  - replace (/ Rabs a * / Rabs a) with (/ (Rabs a * Rabs a)) by (field; lra).
    replace (Rabs a * Rabs a) with (a * a)
      by (unfold Rabs; destruct (Rcase_abs a); ring).
    unfold Rsqr. replace (1 + b / a * (b / a)) with ((a * a + b * b) / (a * a)) by (field; lra).
    rewrite H. field. lra.
Qed.

Lemma cos_sin_atan_ratio (a b : R) :
  a <> 0 -> a * a + b * b = 1 ->
  cos (atan (b / a)) = Rabs a /\ sin (atan (b / a)) = b / a * Rabs a.
Proof.
  intros Ha H. assert (Hp : 0 < Rabs a) by now apply Rabs_pos_lt.
  rewrite cos_atan, sin_atan, (sqrt_one_plus_ratio a b Ha H). split; field; lra.
Qed.

Lemma exp_j_phase (p : Complex.t) : norm2 p = 1 -> Complex.exp_j (Complex.phase p) = p.
Proof.
  destruct p as [a b]. unfold norm2, Complex.exp_j, Complex.phase, atan2. cbn. intros H.
  destruct (Rlt_dec 0 a) as [Hpos | Hnpos].
  - destruct (cos_sin_atan_ratio a b) as [Hc Hs]; [lra | exact H | ].
    rewrite Hc, Hs, Rabs_right by lra. f_equal. field. lra.
  - destruct (Rlt_dec a 0) as [Hneg | Hnneg].
    + destruct (cos_sin_atan_ratio a b) as [Hc Hs]; [lra | exact H | ].
      rewrite Rabs_left in Hc, Hs by lra.
      destruct (Rle_dec 0 b).
      * rewrite neg_cos, neg_sin, Hc, Hs. f_equal; field; lra.
      * rewrite cos_minus, sin_minus, cos_PI, sin_PI, Hc, Hs. f_equal; field; lra.
    + assert (a = 0) by lra. subst a.
      destruct (Rlt_dec 0 b).
      * rewrite cos_PI2, sin_PI2. f_equal. nra.
      * destruct (Rlt_dec b 0).
        -- rewrite cos_neg, sin_neg, cos_PI2, sin_PI2. f_equal. nra.
        -- exfalso. assert (b = 0) by lra. subst b. lra.
Qed.

Lemma cos_period_Z (a : R) (k : Z) : cos (a + 2 * IZR k * PI) = cos a.
Proof.
  destruct (Z_le_gt_dec 0 k) as [Hk | Hk].
  - rewrite <- (Z2Nat.id k Hk), <- INR_IZR_INZ. apply cos_period.
  - rewrite <- (cos_period (a + 2 * IZR k * PI) (Z.to_nat (- k))).
    rewrite INR_IZR_INZ, Z2Nat.id, opp_IZR by lia. f_equal. ring.
Qed.

Lemma sin_period_Z (a : R) (k : Z) : sin (a + 2 * IZR k * PI) = sin a.
Proof.
  destruct (Z_le_gt_dec 0 k) as [Hk | Hk].
  - rewrite <- (Z2Nat.id k Hk), <- INR_IZR_INZ. apply sin_period.
  - rewrite <- (sin_period (a + 2 * IZR k * PI) (Z.to_nat (- k))).
    rewrite INR_IZR_INZ, Z2Nat.id, opp_IZR by lia. f_equal. ring.
Qed.

(** The phase drift is the difference of the two angles, up to whole turns. *)
Lemma exp_j_drift (a1 a2 : R) :
  Complex.exp_j (a1 + (py_mod (a2 - a1 + PI) trig_tau.tau - PI) * 1) = Complex.exp_j a2.
Proof.
  destruct (py_mod_congruent (a2 - a1 + PI) trig_tau.tau) as [k ->].
  unfold Complex.exp_j, trig_tau.tau.
  replace (a1 + (a2 - a1 + PI - 2 * PI * IZR k - PI) * 1) with (a2 + 2 * IZR (- k) * PI)
    by (rewrite opp_IZR; ring).
  now rewrite cos_period_Z, sin_period_Z.
Qed.

Lemma drift_of_equal_angles (a : R) : py_mod (a - a + PI) trig_tau.tau - PI = 0.
Proof.
  unfold py_mod, trig_tau.tau. pose proof PI_RGT_0.
  replace (Int_part ((a - a + PI) / (2 * PI))) with 0%Z.
  - lra.
  - symmetry. apply Int_part_eq. replace ((a - a + PI) / (2 * PI)) with (/ 2) by (field; lra).
    lra.
Qed.

(** ** The interpolation weights *)

Lemma sin_scale_ratio_0 (theta : R) : trig_tau.sin_scale_ratio theta 0 = 0.
Proof.
  unfold trig_tau.sin_scale_ratio. destruct (Req_dec_T theta 0); [reflexivity | ].
  unfold trig_tau.sin at 1. rewrite !Rmult_0_r, sin_0. unfold Rdiv. ring.
Qed.

Lemma sin_scale_ratio_1 (theta : R) :
  theta = 0 \/ trig_tau.sin theta <> 0 -> trig_tau.sin_scale_ratio theta 1 = 1.
Proof.
  intros H. unfold trig_tau.sin_scale_ratio. destruct (Req_dec_T theta 0); [reflexivity | ].
  destruct H as [H | H]; [contradiction | ]. rewrite Rmult_1_r. now field.
Qed.

Lemma clamp_range (d : R) : 0 <= d -> 0 <= Rmax (Rmin d 1) (-1) <= 1.
Proof.
  intros H. unfold Rmax, Rmin.
  destruct (Rle_dec d 1); destruct (Rle_dec _ _); lra.
Qed.

Lemma acos_quarter_range (c : R) : 0 <= c <= 1 -> 0 <= acos c <= PI / 2.
Proof.
  intros Hc. destruct (acos_bound c) as [Hlo Hhi]. split; [exact Hlo | ].
  destruct (Rle_lt_dec (acos c) (PI / 2)) as [H | H]; [exact H | exfalso].
  assert (cos (acos c) < 0) by (apply cos_lt_0; lra).
  rewrite cos_acos in * by lra. lra.
Qed.

Lemma interpolation_angle_regular (d : R) :
  0 <= d ->
  let theta := trig_tau.acos (Rmax (Rmin d 1) (-1)) in
  theta = 0 \/ trig_tau.sin theta <> 0.
Proof.
  intros Hd theta. pose proof (acos_quarter_range _ (clamp_range d Hd)) as [Hlo Hhi].
  pose proof PI_RGT_0. unfold theta, trig_tau.acos, trig_tau.sin, trig_tau.tau.
  set (a := acos _) in *.
  destruct (Req_dec_T a 0) as [-> | Ha].
  - left. unfold Rdiv. ring.
  - right. replace (2 * PI * (a / (2 * PI))) with a by (field; lra).
    assert (0 < sin a) by (apply sin_gt_0; lra). lra.
Qed.

Lemma interpolation_angle_of_one : trig_tau.acos (Rmax (Rmin 1 1) (-1)) = 0.
Proof.
  rewrite Rmin_left, Rmax_left by lra. unfold trig_tau.acos. rewrite acos_1.
  unfold Rdiv. ring.
Qed.

(** ** Scaling matrices *)

Lemma mul_div_cancel (e p : Complex.t) : norm2 p = 1 -> Complex.mul (Complex.div e p) p = e.
Proof.
  destruct e as [e1 e2], p as [p1 p2]. unfold norm2, Complex.mul, Complex.div. cbn.
  intros H. rewrite H. apply complex_eq; cbn.
  - replace ((e1 * p1 + e2 * p2) / 1 * p1 - (e2 * p1 - e1 * p2) / 1 * p2)
      with (e1 * (p1 * p1 + p2 * p2)) by field.
    rewrite H. ring.
  - replace ((e1 * p1 + e2 * p2) / 1 * p2 + (e2 * p1 - e1 * p2) / 1 * p1)
      with (e2 * (p1 * p1 + p2 * p2)) by field.
    rewrite H. ring.
Qed.

Lemma cscale_cdiv (u : Mat2.t) (p : Complex.t) :
  norm2 p = 1 -> Mat2.cscale p (Mat2.cdiv u p) = u.
Proof.
  intros H. destruct u. unfold Mat2.cscale, Mat2.cdiv, Mat2.map. cbn.
  now rewrite !mul_div_cancel.
Qed.

Lemma mul_neg_neg (e p : Complex.t) :
  Complex.mul (Complex.scale (-1) e) (Complex.scale (-1) p) = Complex.mul e p.
Proof. unfold Complex.mul, Complex.scale. cbn. apply complex_eq; cbn; ring. Qed.

Lemma cscale_cdiv_flipped (u : Mat2.t) (p : Complex.t) :
  norm2 p = 1 -> Mat2.cscale (Complex.scale (-1) p) (Mat2.scale (-1) (Mat2.cdiv u p)) = u.
Proof.
  intros H. destruct u. unfold Mat2.cscale, Mat2.scale, Mat2.cdiv, Mat2.map. cbn.
  now rewrite !mul_neg_neg, !mul_div_cancel.
Qed.

Lemma norm2_flip (p : Complex.t) : norm2 (Complex.scale (-1) p) = norm2 p.
Proof. unfold norm2, Complex.scale. cbn. ring. Qed.

Lemma add_scale_same (a b : R) (n : Mat2.t) :
  a + b = 1 -> Mat2.add (Mat2.scale a n) (Mat2.scale b n) = n.
Proof.
  intros H. assert (Hb : b = 1 - a) by lra. subst b.
  destruct n as [[] [] [] []]. unfold Mat2.add, Mat2.scale, Mat2.map, Mat2.map2,
    Complex.add, Complex.scale. cbn. apply mat2_eq; apply complex_eq; cbn; ring.
Qed.

Lemma add_scale_1_0 (n1 n2 : Mat2.t) : Mat2.add (Mat2.scale 1 n1) (Mat2.scale 0 n2) = n1.
Proof.
  destruct n1 as [[] [] [] []], n2 as [[] [] [] []]. unfold Mat2.add, Mat2.scale, Mat2.map,
    Mat2.map2, Complex.add, Complex.scale. cbn. apply mat2_eq; apply complex_eq; cbn; ring.
Qed.

Lemma add_scale_0_1 (n1 n2 : Mat2.t) : Mat2.add (Mat2.scale 0 n1) (Mat2.scale 1 n2) = n2.
Proof.
  destruct n1 as [[] [] [] []], n2 as [[] [] [] []]. unfold Mat2.add, Mat2.scale, Mat2.map,
    Mat2.map2, Complex.add, Complex.scale. cbn. apply mat2_eq; apply complex_eq; cbn; ring.
Qed.

Lemma sin_scale_ratio_at_0 (f : R) : trig_tau.sin_scale_ratio 0 f = f.
Proof. unfold trig_tau.sin_scale_ratio. destruct (Req_dec_T 0 0); [reflexivity | lra]. Qed.

Lemma norm2_scale (k : R) (p : Complex.t) : norm2 (Complex.scale k p) = k * k * norm2 p.
Proof. unfold norm2, Complex.scale. cbn. ring. Qed.

Lemma breakdown_unit_vector (m : Mat2.t) (t x y z : R) (p : Complex.t) :
  is_unitary m -> norm2 p = 1 ->
  List.map (fun k => Complex.scale k p) [t; x; y; z] = pauli_coefficients m ->
  t * t + x * x + y * y + z * z = 1.
Proof.
  intros Hu Hn Hm.
  assert (Hsum : fold_right (fun c acc => norm2 c + acc) 0 (pauli_coefficients m) = 1).
  { destruct m as [[a1 a2] [b1 b2] [c1 c2] [d1 d2]]. now apply coefficients_norm. }
  rewrite <- Hm in Hsum. cbn in Hsum. rewrite !norm2_scale, Hn in Hsum. lra.
Qed.

(** ** [unitary_lerp] at its ends *)

(** X27: in exact real arithmetic, where no rounding takes place,
    interpolating a unitary with itself gives it back at every fraction, and
    between two unitaries the interpolation starts at the first and ends at
    the second. *)
Theorem unitary_lerp_boundary (u1 u2 : Mat2.t) (t : R) :
  is_unitary u1 -> is_unitary u2 ->
  unitary_lerp u1 u1 t = u1
  /\ unitary_lerp u1 u2 0 = u1
  /\ unitary_lerp u1 u2 1 = u2.
Proof.
  intros H1 H2.
  destruct (breakdown_facts u1 H1) as (t1 & x1 & y1 & z1 & p1 & E1 & N1 & M1 & _).
  destruct (breakdown_facts u2 H2) as (t2 & x2 & y2 & z2 & p2 & E2 & N2 & M2 & _).
  pose proof (breakdown_unit_vector u1 t1 x1 y1 z1 p1 H1 N1 M1) as D1.
  unfold unitary_lerp. rewrite E1, E2. cbv beta iota zeta.
  unfold Quaternion.dot. cbn [Quaternion.w Quaternion.x Quaternion.y Quaternion.z].
  repeat split.
  - rewrite D1. destruct (Rlt_dec 1 0) as [Habs | _]; [lra | ].
    rewrite interpolation_angle_of_one, !sin_scale_ratio_at_0.
    rewrite add_scale_same by ring. rewrite drift_of_equal_angles.
    replace (Complex.phase p1 + 0 * t) with (Complex.phase p1) by ring.
    rewrite exp_j_phase by exact N1. now apply cscale_cdiv.
  - set (d := t1 * t2 + x1 * x2 + y1 * y2 + z1 * z2).
    destruct (Rlt_dec d 0) as [Hneg | Hpos].
    + pose proof (interpolation_angle_regular (d * -1) ltac:(lra)) as Hreg.
      cbv zeta in Hreg. replace (1 - 0) with 1 by ring.
      rewrite sin_scale_ratio_0, (sin_scale_ratio_1 _ Hreg), add_scale_1_0.
      rewrite Rmult_0_r, Rplus_0_r, exp_j_phase by exact N1. now apply cscale_cdiv.
    + pose proof (interpolation_angle_regular d ltac:(lra)) as Hreg.
      cbv zeta in Hreg. replace (1 - 0) with 1 by ring.
      rewrite sin_scale_ratio_0, (sin_scale_ratio_1 _ Hreg), add_scale_1_0.
      rewrite Rmult_0_r, Rplus_0_r, exp_j_phase by exact N1. now apply cscale_cdiv.
  - set (d := t1 * t2 + x1 * x2 + y1 * y2 + z1 * z2).
    destruct (Rlt_dec d 0) as [Hneg | Hpos].
    + pose proof (interpolation_angle_regular (d * -1) ltac:(lra)) as Hreg.
      cbv zeta in Hreg. replace (1 - 1) with 0 by ring.
      rewrite sin_scale_ratio_0, (sin_scale_ratio_1 _ Hreg), add_scale_0_1.
      rewrite exp_j_drift, exp_j_phase by (rewrite norm2_flip; exact N2).
      now apply cscale_cdiv_flipped.
    + pose proof (interpolation_angle_regular d ltac:(lra)) as Hreg.
      cbv zeta in Hreg. replace (1 - 1) with 0 by ring.
      rewrite sin_scale_ratio_0, (sin_scale_ratio_1 _ Hreg), add_scale_0_1.
      rewrite exp_j_drift, exp_j_phase by exact N2.
      now apply cscale_cdiv.
Qed.

Lemma unitary_pauli_x : is_unitary Mat2.pauli_x.
Proof. split; cx_unfold; entrywise; ring. Qed.

(** From the identity to Pauli X. *)
Lemma unitary_lerp_boundary_witness :
  unitary_lerp Mat2.identity Mat2.identity (/ 2) = Mat2.identity
  /\ unitary_lerp Mat2.identity Mat2.pauli_x 0 = Mat2.identity
  /\ unitary_lerp Mat2.identity Mat2.pauli_x 1 = Mat2.pauli_x.
Proof.
  apply (unitary_lerp_boundary Mat2.identity Mat2.pauli_x (/ 2)).
  - apply unitary_identity.
  - apply unitary_pauli_x.
Defined.

(** ** Pauli operators and quaternions *)

Lemma quat_matrix_mul (p q : Quaternion.t) :
  quat_matrix (Quaternion.mul p q) = Mat2.mul (quat_matrix p) (quat_matrix q).
Proof.
  destruct p, q. unfold quat_matrix, Quaternion.mul. cx_unfold. entrywise; ring.
Qed.

Lemma quat_matrix_neg (q : Quaternion.t) :
  quat_matrix (Quaternion.neg q) = Mat2.scale (-1) (quat_matrix q).
Proof. destruct q. unfold quat_matrix, Quaternion.neg. cx_unfold. entrywise; ring. Qed.

(** The matrix that [as_pauli_operation] returns, entry by entry, from its two
    coefficients [ci] and [cv]. *)
Lemma pauli_form (ci cv : Complex.t) (s a b c : R) :
  Mat2.rdiv
    (Mat2.add (Mat2.cscale ci Mat2.identity)
       (Mat2.cscale cv
          (Mat2.scale s
             (Mat2.add (Mat2.add (Mat2.scale a Mat2.pauli_x) (Mat2.scale b Mat2.pauli_y))
                       (Mat2.scale c Mat2.pauli_z))))) 2
  = Mat2.mk
      (Complex.mk ((Complex.re ci + s * c * Complex.re cv) / 2)
                  ((Complex.im ci + s * c * Complex.im cv) / 2))
      (Complex.mk ((s * a * Complex.re cv + s * b * Complex.im cv) / 2)
                  ((s * a * Complex.im cv - s * b * Complex.re cv) / 2))
      (Complex.mk ((s * a * Complex.re cv - s * b * Complex.im cv) / 2)
                  ((s * a * Complex.im cv + s * b * Complex.re cv) / 2))
      (Complex.mk ((Complex.re ci - s * c * Complex.re cv) / 2)
                  ((Complex.im ci - s * c * Complex.im cv) / 2)).
Proof. destruct ci, cv. cx_unfold. entrywise; field. Qed.

Lemma copysign1_cases (a : R) : copysign1 a = 1 \/ copysign1 a = -1.
Proof. unfold copysign1. destruct (Rlt_dec a 0); auto. Qed.

Lemma signed_angle (s a : R) :
  s = 1 \/ s = -1 -> cos (s * a) = cos a /\ sin (s * a) = s * sin a.
Proof.
  intros [-> | ->].
  - rewrite Rmult_1_l. split; ring.
  - replace (-1 * a) with (- a) by ring. rewrite cos_neg, sin_neg. split; ring.
Qed.

Section AxisAngle.
Variable r : Rotation.
Hypothesis turns_pos : 0 < turns r.

Let th := turns r.
Let s := copysign1 (11 * x r + 13 * y r + 17 * z r).
Let S := sin (PI * th).
Let C := cos (PI * th).

Lemma expi_signed_turn :
  trig_tau.expi (s * th) = Complex.mk (1 - 2 * S * S) (s * (2 * S * C))
  /\ trig_tau.expi (s * th) = Complex.mk (2 * C * C - 1) (s * (2 * S * C)).
Proof.
  unfold trig_tau.expi, trig_tau.cos, trig_tau.sin, trig_tau.tau.
  replace (2 * PI * (s * th)) with (s * (2 * (PI * th))) by ring.
  destruct (signed_angle s (2 * (PI * th)) (copysign1_cases _)) as [-> ->].
  rewrite sin_2a. fold S C. split; f_equal.
  - apply cos_2a_sin.
  - apply cos_2a_cos.
Qed.

Lemma rotation_phase_value : rotation_phase r = Complex.mk C (s * S).
Proof.
  unfold rotation_phase, trig_tau.expi, trig_tau.cos, trig_tau.sin, trig_tau.tau.
  fold s th. replace (2 * PI * (s * th / 2)) with (s * (PI * th)) by field.
  now destruct (signed_angle s (PI * th) (copysign1_cases _)) as [-> ->].
Qed.

Lemma vector_coefficient :
  (if Rlt_dec th 0.001 then
     Complex.sub (Complex.of_real (trig_tau.sin (th / 2) * trig_tau.sinc (th / 2)))
                 (Complex.scale (trig_tau.sinc th) (Complex.scale s Complex.j))
   else
     Complex.div (Complex.sub (Complex.of_real 1) (trig_tau.expi (s * th)))
                 (Complex.of_real th))
  = Complex.mk (2 * S * S / th) (- (s * (2 * S * C)) / th).
Proof.
  assert (Hth : 0 < th) by exact turns_pos.
  destruct (Rlt_dec th 0.001) as [_ | _].
  - unfold trig_tau.sinc.
    destruct (Req_dec_T (th / 2) 0) as [Habs | _]; [lra | ].
    destruct (Req_dec_T th 0) as [Habs | _]; [lra | ].
    unfold trig_tau.sin, trig_tau.tau.
    replace (2 * PI * (th / 2)) with (PI * th) by field.
    replace (2 * PI * th) with (2 * (PI * th)) by ring.
    rewrite sin_2a. fold S C. cx_unfold. apply complex_eq; cbn [Complex.re Complex.im]; field; lra.
  - destruct expi_signed_turn as [-> _]. cx_unfold.
    apply complex_eq; cbn [Complex.re Complex.im]; field; lra.
Qed.

Lemma pauli_axis_angle :
  as_pauli_operation r =
  Mat2.cscale (rotation_phase r)
    (quat_matrix (Quaternion.mk C (S / th * x r) (S / th * y r) (S / th * z r))).
Proof.
  assert (Hth : 0 < th) by exact turns_pos.
  unfold as_pauli_operation, v. cbv beta iota zeta.
  change (sqrt (x r ^ 2 + y r ^ 2 + z r ^ 2)) with th. fold s.
  rewrite vector_coefficient, pauli_form, rotation_phase_value.
  destruct expi_signed_turn as [_ ->].
  unfold quat_matrix. cx_unfold.
  destruct (copysign1_cases (11 * x r + 13 * y r + 17 * z r)) as [Hs | Hs];
    fold s in Hs; rewrite Hs; entrywise; field; lra.
Qed.
End AxisAngle.

(** The doctest [Rotation(x=0.5).as_pauli_operation() == [[0, 1], [1, 0]]]. *)
Example pauli_doctest_half_turn_x : as_pauli_operation (mkRotation 0.5 0 0) = Mat2.pauli_x.
Proof.
  assert (Ht : turns (mkRotation 0.5 0 0) = 0.5) by (apply turns_x_axis; lra).
  rewrite pauli_axis_angle, rotation_phase_value by (rewrite Ht; lra).
  rewrite Ht. cbn [x y z]. replace (PI * 0.5) with (PI / 2) by lra.
  rewrite cos_PI2, sin_PI2. unfold copysign1.
  destruct (Rlt_dec (11 * 0.5 + 13 * 0 + 17 * 0) 0) as [Habs | _]; [lra | ].
  unfold quat_matrix. cx_unfold. entrywise; lra.
Qed.

Lemma norm2_rotation_phase (r : Rotation) : norm2 (rotation_phase r) = 1.
Proof.
  unfold rotation_phase, trig_tau.expi, norm2. cbn [Complex.re Complex.im].
  rewrite Rplus_comm. apply trig_tau_sin2_cos2.
Qed.

Lemma pauli_regular (r : Rotation) :
  0.000001 <= turns r ->
  as_pauli_operation r = Mat2.cscale (rotation_phase r) (quat_matrix (as_quaternion r)).
Proof.
  intros Ht. rewrite pauli_axis_angle by lra. unfold as_quaternion.
  destruct (Rlt_dec (turns r) 0.000001) as [Habs | _]; [lra | ].
  unfold trig_tau.cos, trig_tau.sin, trig_tau.tau.
  replace (2 * PI * (turns r / 2)) with (PI * turns r) by field. reflexivity.
Qed.

Lemma no_turns (r : Rotation) : turns r = 0 -> r = no_rotation.
Proof.
  intros H. pose proof (turns_sqr r) as Hs. rewrite H in Hs.
  destruct r as [a b c]. cbn [x y z] in Hs. unfold no_rotation.
  assert (a = 0) by nra. assert (b = 0) by nra. assert (c = 0) by nra. now subst.
Qed.

Lemma pauli_no_rotation : as_pauli_operation no_rotation = Mat2.identity.
Proof.
  unfold as_pauli_operation, v, no_rotation. cbv beta iota zeta. cbn [x y z].
  rewrite pauli_form. unfold trig_tau.expi, trig_tau.cos, trig_tau.sin.
  replace (trig_tau.tau * (copysign1 (11 * 0 + 13 * 0 + 17 * 0) * sqrt (0 ^ 2 + 0 ^ 2 + 0 ^ 2)))
    with 0.
  2:{ replace (0 ^ 2 + 0 ^ 2 + 0 ^ 2) with 0 by ring. rewrite sqrt_0. ring. }
  rewrite cos_0, sin_0. cx_unfold. entrywise; field.
Qed.

Lemma quat_matrix_one : quat_matrix (Quaternion.of_scalar 1) = Mat2.identity.
Proof. unfold quat_matrix, Quaternion.of_scalar. cx_unfold. entrywise; ring. Qed.

Lemma cscale_one (m : Mat2.t) : Mat2.cscale (Complex.mk 1 0) m = m.
Proof. destruct m as [[] [] [] []]. cx_unfold. entrywise; ring. Qed.

(** On a regular rotation, [as_pauli_operation] is the matrix of
    [as_quaternion] times a unit phase. *)
Lemma pauli_of_quaternion (r : Rotation) :
  regular r ->
  as_pauli_operation r = Mat2.cscale (rotation_phase r) (quat_matrix (as_quaternion r)).
Proof.
  intros [H0 | Hreg]; [ | now apply pauli_regular].
  rewrite (no_turns r H0), pauli_no_rotation.
  rewrite as_quaternion_below_cutoff by (rewrite turns_zero; lra).
  rewrite quat_matrix_one. unfold rotation_phase. rewrite turns_zero.
  unfold trig_tau.expi, trig_tau.cos, trig_tau.sin.
  replace (trig_tau.tau * (copysign1 (11 * x no_rotation + 13 * y no_rotation + 17 * z no_rotation) * 0 / 2))
    with 0 by (unfold Rdiv; ring).
  rewrite cos_0, sin_0. now rewrite cscale_one.
Qed.

Lemma mul_cscale (c d : Complex.t) (m n : Mat2.t) :
  Mat2.mul (Mat2.cscale c m) (Mat2.cscale d n) = Mat2.cscale (Complex.mul c d) (Mat2.mul m n).
Proof.
  destruct c, d, m as [[] [] [] []], n as [[] [] [] []]. cx_unfold. entrywise; ring.
Qed.

Lemma cscale_cscale (c d : Complex.t) (m : Mat2.t) :
  Mat2.cscale c (Mat2.cscale d m) = Mat2.cscale (Complex.mul d c) m.
Proof. destruct c, d, m as [[] [] [] []]. cx_unfold. entrywise; ring. Qed.

Lemma cscale_scale (k : R) (c : Complex.t) (m : Mat2.t) :
  Mat2.cscale c (Mat2.scale k m) = Mat2.cscale (Complex.scale k c) m.
Proof. destruct c, m as [[] [] [] []]. cx_unfold. entrywise; ring. Qed.

Lemma mul_conj_unit (u w : Complex.t) :
  norm2 u = 1 -> Complex.mul u (Complex.mul w (Complex.conj u)) = w.
Proof.
  destruct u as [u1 u2], w as [w1 w2]. unfold norm2, Complex.mul, Complex.conj.
  cbn [Complex.re Complex.im]. intros H. apply complex_eq; cbn [Complex.re Complex.im].
  - replace w1 with (w1 * (u1 * u1 + u2 * u2)) at 3 by (rewrite H; ring). ring.
  - replace w2 with (w2 * (u1 * u1 + u2 * u2)) at 3 by (rewrite H; ring). ring.
Qed.

Lemma norm2_conj (u : Complex.t) : norm2 (Complex.conj u) = norm2 u.
Proof. unfold norm2, Complex.conj. cbn. ring. Qed.

(** A matrix [w * n] is a unit multiple of [u * n] when [u] and [w] have
    modulus one. *)
Lemma rephase (u w : Complex.t) (n : Mat2.t) :
  norm2 u = 1 -> norm2 w = 1 ->
  equal_up_to_phase (Mat2.cscale w n) (Mat2.cscale u n).
Proof.
  intros Hu Hw. exists (Complex.mul w (Complex.conj u)). split.
  - apply abs_one_iff. rewrite norm2_mul, norm2_conj, Hu, Hw. ring.
  - now rewrite cscale_cscale, mul_conj_unit.
Qed.

(** *** What [from_quaternion] recovers from a unit quaternion *)

Lemma quaternion_mul_unit (p q : Quaternion.t) :
  Quaternion.dot p p = 1 -> Quaternion.dot q q = 1 ->
  Quaternion.dot (Quaternion.mul p q) (Quaternion.mul p q) = 1.
Proof.
  intros Hp Hq.
  replace (Quaternion.dot (Quaternion.mul p q) (Quaternion.mul p q))
    with (Quaternion.dot p p * Quaternion.dot q q).
  - rewrite Hp, Hq. ring.
  - destruct p, q. unfold Quaternion.dot, Quaternion.mul.
    cbn [Quaternion.w Quaternion.x Quaternion.y Quaternion.z]. ring.
Qed.

Lemma atan2_upper_half (s w : R) : 0 <= s -> 0 <= atan2 s w <= PI.
Proof.
  intros Hs. unfold atan2. pose proof PI_RGT_0 as Hpi.
  destruct (Rlt_dec 0 w) as [Hw | Hw].
  - destruct (atan_bound (s / w)) as [_ Hhi]. split; [ | lra].
    rewrite <- atan_0. destruct (Req_dec_T s 0) as [-> | Hn].
    + unfold Rdiv. rewrite Rmult_0_l. lra.
    + left. apply atan_increasing. apply Rdiv_lt_0_compat; lra.
  - destruct (Rlt_dec w 0) as [Hneg | Hz].
    + destruct (Rle_dec 0 s) as [_ | Habs]; [ | lra].
      destruct (atan_bound (s / w)) as [Hlo _].
      assert (Hle : atan (s / w) <= 0).
      { rewrite <- atan_0. destruct (Req_dec_T s 0) as [-> | Hn].
        - unfold Rdiv. rewrite Rmult_0_l. lra.
        - left. apply atan_increasing. unfold Rdiv.
          assert (/ w < 0) by now apply Rinv_lt_0_compat. nra. }
      lra.
    + destruct (Rlt_dec 0 s); [lra | ]. destruct (Rlt_dec s 0); lra.
Qed.

Section Recovered.
Variable q : Quaternion.t.
Hypothesis unit_q : Quaternion.dot q q = 1.

Let s := sqrt (Quaternion.x q ^ 2 + Quaternion.y q ^ 2 + Quaternion.z q ^ 2).
Let T := quaternion_turns q.

Lemma imaginary_length :
  0 <= s /\ s * s = Quaternion.x q ^ 2 + Quaternion.y q ^ 2 + Quaternion.z q ^ 2.
Proof.
  split; [apply sqrt_pos | ]. apply sqrt_sqrt.
  pose proof (pow2_ge_0 (Quaternion.x q)). pose proof (pow2_ge_0 (Quaternion.y q)).
  pose proof (pow2_ge_0 (Quaternion.z q)). lra.
Qed.

(** The half angle: [PI * T] has the real part of [q] as its cosine and the
    length of the imaginary part as its sine. *)
Lemma recovered_half_angle :
  0 <= T <= 1 /\ cos (PI * T) = Quaternion.w q /\ sin (PI * T) = s.
Proof.
  destruct imaginary_length as [Hs Hss]. pose proof PI_RGT_0 as Hpi.
  assert (Hn : norm2 (Complex.mk (Quaternion.w q) s) = 1).
  { unfold norm2. cbn [Complex.re Complex.im]. rewrite Hss.
    unfold Quaternion.dot in unit_q. lra. }
  pose proof (exp_j_phase _ Hn) as He. unfold Complex.exp_j, Complex.phase in He.
  cbn [Complex.re Complex.im] in He. injection He as Hc Hsn.
  pose proof (atan2_upper_half s (Quaternion.w q) Hs) as [Hlo Hhi].
  assert (HT : PI * T = atan2 s (Quaternion.w q)).
  { unfold T, quaternion_turns, trig_tau.atan2, trig_tau.tau. fold s. field. lra. }
  rewrite HT. repeat split; try assumption.
  - apply (Rmult_le_reg_l PI); [lra | ]. rewrite HT. lra.
  - apply (Rmult_le_reg_l PI); [lra | ]. rewrite HT. lra.
Qed.

Hypothesis below_full_turn : T < 1.
Hypothesis fixed : unsmoothed q.

Lemma from_quaternion_unsmoothed : from_quaternion q = quaternion_vector q.
Proof.
  destruct fixed as (Ht & Hx & Hy & Hz). unfold from_quaternion. cbv zeta.
  fold (quaternion_turns q). rewrite Ht.
  unfold quaternion_vector in Hx, Hy, Hz |- *. cbv zeta in Hx, Hy, Hz |- *.
  cbn [x y z] in Hx, Hy, Hz. now rewrite Hx, Hy, Hz.
Qed.

(** With no turns at all the quaternion is 1 and the rotation recovered is
    [Rotation(0, 0, 0)]. *)
Lemma recovered_nothing :
  T = 0 -> q = Quaternion.of_scalar 1 /\ from_quaternion q = no_rotation.
Proof.
  intros H0. destruct recovered_half_angle as (_ & Hc & Hsn).
  destruct imaginary_length as [_ Hss].
  rewrite H0, Rmult_0_r in Hc, Hsn. rewrite cos_0 in Hc. rewrite sin_0 in Hsn.
  rewrite <- Hsn in Hss.
  pose proof (pow2_ge_0 (Quaternion.x q)). pose proof (pow2_ge_0 (Quaternion.y q)).
  pose proof (pow2_ge_0 (Quaternion.z q)).
  assert (Quaternion.x q = 0) by nra. assert (Quaternion.y q = 0) by nra.
  assert (Quaternion.z q = 0) by nra.
  assert (E : q = Quaternion.of_scalar 1).
  { destruct q as [a b c d]. cbn [Quaternion.w Quaternion.x Quaternion.y Quaternion.z] in *.
    unfold Quaternion.of_scalar. now subst. }
  split; [exact E | ]. rewrite E. apply from_quaternion_one.
Qed.

(** Otherwise the divisor of [from_quaternion] is the sine of the half angle
    over the turns, which is not zero below a full turn. *)
Lemma recovered_divisor :
  0 < T -> 0 < s /\ trig_tau.sinc (T / 2) / 2 = s / T.
Proof.
  intros Hpos. destruct recovered_half_angle as (_ & _ & Hsn). pose proof PI_RGT_0 as Hpi.
  assert (Hs : 0 < s).
  { rewrite <- Hsn. apply sin_gt_0; [nra | ].
    replace PI with (PI * 1) at 2 by ring. apply Rmult_lt_compat_l; lra. }
  split; [exact Hs | ]. unfold trig_tau.sinc.
  destruct (Req_dec_T (T / 2) 0) as [Habs | _]; [lra | ].
  unfold trig_tau.sin, trig_tau.tau. replace (2 * PI * (T / 2)) with (PI * T) by field.
  rewrite Hsn. field. lra.
Qed.

Lemma recovered_vector_turns : 0 < T -> turns (quaternion_vector q) = T.
Proof.
  intros Hpos. destruct (recovered_divisor Hpos) as [Hs Hd].
  destruct imaginary_length as [_ Hss].
  apply turns_of; [lra | ]. unfold quaternion_vector. cbv zeta. fold T. rewrite Hd.
  cbn [x y z].
  replace ((Quaternion.x q / (s / T)) ^ 2 + (Quaternion.y q / (s / T)) ^ 2
           + (Quaternion.z q / (s / T)) ^ 2)
    with ((Quaternion.x q ^ 2 + Quaternion.y q ^ 2 + Quaternion.z q ^ 2) * (T * T) / (s * s))
    by (field; lra).
  rewrite <- Hss. field. lra.
Qed.

(** The operator of the recovered rotation is the matrix of [q] times a
    phase of modulus one. *)
Lemma pauli_of_recovered :
  exists p : Complex.t,
    norm2 p = 1 /\ as_pauli_operation (from_quaternion q) = Mat2.cscale p (quat_matrix q).
Proof.
  destruct recovered_half_angle as ([Hlo _] & Hc & Hsn).
  destruct (Req_dec_T T 0) as [H0 | Hn].
  - destruct (recovered_nothing H0) as [Eq Er]. exists (Complex.mk 1 0). split.
    + unfold norm2. cbn [Complex.re Complex.im]. ring.
    + rewrite Er, pauli_no_rotation, cscale_one. rewrite Eq at 1. symmetry. apply quat_matrix_one.
  - assert (Hpos : 0 < T) by lra.
    destruct (recovered_divisor Hpos) as [Hs Hd].
    pose proof (recovered_vector_turns Hpos) as Ht.
    exists (rotation_phase (quaternion_vector q)). split; [apply norm2_rotation_phase | ].
    rewrite from_quaternion_unsmoothed.
    rewrite (pauli_axis_angle (quaternion_vector q)) by (rewrite Ht; exact Hpos).
    rewrite Ht, Hc, Hsn. f_equal. f_equal.
    unfold quaternion_vector. cbv zeta. fold T. rewrite Hd. cbn [x y z].
    destruct q as [a b c d]. cbn [Quaternion.w Quaternion.x Quaternion.y Quaternion.z].
    f_equal; field; lra.
Qed.
End Recovered.

(** C1, amended: let [a] and [b] be regular (no turns, or at least the
    millionth of a turn below which [as_quaternion] returns 1), and let [q] be
    the Hamilton product of the quaternions of [b] and [a], which is what
    [then] hands to [from_quaternion].  When [q] stands for less than a full
    turn (at a full turn [from_quaternion] divides by zero) and
    [from_quaternion] smooths nothing away on it, the operator of [a.then(b)]
    is the product of the operators of [b] and [a] up to a scalar of modulus
    one. *)
Theorem pauli_homomorphism_up_to_phase (a b : Rotation) :
  regular a -> regular b ->
  quaternion_turns (Quaternion.mul (as_quaternion b) (as_quaternion a)) < 1 ->
  unsmoothed (Quaternion.mul (as_quaternion b) (as_quaternion a)) ->
  equal_up_to_phase (as_pauli_operation (then_ a b))
                    (Mat2.mul (as_pauli_operation b) (as_pauli_operation a)).
Proof.
  intros Ha Hb Hlt Hfix.
  assert (Hq : Quaternion.dot (Quaternion.mul (as_quaternion b) (as_quaternion a))
                              (Quaternion.mul (as_quaternion b) (as_quaternion a)) = 1)
    by (apply quaternion_mul_unit; apply as_quaternion_unit).
  destruct (pauli_of_recovered _ Hq Hlt Hfix) as (p & Hp & Hop).
  unfold then_. rewrite Hop.
  rewrite (pauli_of_quaternion a Ha), (pauli_of_quaternion b Hb).
  rewrite mul_cscale, <- quat_matrix_mul.
  apply rephase; [ | exact Hp].
  rewrite norm2_mul, !norm2_rotation_phase. ring.
Qed.

Lemma quaternion_mul_one_l (q : Quaternion.t) : Quaternion.mul (Quaternion.of_scalar 1) q = q.
Proof. destruct q. unfold Quaternion.mul, Quaternion.of_scalar. cbn. f_equal; ring. Qed.

Lemma then_no_rotation (a : Rotation) :
  then_ a no_rotation = from_quaternion (as_quaternion a).
Proof.
  unfold then_. rewrite (as_quaternion_below_cutoff no_rotation) by (rewrite turns_zero; lra).
  now rewrite quaternion_mul_one_l.
Qed.

Lemma trig_tau_quarter : trig_tau.cos 0.25 = 0 /\ trig_tau.sin 0.25 = 1.
Proof.
  unfold trig_tau.cos, trig_tau.sin, trig_tau.tau.
  replace (2 * PI * 0.25) with (PI / 2) by lra. now rewrite cos_PI2, sin_PI2.
Qed.

Lemma as_quaternion_half_turn (r : Rotation) :
  turns r = 0.5 -> as_quaternion r = Quaternion.mk 0 (2 * x r) (2 * y r) (2 * z r).
Proof.
  intros H. unfold as_quaternion. rewrite H.
  destruct (Rlt_dec 0.5 0.000001) as [Habs | _]; [lra | ].
  replace (0.5 / 2) with 0.25 by lra. destruct trig_tau_quarter as [-> ->].
  f_equal; lra.
Qed.

Lemma atan2_1_0 : atan2 1 0 = PI / 2.
Proof.
  unfold atan2. destruct (Rlt_dec 0 0); [lra | ]. destruct (Rlt_dec 0 1); [reflexivity | lra].
Qed.

(** The doctest [Rotation(x=0.5).then(Rotation(y=0.5))], which prints [Z:1/2]:
    the composition is half a turn about z, stored as [Rotation(0, 0, -0.5)]. *)
Lemma then_half_turns_x_y :
  then_ (mkRotation 0.5 0 0) (mkRotation 0 0.5 0) = mkRotation 0 0 (-0.5)
  /\ Quaternion.mul (as_quaternion (mkRotation 0 0.5 0)) (as_quaternion (mkRotation 0.5 0 0))
     = Quaternion.mk 0 0 0 (-1).
Proof.
  assert (Hq : Quaternion.mul (as_quaternion (mkRotation 0 0.5 0))
                              (as_quaternion (mkRotation 0.5 0 0))
               = Quaternion.mk 0 0 0 (-1)).
  { rewrite !as_quaternion_half_turn by (apply turns_of; cbn [x y z]; lra).
    unfold Quaternion.mul. cbn [x y z Quaternion.w Quaternion.x Quaternion.y Quaternion.z].
    f_equal; lra. }
  split; [ | exact Hq]. unfold then_. rewrite Hq. unfold from_quaternion.
  cbn [Quaternion.w Quaternion.x Quaternion.y Quaternion.z].
  replace (0 ^ 2 + 0 ^ 2 + (-1) ^ 2) with 1 by ring. rewrite sqrt_1.
  unfold trig_tau.atan2. rewrite atan2_1_0.
  replace (2 * (PI / 2 / trig_tau.tau)) with 0.5.
  2:{ unfold trig_tau.tau. pose proof PI_RGT_0.
      replace (2 * (PI / 2 / (2 * PI))) with (/ 2) by (field; lra). lra. }
  rewrite smooth_half. unfold trig_tau.sinc.
  destruct (Req_dec_T (0.5 / 2) 0) as [Habs | _]; [lra | ].
  replace (0.5 / 2) with 0.25 by lra. destruct trig_tau_quarter as [_ ->].
  replace (0 / (1 / 0.25 / 2)) with 0 by lra.
  replace (-1 / (1 / 0.25 / 2)) with (-0.5) by lra.
  now rewrite smooth_zero, smooth_minus_half.
Qed.

(** Half a turn about x, then half a turn about y: the product of the
    quaternions is -k, half a turn. *)
Lemma pauli_homomorphism_up_to_phase_witness :
  equal_up_to_phase
    (as_pauli_operation (then_ (mkRotation 0.5 0 0) (mkRotation 0 0.5 0)))
    (Mat2.mul (as_pauli_operation (mkRotation 0 0.5 0))
              (as_pauli_operation (mkRotation 0.5 0 0))).
Proof.
  destruct then_half_turns_x_y as [_ Hq].
  assert (Ht : quaternion_turns (Quaternion.mk 0 0 0 (-1)) = 0.5).
  { unfold quaternion_turns. cbn [Quaternion.w Quaternion.x Quaternion.y Quaternion.z].
    replace (0 ^ 2 + 0 ^ 2 + (-1) ^ 2) with 1 by ring. rewrite sqrt_1.
    unfold trig_tau.atan2. rewrite atan2_1_0. unfold trig_tau.tau. pose proof PI_RGT_0.
    replace (2 * (PI / 2 / (2 * PI))) with (/ 2) by (field; lra). lra. }
  assert (Hv : quaternion_vector (Quaternion.mk 0 0 0 (-1)) = mkRotation 0 0 (-0.5)).
  { unfold quaternion_vector. cbv zeta. rewrite Ht.
    cbn [Quaternion.w Quaternion.x Quaternion.y Quaternion.z]. unfold trig_tau.sinc.
    destruct (Req_dec_T (0.5 / 2) 0) as [Habs | _]; [lra | ].
    replace (0.5 / 2) with 0.25 by lra. destruct trig_tau_quarter as [_ ->].
    f_equal; lra. }
  apply (pauli_homomorphism_up_to_phase (mkRotation 0.5 0 0) (mkRotation 0 0.5 0)).
  - right. rewrite (turns_of _ 0.5); cbn [x y z]; lra.
  - right. rewrite (turns_of _ 0.5); cbn [x y z]; lra.
  - rewrite Hq, Ht. lra.
  - rewrite Hq. unfold unsmoothed. rewrite Ht, Hv. cbn [x y z].
    repeat split; [apply smooth_half | apply smooth_zero | apply smooth_zero
                   | apply smooth_minus_half].
Defined.

Lemma mul_identity_l (m : Mat2.t) : Mat2.mul Mat2.identity m = m.
Proof. destruct m as [[] [] [] []]. cx_unfold. entrywise; ring. Qed.

(** C1, as stated, fails below the small-angle cut-off of [as_quaternion]:
    half a millionth of a turn about x, followed by no rotation, composes to
    [Rotation(0, 0, 0)], whose operator is the identity, while the operator of
    the small rotation has a nonzero entry off the diagonal. *)
Lemma pauli_not_homomorphic_below_cutoff :
  let a := mkRotation 0.0000005 0 0 in
  let b := no_rotation in
  ~ equal_up_to_phase (as_pauli_operation (then_ a b))
                      (Mat2.mul (as_pauli_operation b) (as_pauli_operation a)).
Proof.
  cbv zeta. set (a := mkRotation 0.0000005 0 0).
  assert (Ht : turns a = 0.0000005) by (apply turns_x_axis; lra).
  rewrite then_no_rotation, (as_quaternion_below_cutoff a) by (rewrite Ht; lra).
  rewrite from_quaternion_one, pauli_no_rotation, mul_identity_l.
  rewrite (pauli_axis_angle a) by (rewrite Ht; lra).
  intros (c & Hc & H). apply abs_one_iff in Hc.
  apply (f_equal (fun m => norm2 (Mat2.m01 m))) in H.
  rewrite cscale_cscale in H. unfold quat_matrix, Mat2.cscale, Mat2.map, Mat2.identity,
    Mat2.of_reals in H.
  cbn [Mat2.m01 Quaternion.x Quaternion.y] in H.
  rewrite !norm2_mul, Hc, norm2_rotation_phase in H.
  unfold norm2, Complex.of_real in H. cbn [Complex.re Complex.im x y z a] in H.
  rewrite Ht in H.
  assert (HS : 0 < sin (PI * 0.0000005)).
  { pose proof PI_RGT_0. apply sin_gt_0; nra. }
  set (S := sin (PI * 0.0000005)) in *.
  replace (S / 0.0000005 * 0.0000005) with S in H by (field; lra).
  nra.
Qed.

(** The smoothing of [from_quaternion] breaks the homomorphism as well, which
    is why nothing may be smoothed away: 0.2500001 turns about x followed by
    no rotation, both regular, compose to the exact quarter turn, whose
    operator is no multiple of the operator of the rotation that went in. *)
Lemma pauli_not_homomorphic_when_snapped :
  let a := mkRotation 0.2500001 0 0 in
  let b := no_rotation in
  regular a /\ regular b
  /\ ~ equal_up_to_phase (as_pauli_operation (then_ a b))
                         (Mat2.mul (as_pauli_operation b) (as_pauli_operation a)).
Proof.
  cbv zeta. set (a := mkRotation 0.2500001 0 0).
  assert (Ht : turns a = 0.2500001) by (apply turns_x_axis; lra).
  assert (Hq : turns (mkRotation 0.25 0 0) = 0.25) by (apply turns_x_axis; lra).
  split; [right; rewrite Ht; lra | ]. split; [left; apply turns_zero | ].
  destruct round_trip_snaps_near_quarter_turn as (_ & Hr & _). fold a in Hr.
  rewrite then_no_rotation, Hr, pauli_no_rotation, mul_identity_l.
  rewrite (pauli_axis_angle a), (pauli_axis_angle (mkRotation 0.25 0 0))
    by (rewrite ?Ht, ?Hq; lra).
  intros (c & Hc & H). apply abs_one_iff in Hc.
  apply (f_equal (fun m => norm2 (Mat2.m00 m))) in H.
  rewrite cscale_cscale in H. unfold quat_matrix, Mat2.cscale, Mat2.map in H.
  cbn [Mat2.m00 Quaternion.w Quaternion.z] in H.
  rewrite !norm2_mul, Hc, !norm2_rotation_phase in H.
  unfold norm2 in H. cbn [Complex.re Complex.im x y z a] in H.
  rewrite Ht, Hq in H. pose proof PI_RGT_0 as Hpi.
  assert (Hlt : cos (PI * 0.2500001) < cos (PI * 0.25)) by (apply cos_decreasing_1; nra).
  assert (Hpos : 0 < cos (PI * 0.2500001)) by (apply cos_gt_0; nra).
  set (c1 := cos (PI * 0.2500001)) in *. set (c2 := cos (PI * 0.25)) in *.
  nra.
Qed.

(** At a full turn [from_quaternion] divides by zero: half a turn about x
    twice gives the quaternion -1, from which one turn is recovered, and the
    divisor [d] of the three components is 0. *)
Lemma full_turn_divisor :
  let a := mkRotation 0.5 0 0 in
  let q := Quaternion.mul (as_quaternion a) (as_quaternion a) in
  regular a /\ q = Quaternion.of_scalar (-1) /\ quaternion_turns q = 1
  /\ trig_tau.sinc (smooth_near_quarter_turn (quaternion_turns q) / 2) / 2 = 0.
Proof.
  cbv zeta. set (a := mkRotation 0.5 0 0).
  assert (Ht : turns a = 0.5) by (apply turns_x_axis; lra).
  assert (Hq : Quaternion.mul (as_quaternion a) (as_quaternion a) = Quaternion.of_scalar (-1)).
  { rewrite (as_quaternion_half_turn a Ht). unfold Quaternion.mul, Quaternion.of_scalar.
    cbn [x y z a Quaternion.w Quaternion.x Quaternion.y Quaternion.z]. f_equal; lra. }
  assert (HT : quaternion_turns (Quaternion.of_scalar (-1)) = 1).
  { unfold quaternion_turns, Quaternion.of_scalar.
    cbn [Quaternion.w Quaternion.x Quaternion.y Quaternion.z].
    replace (0 ^ 2 + 0 ^ 2 + 0 ^ 2) with 0 by ring. rewrite sqrt_0.
    unfold trig_tau.atan2, atan2, trig_tau.tau. pose proof PI_RGT_0.
    destruct (Rlt_dec 0 (-1)) as [Habs | _]; [lra | ].
    destruct (Rlt_dec (-1) 0) as [_ | Habs]; [ | lra].
    destruct (Rle_dec 0 0) as [_ | Habs]; [ | lra].
    replace (0 / -1) with 0 by lra. rewrite atan_0. field. lra. }
  split; [right; rewrite Ht; lra | ]. split; [exact Hq | ]. rewrite Hq, HT.
  split; [reflexivity | ].
  replace (smooth_near_quarter_turn 1) with 1
    by (symmetry; replace 1 with (IZR 4 * 0.25) by lra; apply smooth_quarter_multiple).
  unfold trig_tau.sinc. destruct (Req_dec_T (1 / 2) 0) as [Habs | _]; [lra | ].
  unfold trig_tau.sin, trig_tau.tau. replace (2 * PI * (1 / 2)) with PI by lra.
  rewrite sin_PI. lra.
Qed.

(** ** More on [smooth_near_quarter_turn] *)

Lemma smooth_error (v : R) :
  exists k : Z,
    py_mod (v - 0.125) 0.25 - 0.125 = v - IZR k * 0.25.
Proof.
  exists (Int_part ((v - 0.125) / 0.25) + 1)%Z. unfold py_mod. rewrite plus_IZR. lra.
Qed.

(** X1: a value within a millionth of a multiple of a quarter becomes that
    multiple, a value a millionth or more away from every multiple is returned
    as it is, and the correction is always smaller than a millionth. *)
Theorem smooth_near_quarter_turn_snaps_or_keeps :
  (forall (k : Z) (v : R),
      Rabs (v - IZR k * 0.25) < 0.000001 -> smooth_near_quarter_turn v = IZR k * 0.25)
  /\ (forall v : R,
         (forall k : Z, 0.000001 <= Rabs (v - IZR k * 0.25)) -> smooth_near_quarter_turn v = v)
  /\ (forall v : R, Rabs (smooth_near_quarter_turn v - v) < 0.000001).
Proof.
  split; [exact smooth_snaps | split].
  - intros v H. unfold smooth_near_quarter_turn.
    destruct (smooth_error v) as [k ->]. specialize (H k).
    destruct (Rlt_dec _ _); [lra | reflexivity].
  - intros v. destruct (smooth_error v) as [k Hk].
    destruct (Rlt_dec (Rabs (v - IZR k * 0.25)) 0.000001) as [Hs | Hs].
    + rewrite (smooth_snaps k v Hs). rewrite Rabs_minus_sym. exact Hs.
    + unfold smooth_near_quarter_turn. rewrite Hk.
      destruct (Rlt_dec _ _); [contradiction | ].
      replace (v - v) with 0 by ring. rewrite Rabs_R0. lra.
Qed.

(** ** Equality, inequality and hashing *)

(** X2: [==] on rotations is an equivalence relation, [!=] is its negation,
    and rotations that are [==] have the same hash. *)
Theorem eq_is_equivalence_and_hash_agrees :
  (forall a, __eq__ a a = true)
  /\ (forall a b, __eq__ a b = __eq__ b a)
  /\ (forall a b c, __eq__ a b = true -> __eq__ b c = true -> __eq__ a c = true)
  /\ (forall a b, __ne__ a b = true <-> __eq__ a b = false)
  /\ (forall hash a b, __eq__ a b = true -> __hash__ hash a = __hash__ hash b).
Proof.
  repeat split.
  - apply eq_refl_rotation.
  - intros a b. destruct (__eq__ a b) eqn:E1, (__eq__ b a) eqn:E2; try reflexivity.
    + apply eq_canonical in E1. symmetry in E1. apply eq_canonical in E1. congruence.
    + apply eq_canonical in E2. symmetry in E2. apply eq_canonical in E2. congruence.
  - intros a b c. rewrite !eq_canonical. congruence.
  - unfold __ne__. now intros H; apply negb_true_iff.
  - unfold __ne__. now intros H; apply negb_true_iff.
  - intros hash a b H. apply eq_canonical in H. unfold __hash__. now rewrite H.
Qed.

(** ** [axis] *)

Lemma axis_zero_or_unit_parts (r : Rotation) :
  0.0000001 <= turns r -> norm3 (axis r) = 1 /\ about (axis r) (turns r) = r.
Proof.
  intros H. unfold axis. destruct (Rlt_dec (turns r) 0.0000001); [lra | ].
  pose proof (turns_sqr r) as Hs. unfold norm3, about. split.
  - replace (x r / turns r * (x r / turns r) + y r / turns r * (y r / turns r)
             + z r / turns r * (z r / turns r))
      with ((x r ^ 2 + y r ^ 2 + z r ^ 2) / (turns r * turns r)) by (field; lra).
    rewrite <- Hs. field. lra.
  - destruct r as [a b c]. cbn [x y z]. f_equal; field; lra.
Qed.

(** X3: below a ten-millionth of a turn [axis] is (0, 0, 0); from there on it
    is a unit vector, and its multiple by [turns] gives the components back. *)
Theorem axis_zero_or_unit (r : Rotation) :
  (turns r < 0.0000001 -> axis r = (0, 0, 0))
  /\ (0.0000001 <= turns r ->
      norm3 (axis r) = 1 /\ about (axis r) (turns r) = r).
Proof.
  split; intros H.
  - unfold axis. destruct (Rlt_dec (turns r) 0.0000001); [reflexivity | lra].
  - now apply axis_zero_or_unit_parts.
Qed.

(** ** The canonical key of a rotation given by direction and turns *)

Lemma canonical_first_nonzero (r : Rotation) :
  __canonical r =
  let '(a, b, c) := axis r in
  let '(t, a, b, c) :=
    if Rlt_dec (first_nonzero (axis r)) 0 then (- turns r, - a, - b, - c)
    else (turns r, a, b, c) in
  let t := py_mod t 1 in
  if Req_dec_T t 0 then (0, 0, 0, 0)
  else (if Rle_dec 0.5 t then t - 1 else t, a, b, c).
Proof. unfold __canonical, first_nonzero. destruct (axis r) as [[a b] c]. reflexivity. Qed.

Lemma first_nonzero_positive (n : R * R * R) : leading_positive n -> 0 < first_nonzero n.
Proof.
  destruct n as [[a b] c]. unfold leading_positive, first_nonzero.
  intros H.
  destruct (Req_dec_T a 0); [destruct (Req_dec_T b 0) | destruct (Req_dec_T a 0)]; lra.
Qed.

Lemma first_nonzero_opp (n : R * R * R) : first_nonzero (opp3 n) = - first_nonzero n.
Proof.
  destruct n as [[a b] c]. unfold first_nonzero, opp3.
  repeat (destruct (Req_dec_T _ _); try lra).
Qed.

Lemma turns_about (n : R * R * R) (c : R) : norm3 n = 1 -> turns (about n c) = Rabs c.
Proof.
  destruct n as [[a b] d]. unfold norm3, about. intros H. apply turns_of.
  - apply Rabs_pos.
  - cbn [x y z]. replace (Rabs c * Rabs c) with (c * c)
      by (unfold Rabs; destruct (Rcase_abs c); ring).
    replace ((c * a) ^ 2 + (c * b) ^ 2 + (c * d) ^ 2) with (c * c * (a * a + b * b + d * d))
      by ring.
    rewrite H. ring.
Qed.

Lemma axis_about (n : R * R * R) (c : R) :
  norm3 n = 1 -> 0.0000001 <= Rabs c ->
  axis (about n c) = if Rlt_dec c 0 then opp3 n else n.
Proof.
  intros Hn Hc. unfold axis. rewrite (turns_about n c Hn).
  destruct (Rlt_dec (Rabs c) 0.0000001); [lra | ].
  destruct n as [[a b] d]. unfold about, opp3. cbn [x y z].
  destruct (Rlt_dec c 0).
  - rewrite Rabs_left by lra. repeat f_equal; field; lra.
  - rewrite Rabs_right in * by lra. repeat f_equal; field; lra.
Qed.

Lemma canonical_about (n : R * R * R) (c : R) :
  norm3 n = 1 -> leading_positive n -> 0.0000001 <= Rabs c ->
  __canonical (about n c) = key_of n c.
Proof.
  intros Hn Hl Hc. rewrite canonical_first_nonzero, (axis_about n c Hn Hc), (turns_about n c Hn).
  pose proof (first_nonzero_positive n Hl) as Hp.
  destruct (Rlt_dec c 0).
  - rewrite first_nonzero_opp. destruct n as [[a b] d]. unfold opp3, key_of.
    destruct (Rlt_dec _ 0); [ | lra].
    rewrite Rabs_left, !Ropp_involutive by lra. reflexivity.
  - destruct n as [[a b] d]. unfold key_of.
    destruct (Rlt_dec _ 0); [lra | ].
    rewrite Rabs_right by lra. reflexivity.
Qed.

Lemma about_opp (n : R * R * R) (c : R) : about (opp3 n) c = about n (- c).
Proof. destruct n as [[a b] d]. unfold about, opp3. f_equal; ring. Qed.

Lemma norm3_opp (n : R * R * R) : norm3 (opp3 n) = norm3 n.
Proof. destruct n as [[a b] d]. unfold norm3, opp3. ring. Qed.

Lemma canonical_about_opp (n : R * R * R) (c : R) :
  norm3 n = 1 -> leading_positive (opp3 n) -> 0.0000001 <= Rabs c ->
  __canonical (about n c) = key_of (opp3 n) (- c).
Proof.
  intros Hn Hl Hc.
  replace (about n c) with (about (opp3 n) (- c))
    by (rewrite about_opp, Ropp_involutive; reflexivity).
  apply canonical_about; rewrite ?norm3_opp, ?Rabs_Ropp; assumption.
Qed.

Lemma leading_sign (n : R * R * R) :
  norm3 n = 1 -> leading_positive n \/ leading_positive (opp3 n).
Proof.
  destruct n as [[a b] d]. unfold norm3, leading_positive, opp3. intros H.
  destruct (Rtotal_order a 0) as [Ha | [Ha | Ha]]; [right; left; lra | | left; left; lra].
  destruct (Rtotal_order b 0) as [Hb | [Hb | Hb]];
    [right; right; left; lra | | left; right; left; lra].
  destruct (Rtotal_order d 0) as [Hd | [Hd | Hd]].
  - right; right; right. lra.
  - subst. lra.
  - left; right; right. lra.
Qed.

Lemma py_mod_add_whole (a : R) (k : Z) : py_mod (a + IZR k) 1 = py_mod a 1.
Proof.
  unfold py_mod. destruct (base_Int_part (a / 1)) as [Hlo Hhi].
  replace (Int_part ((a + IZR k) / 1)) with (Int_part (a / 1) + k)%Z.
  - rewrite plus_IZR. lra.
  - symmetry. apply Int_part_eq. rewrite plus_IZR. lra.
Qed.

Lemma key_of_add_whole (n : R * R * R) (c : R) (k : Z) : key_of n (c + IZR k) = key_of n c.
Proof. destruct n as [[a b] d]. unfold key_of. now rewrite py_mod_add_whole. Qed.

(** X4: whole turns do not count: about one direction, [c] turns and [c + k]
    turns are [==] for every whole number [k], as long as neither falls under
    the ten-millionth of a turn below which [axis] gives the direction up. *)
Theorem eq_ignores_whole_turns (n : R * R * R) (c : R) (k : Z) :
  norm3 n = 1 -> 0.0000001 <= Rabs c -> 0.0000001 <= Rabs (c + IZR k) ->
  __eq__ (about n c) (about n (c + IZR k)) = true.
Proof.
  intros Hn Hc Hk. apply eq_canonical.
  destruct (leading_sign n Hn) as [Hl | Hl].
  - rewrite !canonical_about by assumption. symmetry. apply key_of_add_whole.
  - rewrite !canonical_about_opp by assumption.
    replace (- (c + IZR k)) with (- c + IZR (- k)) by (rewrite opp_IZR; ring).
    symmetry. apply key_of_add_whole.
Qed.

(** The doctest [Rotation(y=0.25) == Rotation(y=-0.75)]. *)
Lemma eq_ignores_whole_turns_witness :
  __eq__ (about (0, 1, 0) 0.25) (about (0, 1, 0) (0.25 + IZR (-1))) = true.
Proof.
  apply (eq_ignores_whole_turns (0, 1, 0) 0.25 (-1)).
  - unfold norm3. ring.
  - rewrite Rabs_right; lra.
  - rewrite Rabs_left; lra.
Defined.

Lemma key_of_half_whole (n : R * R * R) (c : R) (k : Z) :
  2 * c = IZR k -> key_of n (- c) = key_of n c.
Proof.
  intros H. replace (- c) with (c + IZR (- k)) by (rewrite opp_IZR; lra).
  apply key_of_add_whole.
Qed.

(** X5: a rotation by a whole number of half turns is [==] to its negation
    (the two describe the same rotation), as in the doctest
    [Rotation(x=0.5) == Rotation(x=-0.5)]. *)
Theorem eq_neg_at_half_turns (r : Rotation) (k : Z) :
  2 * turns r = IZR k -> __eq__ r (__neg__ r) = true.
Proof.
  intros H. destruct (Rlt_dec (turns r) 0.0000001) as [Hs | Hs].
  - assert (Hk : k = 0%Z).
    { pose proof (turns_sqr r). assert (0 <= turns r) by apply sqrt_pos.
      apply eq_IZR. apply Rle_antisym.
      - assert (IZR k < 1) by lra. apply lt_IZR in H2. apply IZR_le. lia.
      - lra. }
    subst k. assert (turns r = 0) by lra.
    rewrite (no_turns r) by assumption. unfold __neg__, no_rotation. cbn [x y z].
    rewrite Ropp_0. apply eq_refl_rotation.
  - destruct (axis_zero_or_unit_parts r ltac:(lra)) as [Hn Hr].
    apply eq_canonical.
    assert (Hneg : __neg__ r = about (axis r) (- turns r)).
    { rewrite <- Hr at 1. destruct (axis r) as [[a b] d]. unfold about, __neg__.
      cbn [x y z]. f_equal; ring. }
    rewrite Hneg. rewrite <- Hr at 1.
    assert (Ha : 0.0000001 <= Rabs (turns r)) by (rewrite Rabs_right; lra).
    destruct (leading_sign (axis r) Hn) as [Hl | Hl].
    + rewrite !canonical_about by (rewrite ?Rabs_Ropp; assumption).
      symmetry. now apply (key_of_half_whole _ _ k).
    + rewrite !canonical_about_opp by (rewrite ?Rabs_Ropp; assumption).
      rewrite Ropp_involutive. now apply (key_of_half_whole _ _ k).
Qed.

Lemma eq_neg_at_half_turns_witness :
  __eq__ (mkRotation 0.5 0 0) (__neg__ (mkRotation 0.5 0 0)) = true.
Proof.
  apply (eq_neg_at_half_turns (mkRotation 0.5 0 0) 1).
  rewrite turns_x_axis by lra. lra.
Defined.

(** ** The operator of a rotation given by direction and turns *)

Lemma about_zero (n : R * R * R) : about n 0 = no_rotation.
Proof. destruct n as [[a b] d]. unfold about, no_rotation. f_equal; ring. Qed.

Lemma branch_form_about (n : R * R * R) (a : R) :
  11 * x (about n a) + 13 * y (about n a) + 17 * z (about n a) = a * branch_form n.
Proof. destruct n as [[n1 n2] n3]. unfold about, branch_form. cbn [x y z]. ring. Qed.

Lemma copysign1_scaled (a l : R) :
  l <> 0 \/ 0 <= a -> a <> 0 ->
  copysign1 (a * l) = if Rlt_dec a 0 then - copysign1 l else copysign1 l.
Proof.
  intros H Ha. unfold copysign1.
  destruct (Rlt_dec a 0), (Rlt_dec l 0), (Rlt_dec (a * l) 0); try lra; exfalso; nra.
Qed.

(** The closed form of [as_pauli_operation]: a phase of half the signed
    angle in front of the matrix of the unit quaternion. *)
Lemma pauli_about (n : R * R * R) (a : R) :
  norm3 n = 1 -> branch_form n <> 0 \/ 0 <= a ->
  as_pauli_operation (about n a) =
  Mat2.cscale (axis_phase (copysign1 (branch_form n)) a) (quat_matrix (axis_quaternion n a)).
Proof.
  intros Hn Hb. destruct (Req_dec_T a 0) as [-> | Ha].
  - rewrite about_zero, pauli_no_rotation. unfold axis_phase, axis_quaternion.
    destruct n as [[n1 n2] n3]. rewrite Rmult_0_r, cos_0, sin_0.
    unfold quat_matrix. cx_unfold. entrywise; ring.
  - assert (Ht : turns (about n a) = Rabs a) by now apply turns_about.
    assert (Hpos : 0 < Rabs a) by now apply Rabs_pos_lt.
    rewrite pauli_axis_angle, rotation_phase_value by (rewrite Ht; exact Hpos).
    rewrite Ht, branch_form_about, (copysign1_scaled a _ Hb Ha).
    unfold axis_phase, axis_quaternion. destruct n as [[n1 n2] n3]. unfold about. cbn [x y z].
    destruct (copysign1_cases (branch_form (n1, n2, n3))) as [Hs | Hs]; rewrite Hs;
      destruct (Rlt_dec a 0).
    + rewrite Rabs_left by lra. replace (PI * - a) with (- (PI * a)) by ring.
      rewrite cos_neg, sin_neg. unfold quat_matrix. cx_unfold. entrywise; field; lra.
    + rewrite Rabs_right by lra. unfold quat_matrix. cx_unfold. entrywise; field; lra.
    + rewrite Rabs_left by lra. replace (PI * - a) with (- (PI * a)) by ring.
      rewrite cos_neg, sin_neg. unfold quat_matrix. cx_unfold. entrywise; field; lra.
    + rewrite Rabs_right by lra. unfold quat_matrix. cx_unfold. entrywise; field; lra.
Qed.

Lemma axis_quaternion_unit (n : R * R * R) (a : R) :
  norm3 n = 1 -> Quaternion.dot (axis_quaternion n a) (axis_quaternion n a) = 1.
Proof.
  destruct n as [[n1 n2] n3]. unfold norm3, axis_quaternion, Quaternion.dot.
  cbn [Quaternion.w Quaternion.x Quaternion.y Quaternion.z]. intros H.
  pose proof (sin2_cos2 (PI * a)) as Hsc. unfold Rsqr in Hsc.
  replace (cos (PI * a) * cos (PI * a) + sin (PI * a) * n1 * (sin (PI * a) * n1)
           + sin (PI * a) * n2 * (sin (PI * a) * n2) + sin (PI * a) * n3 * (sin (PI * a) * n3))
    with (cos (PI * a) * cos (PI * a) + sin (PI * a) * sin (PI * a) * (n1 * n1 + n2 * n2 + n3 * n3))
    by ring.
  rewrite H. lra.
Qed.

Lemma axis_quaternion_add (n : R * R * R) (a b : R) :
  norm3 n = 1 ->
  Quaternion.mul (axis_quaternion n a) (axis_quaternion n b) = axis_quaternion n (a + b).
Proof.
  destruct n as [[n1 n2] n3]. unfold norm3, axis_quaternion, Quaternion.mul.
  cbn [Quaternion.w Quaternion.x Quaternion.y Quaternion.z]. intros H.
  rewrite Rmult_plus_distr_l, cos_plus, sin_plus.
  f_equal; try ring.
  replace (cos (PI * a) * cos (PI * b) - sin (PI * a) * n1 * (sin (PI * b) * n1)
           - sin (PI * a) * n2 * (sin (PI * b) * n2) - sin (PI * a) * n3 * (sin (PI * b) * n3))
    with (cos (PI * a) * cos (PI * b)
          - sin (PI * a) * sin (PI * b) * (n1 * n1 + n2 * n2 + n3 * n3)) by ring.
  rewrite H. ring.
Qed.

Lemma axis_phase_add (sg a b : R) :
  sg = 1 \/ sg = -1 ->
  Complex.mul (axis_phase sg a) (axis_phase sg b) = axis_phase sg (a + b).
Proof.
  intros Hs. unfold axis_phase, Complex.mul. cbn [Complex.re Complex.im].
  rewrite Rmult_plus_distr_l, cos_plus, sin_plus.
  destruct Hs as [-> | ->]; apply complex_eq; cbn [Complex.re Complex.im]; ring.
Qed.

Lemma norm2_axis_phase (sg a : R) : sg = 1 \/ sg = -1 -> norm2 (axis_phase sg a) = 1.
Proof.
  intros Hs. unfold norm2, axis_phase. cbn [Complex.re Complex.im].
  pose proof (sin2_cos2 (PI * a)) as Hsc. unfold Rsqr in Hsc.
  destruct Hs as [-> | ->]; lra.
Qed.

Lemma pauli_about_add (n : R * R * R) (a b : R) :
  norm3 n = 1 -> branch_form n <> 0 \/ (0 <= a /\ 0 <= b) ->
  Mat2.mul (as_pauli_operation (about n a)) (as_pauli_operation (about n b))
  = as_pauli_operation (about n (a + b)).
Proof.
  intros Hn Hb.
  assert (Ha : branch_form n <> 0 \/ 0 <= a) by (destruct Hb; [now left | right; lra]).
  assert (Hb' : branch_form n <> 0 \/ 0 <= b) by (destruct Hb; [now left | right; lra]).
  assert (Hab : branch_form n <> 0 \/ 0 <= a + b) by (destruct Hb; [now left | right; lra]).
  rewrite (pauli_about n a Hn Ha), (pauli_about n b Hn Hb'), (pauli_about n (a + b) Hn Hab).
  rewrite mul_cscale, <- quat_matrix_mul, axis_quaternion_add by assumption.
  now rewrite axis_phase_add by apply copysign1_cases.
Qed.

(** X6: along one direction the operators compose like the turns add:
    the operator of [a] turns times the operator of [b] turns is the operator
    of [a + b] turns.  Off the plane 11x + 13y + 17z = 0 this holds for all [a]
    and [b], on it for non-negative ones. *)
Theorem pauli_adds_turns_about_an_axis (n : R * R * R) (a b : R) :
  norm3 n = 1 -> branch_form n <> 0 \/ (0 <= a /\ 0 <= b) ->
  Mat2.mul (as_pauli_operation (about n a)) (as_pauli_operation (about n b))
  = as_pauli_operation (about n (a + b)).
Proof. exact (pauli_about_add n a b). Qed.

(** The doctest [Rotation(x=0.25).as_pauli_operation()**2 ==
    Rotation(x=0.5).as_pauli_operation()]. *)
Lemma pauli_adds_turns_about_an_axis_witness :
  Mat2.mul (as_pauli_operation (about (1, 0, 0) 0.25)) (as_pauli_operation (about (1, 0, 0) 0.25))
  = as_pauli_operation (about (1, 0, 0) (0.25 + 0.25)).
Proof.
  apply (pauli_adds_turns_about_an_axis (1, 0, 0) 0.25 0.25).
  - unfold norm3. ring.
  - left. unfold branch_form. lra.
Defined.

Lemma quat_matrix_unitary (q : Quaternion.t) :
  Quaternion.dot q q = 1 -> is_unitary (quat_matrix q).
Proof.
  destruct q as [a b c d]. unfold Quaternion.dot, is_unitary, quat_matrix.
  cbn [Quaternion.w Quaternion.x Quaternion.y Quaternion.z]. intros H.
  split; cx_unfold; entrywise; lra.
Qed.

Lemma dagger_cscale (c : Complex.t) (m : Mat2.t) :
  Mat2.dagger (Mat2.cscale c m) = Mat2.cscale (Complex.conj c) (Mat2.dagger m).
Proof. destruct c, m as [[] [] [] []]. cx_unfold. entrywise; ring. Qed.

Lemma mul_conj_norm (c : Complex.t) :
  norm2 c = 1 ->
  Complex.mul c (Complex.conj c) = Complex.mk 1 0
  /\ Complex.mul (Complex.conj c) c = Complex.mk 1 0.
Proof.
  destruct c as [c1 c2]. unfold norm2, Complex.mul, Complex.conj.
  cbn [Complex.re Complex.im]. intros H. split; apply complex_eq; cbn [Complex.re Complex.im]; lra.
Qed.

Lemma cscale_unitary (c : Complex.t) (m : Mat2.t) :
  norm2 c = 1 -> is_unitary m -> is_unitary (Mat2.cscale c m).
Proof.
  intros Hc [H1 H2]. destruct (mul_conj_norm c Hc) as [E1 E2].
  split; rewrite dagger_cscale, mul_cscale, ?E1, ?E2, ?H1, ?H2; apply cscale_one.
Qed.

(** X7: [as_pauli_operation] returns a unitary matrix, for every rotation. *)
Theorem pauli_operation_is_unitary (r : Rotation) : is_unitary (as_pauli_operation r).
Proof.
  destruct (Req_dec_T (turns r) 0) as [H0 | H0].
  - rewrite (no_turns r H0), pauli_no_rotation. apply unitary_identity.
  - assert (Ht : 0 < turns r) by (assert (0 <= turns r) by apply sqrt_pos; lra).
    rewrite pauli_axis_angle by exact Ht.
    apply cscale_unitary; [apply norm2_rotation_phase | ].
    apply quat_matrix_unitary. unfold Quaternion.dot.
    cbn [Quaternion.w Quaternion.x Quaternion.y Quaternion.z].
    pose proof (sin2_cos2 (PI * turns r)) as Hsc. unfold Rsqr in Hsc.
    pose proof (turns_sqr r) as Hs.
    set (S := sin (PI * turns r)) in *. set (C := cos (PI * turns r)) in *.
    replace (C * C + S / turns r * x r * (S / turns r * x r)
             + S / turns r * y r * (S / turns r * y r) + S / turns r * z r * (S / turns r * z r))
      with (C * C + S * S * (x r ^ 2 + y r ^ 2 + z r ^ 2) / (turns r * turns r))
      by (field; lra).
    rewrite <- Hs. replace (S * S * (turns r * turns r) / (turns r * turns r)) with (S * S)
      by (field; lra).
    lra.
Qed.

Lemma pauli_about_whole (n : R * R * R) (k : Z) :
  norm3 n = 1 -> branch_form n <> 0 \/ 0 <= IZR k ->
  as_pauli_operation (about n (IZR k)) = Mat2.identity.
Proof.
  intros Hn Hb. rewrite pauli_about by assumption.
  unfold axis_phase, axis_quaternion. destruct n as [[n1 n2] n3].
  assert (Hs : sin (PI * IZR k) = 0) by (apply sin_eq_0_1; exists k; ring).
  pose proof (sin2_cos2 (PI * IZR k)) as Hsc. unfold Rsqr in Hsc. rewrite Hs in *.
  unfold quat_matrix. cx_unfold. entrywise; lra.
Qed.

Lemma own_direction (r : Rotation) :
  0 < turns r ->
  exists n, norm3 n = 1 /\ r = about n (turns r)
            /\ branch_form n * turns r = 11 * x r + 13 * y r + 17 * z r.
Proof.
  intros Ht. exists (x r / turns r, y r / turns r, z r / turns r).
  pose proof (turns_sqr r) as Hs. unfold norm3, about, branch_form. repeat split.
  - replace (x r / turns r * (x r / turns r) + y r / turns r * (y r / turns r)
             + z r / turns r * (z r / turns r))
      with ((x r ^ 2 + y r ^ 2 + z r ^ 2) / (turns r * turns r)) by (field; lra).
    rewrite <- Hs. field. lra.
  - destruct r as [a b c]. cbn [x y z]. f_equal; field; cbn [x y z] in Ht; lra.
  - field. lra.
Qed.

Lemma branch_needs_turns (r : Rotation) :
  11 * x r + 13 * y r + 17 * z r <> 0 -> 0 < turns r.
Proof.
  intros H. assert (H0 : 0 <= turns r) by apply sqrt_pos.
  destruct (Req_dec_T (turns r) 0) as [E | E]; [exfalso | lra].
  rewrite (no_turns r E) in H. cbn [x y z no_rotation] in H. lra.
Qed.

Lemma neg_about (n : R * R * R) (c : R) : __neg__ (about n c) = about n (- c).
Proof. destruct n as [[a b] d]. unfold about, __neg__. cbn [x y z]. f_equal; ring. Qed.

Lemma pauli_neg_inverse (r : Rotation) :
  11 * x r + 13 * y r + 17 * z r <> 0 ->
  Mat2.mul (as_pauli_operation r) (as_pauli_operation (__neg__ r)) = Mat2.identity
  /\ Mat2.mul (as_pauli_operation (__neg__ r)) (as_pauli_operation r) = Mat2.identity.
Proof.
  intros Hb. pose proof (branch_needs_turns r Hb) as Ht.
  destruct (own_direction r Ht) as (n & Hn & Hr & Hl).
  assert (Hbn : branch_form n <> 0) by (intros E; rewrite E in Hl; lra).
  rewrite Hr, neg_about. rewrite !pauli_about_add by (try assumption; now left).
  replace (turns r + - turns r) with 0 by ring. replace (- turns r + turns r) with 0 by ring.
  rewrite about_zero, pauli_no_rotation. now split.
Qed.

(** X8: the operator of [-r] undoes the operator of [r], on either side, for
    every rotation off the plane 11x + 13y + 17z = 0 on which the phase
    branch is chosen. *)
Theorem pauli_of_negation_is_inverse (r : Rotation) :
  11 * x r + 13 * y r + 17 * z r <> 0 ->
  Mat2.mul (as_pauli_operation r) (as_pauli_operation (__neg__ r)) = Mat2.identity
  /\ Mat2.mul (as_pauli_operation (__neg__ r)) (as_pauli_operation r) = Mat2.identity.
Proof. exact (pauli_neg_inverse r). Qed.

(** The doctest [Rotation(x=0.25).as_pauli_operation() *
    Rotation(x=-0.25).as_pauli_operation() == identity]. *)
Lemma pauli_of_negation_is_inverse_witness :
  Mat2.mul (as_pauli_operation (mkRotation 0.25 0 0))
           (as_pauli_operation (__neg__ (mkRotation 0.25 0 0))) = Mat2.identity
  /\ Mat2.mul (as_pauli_operation (__neg__ (mkRotation 0.25 0 0)))
              (as_pauli_operation (mkRotation 0.25 0 0)) = Mat2.identity.
Proof. apply (pauli_of_negation_is_inverse (mkRotation 0.25 0 0)). cbn [x y z]. lra. Defined.

(** X9: a whole number of turns does nothing: its operator is the identity
    matrix. *)
Theorem pauli_of_whole_turns (r : Rotation) (k : Z) :
  turns r = IZR k -> as_pauli_operation r = Mat2.identity.
Proof.
  intros Hk. assert (H0 : 0 <= turns r) by apply sqrt_pos.
  destruct (Req_dec_T (turns r) 0) as [E | E].
  - rewrite (no_turns r E). apply pauli_no_rotation.
  - destruct (own_direction r ltac:(lra)) as (n & Hn & Hr & _).
    rewrite Hr, Hk. apply pauli_about_whole; [exact Hn | right; lra].
Qed.

Lemma pauli_of_whole_turns_witness : as_pauli_operation (mkRotation 0 0 2) = Mat2.identity.
Proof.
  apply (pauli_of_whole_turns (mkRotation 0 0 2) 2).
  apply turns_of; cbn [x y z]; lra.
Defined.

(** ** Keys and operators *)

Lemma canonical_regular (r : Rotation) :
  0.0000001 <= turns r ->
  exists n c, norm3 n = 1 /\ leading_positive n /\ Rabs c = turns r
              /\ r = about n c /\ __canonical r = key_of n c.
Proof.
  intros Ht. destruct (axis_zero_or_unit_parts r Ht) as [Hn Hr].
  assert (Ha : 0.0000001 <= Rabs (turns r)) by (rewrite Rabs_right; lra).
  destruct (leading_sign (axis r) Hn) as [Hl | Hl].
  - exists (axis r), (turns r). repeat split; try assumption.
    + rewrite Rabs_right; lra.
    + now symmetry.
    + rewrite <- Hr at 1. now apply canonical_about.
  - exists (opp3 (axis r)), (- turns r). repeat split; try assumption.
    + now rewrite norm3_opp.
    + rewrite Rabs_Ropp, Rabs_right; lra.
    + rewrite about_opp, Ropp_involutive. now symmetry.
    + rewrite <- Hr at 1. now apply canonical_about_opp.
Qed.

Lemma key_of_zero (n : R * R * R) (c : R) :
  norm3 n = 1 -> key_of n c = (0, 0, 0, 0) -> exists k : Z, c = IZR k.
Proof.
  destruct n as [[a b] d]. unfold norm3, key_of. intros Hn.
  destruct (py_mod_congruent c 1) as [k Hk].
  destruct (Req_dec_T (py_mod c 1) 0) as [E | E].
  - intros _. exists k. lra.
  - intros H. exfalso. injection H as _ Ea Eb Ed. rewrite Ea, Eb, Ed in Hn. lra.
Qed.

Lemma key_of_inj (n m : R * R * R) (c e : R) :
  norm3 n = 1 -> norm3 m = 1 -> key_of n c = key_of m e ->
  ((exists k : Z, c = IZR k) /\ (exists k : Z, e = IZR k))
  \/ (n = m /\ exists k : Z, e = c + IZR k).
Proof.
  intros Hn Hm H.
  destruct (Req_dec_T (py_mod c 1) 0) as [Ec | Ec].
  - left. assert (Hz : key_of n c = (0, 0, 0, 0)).
    { destruct n as [[a b] d]. unfold key_of. destruct (Req_dec_T _ 0); [reflexivity | lra]. }
    split; [now apply (key_of_zero n) | apply (key_of_zero m); congruence].
  - destruct (Req_dec_T (py_mod e 1) 0) as [Ee | Ee].
    + left. assert (Hz : key_of m e = (0, 0, 0, 0)).
      { destruct m as [[a b] d]. unfold key_of. destruct (Req_dec_T _ 0); [reflexivity | lra]. }
      split; [apply (key_of_zero n); congruence | now apply (key_of_zero m)].
    + right. destruct n as [[a b] d], m as [[a' b'] d']. unfold key_of in H.
      destruct (Req_dec_T (py_mod c 1) 0); [lra | ].
      destruct (Req_dec_T (py_mod e 1) 0); [lra | ].
      destruct (py_mod_bounds c 1) as [? ?]; [lra | ].
      destruct (py_mod_bounds e 1) as [? ?]; [lra | ].
      destruct (py_mod_congruent c 1) as [kc Hc]. destruct (py_mod_congruent e 1) as [ke He].
      injection H as Ht Ea Eb Ed. subst a' b' d'. split; [reflexivity | ].
      exists (ke - kc)%Z. rewrite minus_IZR.
      destruct (Rle_dec 0.5 (py_mod c 1)), (Rle_dec 0.5 (py_mod e 1)); lra.
Qed.

Lemma mul_identity_r (m : Mat2.t) : Mat2.mul m Mat2.identity = m.
Proof. destruct m as [[] [] [] []]. cx_unfold. entrywise; ring. Qed.

Lemma eq_same_operator (a b : Rotation) :
  0.0000001 <= turns a -> 0.0000001 <= turns b ->
  11 * x a + 13 * y a + 17 * z a <> 0 -> 11 * x b + 13 * y b + 17 * z b <> 0 ->
  __eq__ a b = true ->
  as_pauli_operation a = as_pauli_operation b.
Proof.
  intros Hta Htb Hla Hlb E. apply eq_canonical in E.
  destruct (canonical_regular a Hta) as (n & c & Hn & _ & Hc & Ha & Ka).
  destruct (canonical_regular b Htb) as (m & e & Hm & _ & He & Hb & Kb).
  rewrite Ka, Kb in E.
  assert (Bn : branch_form n <> 0).
  { intros Z. apply Hla. rewrite Ha, branch_form_about, Z. ring. }
  assert (Bm : branch_form m <> 0).
  { intros Z. apply Hlb. rewrite Hb, branch_form_about, Z. ring. }
  rewrite Ha, Hb.
  destruct (key_of_inj n m c e Hn Hm E) as [[[kc ->] [ke ->]] | [<- [k ->]]].
  - rewrite !pauli_about_whole by (try assumption; now left). reflexivity.
  - rewrite <- pauli_about_add by (try assumption; now left).
    rewrite pauli_about_whole by (try assumption; now left).
    symmetry. apply mul_identity_r.
Qed.

(** X10: rotations that are [==] have the same operator, when both have at
    least a ten-millionth of a turn and lie off the plane
    11x + 13y + 17z = 0. *)
Theorem eq_gives_same_operator (a b : Rotation) :
  0.0000001 <= turns a -> 0.0000001 <= turns b ->
  11 * x a + 13 * y a + 17 * z a <> 0 -> 11 * x b + 13 * y b + 17 * z b <> 0 ->
  __eq__ a b = true ->
  as_pauli_operation a = as_pauli_operation b.
Proof. exact (eq_same_operator a b). Qed.

(** The doctest pair [Rotation(y=0.25)], [Rotation(y=-0.75)]. *)
Lemma eq_gives_same_operator_witness :
  as_pauli_operation (mkRotation 0 0.25 0) = as_pauli_operation (mkRotation 0 (-0.75) 0).
Proof.
  apply (eq_gives_same_operator (mkRotation 0 0.25 0) (mkRotation 0 (-0.75) 0)).
  - rewrite (turns_of _ 0.25); cbn [x y z]; lra.
  - rewrite (turns_of _ 0.75); cbn [x y z]; lra.
  - cbn [x y z]. lra.
  - cbn [x y z]. lra.
  - replace (mkRotation 0 0.25 0) with (about (0, 1, 0) 0.25)
      by (unfold about; f_equal; lra).
    replace (mkRotation 0 (-0.75) 0) with (about (0, 1, 0) (0.25 + IZR (-1)))
      by (unfold about; f_equal; lra).
    apply eq_canonical. rewrite !canonical_about.
    + symmetry. apply key_of_add_whole.
    + unfold norm3. ring.
    + unfold leading_positive. lra.
    + rewrite Rabs_left; lra.
    + unfold norm3. ring.
    + unfold leading_positive. lra.
    + rewrite Rabs_right; lra.
Defined.

Lemma canonical_tiny (r : Rotation) :
  turns r < 0.0000001 ->
  __canonical r = if Req_dec_T (turns r) 0 then (0, 0, 0, 0) else (turns r, 0, 0, 0).
Proof.
  intros Hr. assert (0 <= turns r) by apply sqrt_pos.
  unfold __canonical, axis. destruct (Rlt_dec (turns r) 0.0000001); [ | lra].
  destruct (Req_dec_T 0 0); [ | lra]. destruct (Req_dec_T 0 0); [ | lra].
  destruct (Rlt_dec 0 0); [lra | ]. rewrite py_mod_small by lra.
  destruct (Req_dec_T (turns r) 0); [reflexivity | ].
  destruct (Rle_dec 0.5 (turns r)); [lra | reflexivity].
Qed.

(** X11: below a ten-millionth of a turn the direction is forgotten: two such
    rotations are [==] exactly when they have the same number of turns,
    whatever their axes. *)
Theorem eq_of_tiny_rotations (a b : Rotation) :
  turns a < 0.0000001 -> turns b < 0.0000001 ->
  (__eq__ a b = true <-> turns a = turns b).
Proof.
  intros Ha Hb. rewrite eq_canonical, (canonical_tiny a Ha), (canonical_tiny b Hb).
  destruct (Req_dec_T (turns a) 0), (Req_dec_T (turns b) 0); split; intros H;
    try reflexivity; try lra; try (inversion H; lra); try congruence.
Qed.

Lemma eq_of_tiny_rotations_witness :
  __eq__ (mkRotation 0.00000001 0 0) (mkRotation 0 0.00000001 0) = true
  <-> turns (mkRotation 0.00000001 0 0) = turns (mkRotation 0 0.00000001 0).
Proof.
  apply (eq_of_tiny_rotations (mkRotation 0.00000001 0 0) (mkRotation 0 0.00000001 0)).
  - rewrite (turns_of _ 0.00000001); cbn [x y z]; lra.
  - rewrite (turns_of _ 0.00000001); cbn [x y z]; lra.
Defined.

(** X12: above that threshold the key of a rotation is either (0,0,0,0) or
    carries a unit direction whose first nonzero coordinate is positive. *)
Theorem canonical_direction_is_normalised (r : Rotation) :
  0.0000001 <= turns r ->
  __canonical r = (0, 0, 0, 0)
  \/ exists t a b d, __canonical r = (t, a, b, d)
                     /\ norm3 (a, b, d) = 1 /\ leading_positive (a, b, d).
Proof.
  intros Ht. destruct (canonical_regular r Ht) as (n & c & Hn & Hl & _ & _ & ->).
  destruct n as [[a b] d]. unfold key_of.
  destruct (Req_dec_T (py_mod c 1) 0); [now left | right].
  eexists _, a, b, d. repeat split; assumption.
Qed.

Lemma canonical_direction_is_normalised_witness :
  __canonical (mkRotation (-0.25) 0 0) = (0, 0, 0, 0)
  \/ exists t a b d, __canonical (mkRotation (-0.25) 0 0) = (t, a, b, d)
                     /\ norm3 (a, b, d) = 1 /\ leading_positive (a, b, d).
Proof.
  apply (canonical_direction_is_normalised (mkRotation (-0.25) 0 0)).
  rewrite (turns_of _ 0.25); cbn [x y z]; lra.
Defined.

(** ** [unitary_lerp] stays unitary *)

Lemma div_mul_cancel (e p : Complex.t) : norm2 p = 1 -> Complex.div (Complex.mul e p) p = e.
Proof.
  destruct e as [e1 e2], p as [p1 p2]. unfold norm2, Complex.mul, Complex.div.
  cbn [Complex.re Complex.im]. intros H. rewrite H. apply complex_eq; cbn [Complex.re Complex.im].
  - replace (((e1 * p1 - e2 * p2) * p1 + (e1 * p2 + e2 * p1) * p2) / 1)
      with (e1 * (p1 * p1 + p2 * p2)) by field.
    rewrite H. ring.
  - replace (((e1 * p2 + e2 * p1) * p1 - (e1 * p1 - e2 * p2) * p2) / 1)
      with (e2 * (p1 * p1 + p2 * p2)) by field.
    rewrite H. ring.
Qed.

Lemma cdiv_cscale (m : Mat2.t) (p : Complex.t) :
  norm2 p = 1 -> Mat2.cdiv (Mat2.cscale p m) p = m.
Proof.
  intros H. destruct m. unfold Mat2.cscale, Mat2.cdiv, Mat2.map.
  cbn [Mat2.m00 Mat2.m01 Mat2.m10 Mat2.m11]. now rewrite !div_mul_cancel.
Qed.

Lemma pauli_combination_unitary (q : Quaternion.t) :
  Quaternion.dot q q = 1 -> is_unitary (pauli_combination q).
Proof.
  destruct q as [a b c d]. unfold Quaternion.dot, is_unitary, pauli_combination, identity_i.
  cbn [Quaternion.w Quaternion.x Quaternion.y Quaternion.z]. intros H.
  split; cx_unfold; entrywise; lra.
Qed.

Lemma pauli_combination_mix (c1 c2 : R) (q1 q2 : Quaternion.t) :
  Mat2.add (Mat2.scale c1 (pauli_combination q1)) (Mat2.scale c2 (pauli_combination q2))
  = pauli_combination
      (Quaternion.mk (c1 * Quaternion.w q1 + c2 * Quaternion.w q2)
                     (c1 * Quaternion.x q1 + c2 * Quaternion.x q2)
                     (c1 * Quaternion.y q1 + c2 * Quaternion.y q2)
                     (c1 * Quaternion.z q1 + c2 * Quaternion.z q2)).
Proof.
  destruct q1, q2. unfold pauli_combination, identity_i. cx_unfold. entrywise; ring.
Qed.

Lemma pauli_combination_neg (q : Quaternion.t) :
  Mat2.scale (-1) (pauli_combination q) = pauli_combination (Quaternion.neg q).
Proof.
  destruct q. unfold pauli_combination, identity_i, Quaternion.neg. cx_unfold. entrywise; ring.
Qed.

(** The rotation part of a unitary: the matrix over the phase of its
    breakdown is the combination of the four real coefficients, which form a
    unit vector. *)
Lemma breakdown_rotation_part (u : Mat2.t) :
  is_unitary u ->
  exists (q : Quaternion.t) (p : Complex.t),
    unitary_breakdown u
    = (Quaternion.w q, Quaternion.x q, Quaternion.y q, Quaternion.z q, p)
    /\ norm2 p = 1 /\ Quaternion.dot q q = 1
    /\ u = Mat2.cscale p (pauli_combination q)
    /\ Mat2.cdiv u p = pauli_combination q.
Proof.
  intros Hu. destruct (breakdown_facts u Hu) as (t & a & b & c & p & E & Hn & Hm & _).
  exists (Quaternion.mk t a b c), p.
  cbn [Quaternion.w Quaternion.x Quaternion.y Quaternion.z].
  pose proof (breakdown_unit_vector u t a b c p Hu Hn Hm) as Hq.
  assert (Hr : u = Mat2.cscale p (pauli_combination (Quaternion.mk t a b c))).
  { symmetry. destruct u as [[a1 a2] [b1 b2] [c1 c2] [d1 d2]].
    now apply (recombine_from_products a1 a2 b1 b2 c1 c2 d1 d2 t a b c p). }
  repeat split; try assumption.
  rewrite Hr at 1. now apply cdiv_cscale.
Qed.

Lemma slerp_identity (A B : R) :
  sin (A - B) * sin (A - B) + sin B * sin B + 2 * (sin (A - B) * sin B) * cos A
  = sin A * sin A.
Proof.
  rewrite sin_minus.
  pose proof (sin2_cos2 A) as HA. pose proof (sin2_cos2 B) as HB. unfold Rsqr in *.
  set (sa := sin A) in *. set (ca := cos A) in *. set (sb := sin B) in *. set (cb := cos B) in *.
  replace ((sa * cb - ca * sb) * (sa * cb - ca * sb) + sb * sb
           + 2 * ((sa * cb - ca * sb) * sb) * ca)
    with (sa * sa * (cb * cb) + sb * sb * (1 - ca * ca)) by ring.
  replace (1 - ca * ca) with (sa * sa) by lra.
  replace (cb * cb) with (1 - sb * sb) by lra. ring.
Qed.

Lemma slerp_weights (d t : R) :
  0 <= d <= 1 ->
  let theta := trig_tau.acos (Rmax (Rmin d 1) (-1)) in
  let c1 := trig_tau.sin_scale_ratio theta (1 - t) in
  let c2 := trig_tau.sin_scale_ratio theta t in
  c1 * c1 + c2 * c2 + 2 * (c1 * c2) * d = 1.
Proof.
  intros Hd. rewrite Rmin_left, Rmax_left by lra. cbv zeta.
  pose proof (acos_quarter_range d Hd) as [Hlo Hhi]. pose proof PI_RGT_0.
  assert (Hcos : cos (acos d) = d) by (apply cos_acos; lra).
  unfold trig_tau.sin_scale_ratio, trig_tau.acos, trig_tau.sin, trig_tau.tau.
  set (A := acos d) in *. clearbody A.
  destruct (Req_dec_T (A / (2 * PI)) 0) as [E | E].
  - assert (HA0 : A * / (2 * PI) = 0 * / (2 * PI)) by (unfold Rdiv in E; lra).
    assert (A = 0) by (apply (Rmult_eq_reg_r (/ (2 * PI))); [exact HA0 | apply Rinv_neq_0_compat; lra]).
    assert (HA : A = 0) by lra. rewrite HA, cos_0 in Hcos. subst d. ring.
  - assert (HA : A <> 0) by (intros Z; apply E; rewrite Z; unfold Rdiv; ring).
    assert (Hs : 0 < sin A) by (apply sin_gt_0; lra).
    replace (2 * PI * (A / (2 * PI) * (1 - t))) with (A - A * t) by (field; lra).
    replace (2 * PI * (A / (2 * PI) * t)) with (A * t) by (field; lra).
    replace (2 * PI * (A / (2 * PI))) with A by (field; lra).
    pose proof (slerp_identity A (A * t)) as Hi. rewrite Hcos in Hi.
    replace (sin (A - A * t) / sin A * (sin (A - A * t) / sin A)
             + sin (A * t) / sin A * (sin (A * t) / sin A)
             + 2 * (sin (A - A * t) / sin A * (sin (A * t) / sin A)) * d)
      with ((sin (A - A * t) * sin (A - A * t) + sin (A * t) * sin (A * t)
             + 2 * (sin (A - A * t) * sin (A * t)) * d) / (sin A * sin A)) by (field; lra).
    rewrite Hi. field. lra.
Qed.

Lemma norm2_exp_j (a : R) : norm2 (Complex.exp_j a) = 1.
Proof.
  unfold norm2, Complex.exp_j. cbn [Complex.re Complex.im].
  pose proof (sin2_cos2 a) as H. unfold Rsqr in H. lra.
Qed.

Lemma mixed_norm (c1 c2 : R) (q1 q2 : Quaternion.t) :
  Quaternion.dot q1 q1 = 1 -> Quaternion.dot q2 q2 = 1 ->
  c1 * c1 + c2 * c2 + 2 * (c1 * c2) * Quaternion.dot q1 q2 = 1 ->
  is_unitary (Mat2.add (Mat2.scale c1 (pauli_combination q1))
                       (Mat2.scale c2 (pauli_combination q2))).
Proof.
  intros H1 H2 H. rewrite pauli_combination_mix. apply pauli_combination_unitary.
  destruct q1 as [a1 b1 e1 d1], q2 as [a2 b2 e2 d2]. unfold Quaternion.dot in *.
  cbn [Quaternion.w Quaternion.x Quaternion.y Quaternion.z] in *.
  replace ((c1 * a1 + c2 * a2) * (c1 * a1 + c2 * a2) + (c1 * b1 + c2 * b2) * (c1 * b1 + c2 * b2)
           + (c1 * e1 + c2 * e2) * (c1 * e1 + c2 * e2) + (c1 * d1 + c2 * d2) * (c1 * d1 + c2 * d2))
    with (c1 * c1 * (a1 * a1 + b1 * b1 + e1 * e1 + d1 * d1)
          + c2 * c2 * (a2 * a2 + b2 * b2 + e2 * e2 + d2 * d2)
          + 2 * (c1 * c2) * (a1 * a2 + b1 * b2 + e1 * e2 + d1 * d2)) by ring.
  rewrite H1, H2. lra.
Qed.

Lemma dot_bounds (q1 q2 : Quaternion.t) :
  Quaternion.dot q1 q1 = 1 -> Quaternion.dot q2 q2 = 1 -> -1 <= Quaternion.dot q1 q2 <= 1.
Proof.
  destruct q1 as [a1 b1 e1 d1], q2 as [a2 b2 e2 d2]. unfold Quaternion.dot.
  cbn [Quaternion.w Quaternion.x Quaternion.y Quaternion.z]. intros H1 H2.
  pose proof (Rle_0_sqr (a1 - a2)). pose proof (Rle_0_sqr (b1 - b2)).
  pose proof (Rle_0_sqr (e1 - e2)). pose proof (Rle_0_sqr (d1 - d2)).
  pose proof (Rle_0_sqr (a1 + a2)). pose proof (Rle_0_sqr (b1 + b2)).
  pose proof (Rle_0_sqr (e1 + e2)). pose proof (Rle_0_sqr (d1 + d2)).
  unfold Rsqr in *. split; lra.
Qed.

(** X13: every point of the interpolation between two unitary matrices is
    unitary, whatever the fraction. *)
Theorem unitary_lerp_is_unitary (u1 u2 : Mat2.t) (t : R) :
  is_unitary u1 -> is_unitary u2 -> is_unitary (unitary_lerp u1 u2 t).
Proof.
  intros H1 H2.
  destruct (breakdown_rotation_part u1 H1) as (q1 & p1 & E1 & N1 & D1 & _ & R1).
  destruct (breakdown_rotation_part u2 H2) as (q2 & p2 & E2 & N2 & D2 & _ & R2).
  unfold unitary_lerp. rewrite E1, E2. cbv beta iota zeta. rewrite R1, R2.
  replace (Quaternion.mk (Quaternion.w q1) (Quaternion.x q1) (Quaternion.y q1) (Quaternion.z q1))
    with q1 by now destruct q1.
  replace (Quaternion.mk (Quaternion.w q2) (Quaternion.x q2) (Quaternion.y q2) (Quaternion.z q2))
    with q2 by now destruct q2.
  pose proof (dot_bounds q1 q2 D1 D2) as Hb.
  destruct (Rlt_dec (Quaternion.dot q1 q2) 0) as [Hneg | Hpos].
  - apply cscale_unitary; [apply norm2_exp_j | ].
    rewrite pauli_combination_neg. apply mixed_norm; try assumption.
    + destruct q2. unfold Quaternion.dot, Quaternion.neg in *.
      cbn [Quaternion.w Quaternion.x Quaternion.y Quaternion.z] in *. lra.
    + replace (Quaternion.dot q1 (Quaternion.neg q2)) with (Quaternion.dot q1 q2 * -1)
        by (destruct q1, q2; unfold Quaternion.dot, Quaternion.neg;
            cbn [Quaternion.w Quaternion.x Quaternion.y Quaternion.z]; ring).
      apply slerp_weights. lra.
  - apply cscale_unitary; [apply norm2_exp_j | ].
    apply mixed_norm; try assumption. apply slerp_weights. lra.
Qed.

(** Between the identity and Pauli X. *)
Lemma unitary_lerp_is_unitary_witness :
  is_unitary (unitary_lerp Mat2.identity Mat2.pauli_x (/ 3)).
Proof.
  apply (unitary_lerp_is_unitary Mat2.identity Mat2.pauli_x (/ 3)).
  - apply unitary_identity.
  - apply unitary_pauli_x.
Defined.

(** ** More on [unitary_breakdown] *)

Lemma abs_scale_unit (k : R) (p : Complex.t) :
  norm2 p = 1 -> Complex.abs (Complex.scale k p) = Rabs k.
Proof.
  intros Hp. unfold Complex.abs. fold (norm2 (Complex.scale k p)).
  rewrite norm2_scale, Hp, Rmult_1_r. apply sqrt_lem_1.
  - nra.
  - apply Rabs_pos.
  - unfold Rabs. destruct (Rcase_abs k); ring.
Qed.

(** The coefficient that gave the phase comes out real and positive. *)
Lemma phase_source_positive (k : R) (p : Complex.t) :
  norm2 p = 1 ->
  p = Complex.div (Complex.scale k p) (Complex.of_real (Complex.abs (Complex.scale k p))) ->
  0 < k.
Proof.
  intros Hp E. rewrite (abs_scale_unit k p Hp) in E. destruct p as [p1 p2].
  unfold norm2, Complex.div, Complex.scale, Complex.of_real in *.
  cbn [Complex.re Complex.im] in *. injection E as E1 E2.
  destruct (Req_dec_T k 0) as [-> | Hk].
  - exfalso. rewrite Rabs_R0 in E1, E2. unfold Rdiv in E1, E2.
    rewrite !Rmult_0_l, Rplus_0_l in E1. rewrite !Rmult_0_l, Rminus_0_r in E2. nra.
  - destruct (Rlt_dec 0 k) as [Hpos | Hneg]; [exact Hpos | exfalso].
    assert (Hk' : k < 0) by lra. rewrite (Rabs_left k Hk') in E1, E2.
    assert (H1 : p1 = - p1).
    { rewrite E1 at 1. field. lra. }
    assert (H2 : p2 = - p2).
    { rewrite E2 at 1. field. lra. }
    nra.
Qed.

(** X14: the breakdown of a unitary matrix is normalised: its phase has
    modulus one, its four real coefficients form a unit vector, and the one
    of largest magnitude among them is positive. *)
Theorem unitary_breakdown_is_normalised (m : Mat2.t) :
  is_unitary m ->
  exists (t x y z : R) (p : Complex.t),
    unitary_breakdown m = (t, x, y, z, p)
    /\ norm2 p = 1
    /\ t * t + x * x + y * y + z * z = 1
    /\ exists k, In k [t; x; y; z] /\ 0 < k
                 /\ forall k', In k' [t; x; y; z] -> Rabs k' <= k.
Proof.
  intros Hu.
  destruct (breakdown_facts m Hu) as (t & a & b & c & p & E & Hn & Hm & e & He & Hmax & Hp).
  exists t, a, b, c, p. repeat split; try assumption.
  - exact (breakdown_unit_vector m t a b c p Hu Hn Hm).
  - rewrite <- Hm in He. apply in_map_iff in He. destruct He as (k & <- & Hk).
    exists k. split; [exact Hk | ].
    pose proof (phase_source_positive k p Hn Hp) as Hpos. split; [exact Hpos | ].
    intros k' Hk'.
    assert (Hin : In (Complex.scale k' p) (pauli_coefficients m)).
    { rewrite <- Hm. apply in_map_iff. now exists k'. }
    apply Hmax in Hin. rewrite !abs_scale_unit in Hin by assumption.
    rewrite (Rabs_right k) in Hin by lra. exact Hin.
Qed.

Lemma unitary_breakdown_is_normalised_witness :
  exists (t x y z : R) (p : Complex.t),
    unitary_breakdown Mat2.pauli_x = (t, x, y, z, p)
    /\ norm2 p = 1
    /\ t * t + x * x + y * y + z * z = 1
    /\ exists k, In k [t; x; y; z] /\ 0 < k
                 /\ forall k', In k' [t; x; y; z] -> Rabs k' <= k.
Proof. apply (unitary_breakdown_is_normalised Mat2.pauli_x). apply unitary_pauli_x. Defined.

Lemma abs_mul_unit (e c : Complex.t) :
  norm2 c = 1 -> Complex.abs (Complex.mul e c) = Complex.abs e.
Proof.
  intros Hc. unfold Complex.abs. fold (norm2 (Complex.mul e c)). fold (norm2 e).
  now rewrite norm2_mul, Hc, Rmult_1_r.
Qed.

Lemma max_by_abs_mul (c first : Complex.t) (rest : list Complex.t) :
  norm2 c = 1 ->
  max_by_abs (Complex.mul first c) (List.map (fun e => Complex.mul e c) rest)
  = Complex.mul (max_by_abs first rest) c.
Proof.
  intros Hc. unfold max_by_abs. revert first.
  induction rest as [ | e rest IH]; intros first; [reflexivity | ].
  cbn [List.map fold_left]. rewrite !abs_mul_unit by assumption.
  destruct (Rlt_dec (Complex.abs first) (Complex.abs e)); apply IH.
Qed.

Lemma div_mul_l (e c q : Complex.t) :
  Complex.div (Complex.mul e c) q = Complex.mul (Complex.div e q) c.
Proof.
  destruct e, c, q. unfold Complex.div, Complex.mul. cbn [Complex.re Complex.im].
  apply complex_eq; cbn [Complex.re Complex.im]; unfold Rdiv; ring.
Qed.

Lemma add_mul_r (a d c : Complex.t) :
  Complex.add (Complex.mul a c) (Complex.mul d c) = Complex.mul (Complex.add a d) c.
Proof.
  destruct a, d, c. unfold Complex.add, Complex.mul. cbn [Complex.re Complex.im].
  apply complex_eq; cbn [Complex.re Complex.im]; ring.
Qed.

Lemma sub_mul_r (a d c : Complex.t) :
  Complex.sub (Complex.mul a c) (Complex.mul d c) = Complex.mul (Complex.sub a d) c.
Proof.
  destruct a, d, c. unfold Complex.sub, Complex.mul. cbn [Complex.re Complex.im].
  apply complex_eq; cbn [Complex.re Complex.im]; ring.
Qed.

Lemma div_mul_mul (a b c : Complex.t) :
  norm2 c = 1 -> Complex.div (Complex.mul a c) (Complex.mul b c) = Complex.div a b.
Proof.
  destruct a as [a1 a2], b as [b1 b2], c as [c1 c2].
  unfold norm2, Complex.div, Complex.mul. cbn [Complex.re Complex.im]. intros Hc.
  replace ((b1 * c1 - b2 * c2) * (b1 * c1 - b2 * c2) + (b1 * c2 + b2 * c1) * (b1 * c2 + b2 * c1))
    with ((b1 * b1 + b2 * b2) * (c1 * c1 + c2 * c2)) by ring.
  replace ((a1 * c1 - a2 * c2) * (b1 * c1 - b2 * c2) + (a1 * c2 + a2 * c1) * (b1 * c2 + b2 * c1))
    with ((a1 * b1 + a2 * b2) * (c1 * c1 + c2 * c2)) by ring.
  replace ((a1 * c2 + a2 * c1) * (b1 * c1 - b2 * c2) - (a1 * c1 - a2 * c2) * (b1 * c2 + b2 * c1))
    with ((a2 * b1 - a1 * b2) * (c1 * c1 + c2 * c2)) by ring.
  now rewrite Hc, !Rmult_1_r.
Qed.

(** X15: a global phase of modulus one on a unitary matrix goes into the
    phase of the breakdown and leaves the four real coefficients alone. *)
Theorem unitary_breakdown_global_phase (m : Mat2.t) (c : Complex.t) :
  is_unitary m -> norm2 c = 1 ->
  unitary_breakdown (Mat2.cscale c m)
  = let '(t, x, y, z, p) := unitary_breakdown m in (t, x, y, z, Complex.mul p c).
Proof.
  intros _ Hc. destruct m as [a b e d]. unfold unitary_breakdown, Mat2.cscale, Mat2.map.
  cbn [Mat2.m00 Mat2.m01 Mat2.m10 Mat2.m11]. cbv zeta.
  rewrite !add_mul_r, !sub_mul_r.
  rewrite (div_mul_l (Complex.add a d) c (Complex.mk 0 2)),
          (div_mul_l (Complex.add b e) c (Complex.of_real 2)),
          (div_mul_l (Complex.sub b e) c (Complex.mk 0 (-2))),
          (div_mul_l (Complex.sub a d) c (Complex.of_real 2)).
  match goal with
  | |- context [max_by_abs (Complex.mul ?f c) [Complex.mul ?u c; Complex.mul ?v c; Complex.mul ?w c]] =>
      change [Complex.mul u c; Complex.mul v c; Complex.mul w c]
        with (List.map (fun e => Complex.mul e c) [u; v; w]);
      rewrite (max_by_abs_mul c f [u; v; w] Hc);
      set (P := max_by_abs f [u; v; w])
  end.
  rewrite (abs_mul_unit P c Hc), (div_mul_l P c), !div_mul_mul by assumption. reflexivity.
Qed.

(** Pauli X times i. *)
Lemma unitary_breakdown_global_phase_witness :
  unitary_breakdown (Mat2.cscale Complex.j Mat2.pauli_x)
  = let '(t, x, y, z, p) := unitary_breakdown Mat2.pauli_x in
    (t, x, y, z, Complex.mul p Complex.j).
Proof.
  apply (unitary_breakdown_global_phase Mat2.pauli_x Complex.j).
  - apply unitary_pauli_x.
  - unfold norm2, Complex.j. cbn [Complex.re Complex.im]. ring.
Defined.

(** ** More on the quaternions of rotations and on [then] *)

(** X16: the quaternion of a rotation is a unit quaternion, and the
    quaternion of the negated rotation is its conjugate. *)
Theorem as_quaternion_unit_and_conjugate (r : Rotation) :
  Quaternion.dot (as_quaternion r) (as_quaternion r) = 1
  /\ as_quaternion (__neg__ r) = Quaternion.conjugate (as_quaternion r).
Proof. split; [apply as_quaternion_unit | apply as_quaternion_neg]. Qed.

Lemma as_quaternion_about (n : R * R * R) (a : R) :
  norm3 n = 1 -> 0.000001 <= Rabs a -> as_quaternion (about n a) = axis_quaternion n a.
Proof.
  intros Hn Ha. unfold as_quaternion. rewrite (turns_about n a Hn).
  destruct (Rlt_dec (Rabs a) 0.000001) as [Hs | _]; [lra | ].
  destruct n as [[n1 n2] n3]. unfold about, axis_quaternion, trig_tau.cos, trig_tau.sin, trig_tau.tau.
  cbn [x y z].
  replace (2 * PI * (Rabs a / 2)) with (PI * Rabs a) by field.
  unfold Rabs in *. destruct (Rcase_abs a) as [Hneg | Hpos].
  - replace (PI * - a) with (- (PI * a)) by ring. rewrite cos_neg, sin_neg.
    f_equal; field; lra.
  - f_equal; field; lra.
Qed.

Lemma as_quaternion_about_form (n : R * R * R) (a : R) :
  exists c k, as_quaternion (about n a)
              = Quaternion.mk c (k * fst (fst n)) (k * snd (fst n)) (k * snd n).
Proof.
  destruct n as [[n1 n2] n3]. cbn [fst snd]. unfold as_quaternion.
  set (T := turns (about (n1, n2, n3) a)). clearbody T.
  destruct (Rlt_dec T 0.000001).
  - exists 1, 0. unfold Quaternion.of_scalar. now rewrite !Rmult_0_l.
  - exists (trig_tau.cos (T / 2)), (trig_tau.sin (T / 2) / T * a).
    unfold about. cbn [x y z].
    apply (f_equal3 (Quaternion.mk (trig_tau.cos (T / 2)))); ring.
Qed.

(** X17: two rotations about one and the same line compose to the same
    rotation in either order. *)
Theorem then_commutes_on_one_axis (n : R * R * R) (a b : R) :
  then_ (about n a) (about n b) = then_ (about n b) (about n a).
Proof.
  unfold then_.
  destruct (as_quaternion_about_form n a) as (c1 & k1 & ->).
  destruct (as_quaternion_about_form n b) as (c2 & k2 & ->).
  f_equal. unfold Quaternion.mul. cbn [Quaternion.w Quaternion.x Quaternion.y Quaternion.z].
  f_equal; ring.
Qed.

Lemma then_about_add (n : R * R * R) (a b : R) :
  norm3 n = 1 -> 0.000001 <= Rabs a -> 0.000001 <= Rabs b ->
  0.000001 <= Rabs (a + b) <= 0.5 ->
  smooth_near_quarter_turn (turns (about n (a + b))) = turns (about n (a + b)) ->
  smooth_near_quarter_turn (x (about n (a + b))) = x (about n (a + b)) ->
  smooth_near_quarter_turn (y (about n (a + b))) = y (about n (a + b)) ->
  smooth_near_quarter_turn (z (about n (a + b))) = z (about n (a + b)) ->
  then_ (about n a) (about n b) = about n (a + b).
Proof.
  intros Hn Ha Hb [Hlo Hhi] Ht Hx Hy Hz. unfold then_.
  rewrite (as_quaternion_about n a Hn Ha), (as_quaternion_about n b Hn Hb).
  rewrite (axis_quaternion_add n b a Hn), (Rplus_comm b a).
  rewrite <- (as_quaternion_about n (a + b) Hn Hlo).
  apply from_as_quaternion; try assumption; rewrite (turns_about n (a + b) Hn); assumption.
Qed.

(** X18: turns about one axis add up under [then]: a rotation of [a] turns
    about the unit direction [n] followed by one of [b] turns about [n] is
    the rotation of [a + b] turns about [n], when both are at or above the
    cut-off of [as_quaternion], the sum is between the cut-off and half a
    turn, and the smoothing leaves the sum and the components of the result
    alone. *)
Theorem then_adds_turns_about_an_axis (n : R * R * R) (a b : R) :
  norm3 n = 1 -> 0.000001 <= Rabs a -> 0.000001 <= Rabs b ->
  0.000001 <= Rabs (a + b) <= 0.5 ->
  smooth_near_quarter_turn (turns (about n (a + b))) = turns (about n (a + b)) ->
  smooth_near_quarter_turn (x (about n (a + b))) = x (about n (a + b)) ->
  smooth_near_quarter_turn (y (about n (a + b))) = y (about n (a + b)) ->
  smooth_near_quarter_turn (z (about n (a + b))) = z (about n (a + b)) ->
  then_ (about n a) (about n b) = about n (a + b).
Proof. exact (then_about_add n a b). Qed.

(** Two eighths of a turn about x make a quarter turn about x. *)
Lemma then_adds_turns_about_an_axis_witness :
  then_ (about (1, 0, 0) 0.125) (about (1, 0, 0) 0.125) = about (1, 0, 0) (0.125 + 0.125).
Proof.
  assert (Hn : norm3 (1, 0, 0) = 1) by (unfold norm3; ring).
  assert (E : 0.125 + 0.125 = 0.25) by lra.
  assert (Ha : Rabs 0.125 = 0.125) by (apply Rabs_right; lra).
  assert (Hq : Rabs 0.25 = 0.25) by (apply Rabs_right; lra).
  apply (then_adds_turns_about_an_axis (1, 0, 0) 0.125 0.125 Hn).
  - rewrite Ha. lra.
  - rewrite Ha. lra.
  - rewrite E, Hq. lra.
  - rewrite (turns_about _ _ Hn), E, Hq. apply smooth_quarter.
  - unfold about. cbn [x y z]. rewrite E, Rmult_1_r. apply smooth_quarter.
  - unfold about. cbn [x y z]. rewrite Rmult_0_r. apply smooth_zero.
  - unfold about. cbn [x y z]. rewrite Rmult_0_r. apply smooth_zero.
Defined.

Lemma quaternion_mul_one_r (q : Quaternion.t) : Quaternion.mul q (Quaternion.of_scalar 1) = q.
Proof. destruct q. unfold Quaternion.mul, Quaternion.of_scalar. cbn. f_equal; ring. Qed.

(** X19: a rotation below the cut-off of [as_quaternion], a millionth of a
    turn, is dropped by [then] on either side: what comes back is the other
    rotation after its passage through its quaternion. *)
Theorem then_drops_tiny_rotations (r s : Rotation) :
  turns s < 0.000001 ->
  then_ r s = from_quaternion (as_quaternion r)
  /\ then_ s r = from_quaternion (as_quaternion r).
Proof.
  intros Hs. unfold then_. rewrite (as_quaternion_below_cutoff s Hs).
  now rewrite quaternion_mul_one_l, quaternion_mul_one_r.
Qed.

Lemma then_drops_tiny_rotations_witness :
  then_ (mkRotation 0.25 0 0) no_rotation = from_quaternion (as_quaternion (mkRotation 0.25 0 0))
  /\ then_ no_rotation (mkRotation 0.25 0 0)
     = from_quaternion (as_quaternion (mkRotation 0.25 0 0)).
Proof.
  apply (then_drops_tiny_rotations (mkRotation 0.25 0 0) no_rotation).
  rewrite turns_zero. lra.
Defined.

(** X20: a quaternion without imaginary part and with a real part that is
    not negative, the zero quaternion among them, translates to the rotation
    that does nothing. *)
Theorem from_quaternion_of_scalar (w : R) :
  0 <= w -> from_quaternion (Quaternion.of_scalar w) = no_rotation.
Proof.
  intros _. unfold from_quaternion, Quaternion.of_scalar.
  cbn [Quaternion.w Quaternion.x Quaternion.y Quaternion.z].
  replace (0 / _) with 0 by (unfold Rdiv; ring).
  now rewrite smooth_zero.
Qed.

Lemma from_quaternion_of_scalar_witness : from_quaternion (Quaternion.of_scalar 0) = no_rotation.
Proof. apply (from_quaternion_of_scalar 0). lra. Defined.

(** ** More on the sequence simplifier *)

(** X21: the short sequences: onto the empty one the new rotation is simply
    put; onto a single rotation it is appended unless it undoes that
    rotation, and the rule of the third quarter turn never applies. *)
Theorem plus_rotation_simplified_short (next : Rotation) :
  plus_rotation_simplified [] next = [next]
  /\ forall a, plus_rotation_simplified [a] next
               = if __eq__ next (__neg__ a) then [] else [a; next].
Proof.
  split; [reflexivity | ]. intros a.
  change [a] with ([] ++ [a]). rewrite prs_snoc. destruct (__eq__ next (__neg__ a)); reflexivity.
Qed.

Lemma mat2_mul_assoc (a b c : Mat2.t) :
  Mat2.mul (Mat2.mul a b) c = Mat2.mul a (Mat2.mul b c).
Proof.
  destruct a as [[] [] [] []], b as [[] [] [] []], c as [[] [] [] []].
  cx_unfold. entrywise; ring.
Qed.

Lemma net_snoc (l : list Rotation) (r : Rotation) :
  net_operation (l ++ [r]) = Mat2.mul (as_pauli_operation r) (net_operation l).
Proof. unfold net_operation. now rewrite fold_left_app. Qed.

Lemma well_conditioned_neg (r : Rotation) : well_conditioned r -> well_conditioned (__neg__ r).
Proof.
  intros [Ht Hb]. split; [now rewrite turns_neg | ].
  unfold __neg__. cbn [x y z]. lra.
Qed.

Lemma quarter_turn_cubed (r : Rotation) :
  well_conditioned r -> turns r = 0.25 ->
  Mat2.mul (as_pauli_operation r) (Mat2.mul (as_pauli_operation r) (as_pauli_operation r))
  = as_pauli_operation (__neg__ r).
Proof.
  intros [Ht Hb] Hq.
  destruct (own_direction r ltac:(lra)) as (n & Hn & Hr & Hl).
  assert (Hbn : branch_form n <> 0) by (intros E; rewrite E in Hl; lra).
  rewrite Hq in Hr. rewrite Hr, neg_about. rewrite !pauli_about_add by (try assumption; now left).
  replace (0.25 + (0.25 + 0.25)) with (Ropp 0.25 + IZR 1) by lra.
  rewrite <- pauli_about_add by (try assumption; now left).
  rewrite pauli_about_whole by (try assumption; now left).
  apply mul_identity_r.
Qed.

Lemma net_preserved (prev : list Rotation) (next : Rotation) :
  (forall r, In r (next :: prev) -> well_conditioned r) ->
  net_operation (plus_rotation_simplified prev next) = net_operation (prev ++ [next]).
Proof.
  intros Hall. assert (Hnext : well_conditioned next) by (apply Hall; now left).
  assert (Hsame : forall r, In r prev -> __eq__ next r = true ->
                            as_pauli_operation r = as_pauli_operation next).
  { intros r Hr E. destruct Hnext as [Ht Hb]. destruct (Hall r (or_intror Hr)) as [Ht' Hb'].
    symmetry. now apply eq_same_operator. }
  assert (Hcancel : forall init last, prev = init ++ [last] -> __eq__ next (__neg__ last) = true ->
                                      net_operation init = net_operation (prev ++ [next])).
  { intros init last -> E. rewrite !net_snoc.
    assert (Hl : well_conditioned last) by (apply Hall; right; apply in_or_app; right; now left).
    pose proof (well_conditioned_neg last Hl) as [Ht' Hb']. destruct Hnext as [Ht Hb].
    rewrite (eq_same_operator next (__neg__ last) Ht Ht' Hb Hb' E).
    rewrite <- mat2_mul_assoc. destruct Hl as [_ Hbl].
    destruct (pauli_neg_inverse last Hbl) as [_ ->]. now rewrite mul_identity_l. }
  destruct (list_end_cases prev) as [-> | [[a ->] | (init & r2 & r1 & ->)]].
  - reflexivity.
  - change [a] with ([] ++ [a]) at 1. rewrite prs_snoc.
    destruct (__eq__ next (__neg__ a)) eqn:E.
    + now apply (Hcancel [] a).
    + reflexivity.
  - destruct (__eq__ next (__neg__ r1)) eqn:E.
    + assert (Hp : init ++ [r2; r1] = (init ++ [r2]) ++ [r1]) by now rewrite <- app_assoc.
      rewrite Hp at 1. rewrite prs_snoc, E. now apply (Hcancel (init ++ [r2]) r1).
    + rewrite (prs_snoc2 init r2 r1 next E).
      destruct (Reqb (turns next) 0.25 && __eq__ next r1 && __eq__ next r2) eqn:Hrule.
      * apply andb_prop in Hrule. destruct Hrule as [Hrule E2].
        apply andb_prop in Hrule. destruct Hrule as [Hq E1]. apply Reqb_true in Hq.
        assert (Hp : init ++ [r2; r1] = (init ++ [r2]) ++ [r1]) by now rewrite <- app_assoc.
        rewrite Hp, !net_snoc.
        rewrite (Hsame r1), (Hsame r2); try assumption.
        -- rewrite <- (quarter_turn_cubed next Hnext Hq). now rewrite !mat2_mul_assoc.
        -- apply in_or_app. right. now left.
        -- apply in_or_app. right. right. now left.
      * now rewrite <- app_assoc.
Qed.

(** X22: the simplifier keeps the operator of the sequence: the product of
    the operators of the returned rotations is the product for the old
    sequence with the new rotation at its end, when every rotation involved
    has at least a ten-millionth of a turn and lies off the plane
    11x + 13y + 17z = 0. *)
Theorem plus_rotation_simplified_keeps_operator (prev : list Rotation) (next : Rotation) :
  (forall r, In r (next :: prev) -> well_conditioned r) ->
  net_operation (plus_rotation_simplified prev next) = net_operation (prev ++ [next]).
Proof. exact (net_preserved prev next). Qed.

(** The doctest [plus_rotation_simplified([Rotation(x=0.25)], Rotation(x=-0.25))]. *)
Lemma plus_rotation_simplified_keeps_operator_witness :
  net_operation (plus_rotation_simplified [mkRotation 0.25 0 0] (mkRotation (-0.25) 0 0))
  = net_operation ([mkRotation 0.25 0 0] ++ [mkRotation (-0.25) 0 0]).
Proof.
  apply (plus_rotation_simplified_keeps_operator [mkRotation 0.25 0 0] (mkRotation (-0.25) 0 0)).
  intros r [<- | [<- | []]]; split; cbn [x y z]; try lra.
  - rewrite (turns_of _ 0.25); cbn [x y z]; lra.
  - rewrite (turns_of _ 0.25); cbn [x y z]; lra.
Defined.

(** ** What is printed *)

Lemma py_mod_whole (k : Z) : py_mod (IZR k) 1 = 0.
Proof.
  replace (IZR k) with (0 + IZR k) by ring. rewrite py_mod_add_whole. apply py_mod_small. lra.
Qed.

Lemma py_mod_opp (a : R) :
  py_mod (- a) 1 = if Req_dec_T (py_mod a 1) 0 then 0 else 1 - py_mod a 1.
Proof.
  destruct (py_mod_congruent a 1) as [k Hk]. pose proof (py_mod_bounds a 1 Rlt_0_1) as Hb.
  destruct (Req_dec_T (py_mod a 1) 0) as [E | E].
  - replace (- a) with (IZR (- k)) by (rewrite opp_IZR; lra). apply py_mod_whole.
  - replace (- a) with (1 - py_mod a 1 + IZR (- k - 1))
      by (rewrite minus_IZR, opp_IZR; lra).
    rewrite py_mod_add_whole. apply py_mod_small. lra.
Qed.

Lemma py_mod_abs (a : R) :
  py_mod (Rabs a) 1 = py_mod a 1
  \/ (py_mod a 1 <> 0 /\ py_mod (Rabs a) 1 = 1 - py_mod a 1)
  \/ (py_mod a 1 = 0 /\ py_mod (Rabs a) 1 = 0).
Proof.
  unfold Rabs. destruct (Rcase_abs a); [ | now left]. right.
  rewrite py_mod_opp. destruct (Req_dec_T (py_mod a 1) 0); [right | left]; now split.
Qed.

Lemma turns_abs_x (a : R) : turns (mkRotation a 0 0) = Rabs a.
Proof.
  apply turns_of; [apply Rabs_pos | ]. cbn [x y z].
  unfold Rabs. destruct (Rcase_abs a); ring.
Qed.

Lemma turns_abs_y (a : R) : turns (mkRotation 0 a 0) = Rabs a.
Proof.
  apply turns_of; [apply Rabs_pos | ]. cbn [x y z].
  unfold Rabs. destruct (Rcase_abs a); ring.
Qed.

Lemma turns_abs_z (a : R) : turns (mkRotation 0 0 a) = Rabs a.
Proof.
  apply turns_of; [apply Rabs_pos | ]. cbn [x y z].
  unfold Rabs. destruct (Rcase_abs a); ring.
Qed.

Lemma whole_turns_of_eq_no_rotation (r : Rotation) :
  __eq__ r no_rotation = true -> py_mod (turns r) 1 = 0.
Proof.
  intros E. apply eq_canonical in E. rewrite canonical_no_rotation in E.
  destruct (Rlt_dec (turns r) 0.0000001) as [Hs | Hs].
  - rewrite (canonical_tiny r Hs) in E.
    destruct (Req_dec_T (turns r) 0) as [-> | Hn].
    + apply py_mod_small. lra.
    + exfalso. injection E as E. lra.
  - assert (Hge : 0.0000001 <= turns r) by lra.
    destruct (canonical_regular r Hge) as (n & c & Hn & _ & Hc & _ & K).
    rewrite K in E. destruct (key_of_zero n c Hn E) as [k ->].
    rewrite <- Hc, <- abs_IZR. apply py_mod_whole.
Qed.

Section PrintingFacts.
Variable str : R -> String.string.
Variable tuple_repr : R * R * R -> String.string.

Lemma repr_x_axis (a : R) :
  __repr__ str tuple_repr (mkRotation a 0 0) = axis_text str "X:" a.
Proof.
  unfold __repr__, axis_text. rewrite turns_abs_x. cbn [x y z].
  pose proof (py_mod_bounds a 1 Rlt_0_1) as Hb.
  assert (R0 : Reqb 0 0 = true) by now apply Reqb_true. rewrite R0. cbn [andb].
  destruct (py_mod_abs a) as [-> | [[Hn ->] | [Hz ->]]].
  - reflexivity.
  - repeat (destruct (Req_dec_T _ _); try lra); repeat (destruct (Rlt_dec _ _); try lra);
      reflexivity.
  - rewrite Hz. destruct (Req_dec_T 0 0); [reflexivity | lra].
Qed.

Lemma repr_y_axis (a : R) :
  __repr__ str tuple_repr (mkRotation 0 a 0) = axis_text str "Y:" a.
Proof.
  unfold __repr__, axis_text. rewrite turns_abs_y. cbn [x y z].
  pose proof (py_mod_bounds a 1 Rlt_0_1) as Hb.
  assert (R0 : Reqb 0 0 = true) by now apply Reqb_true. rewrite R0.
  assert (Ra : py_mod a 1 <> 0 -> Reqb a 0 = false).
  { intros Hn. unfold Reqb. destruct (Req_dec_T a 0) as [-> | ]; [ | reflexivity].
    exfalso. apply Hn. apply py_mod_small. lra. }
  destruct (py_mod_abs a) as [-> | [[Hn ->] | [Hz ->]]].
  - destruct (Req_dec_T (py_mod a 1) 0) as [ | Hn]; [reflexivity | ]. now rewrite (Ra Hn).
  - rewrite (Ra Hn). cbn [andb].
    repeat (destruct (Req_dec_T _ _); try lra); repeat (destruct (Rlt_dec _ _); try lra);
      reflexivity.
  - rewrite Hz. destruct (Req_dec_T 0 0); [reflexivity | lra].
Qed.

Lemma repr_z_axis (a : R) :
  __repr__ str tuple_repr (mkRotation 0 0 a) = axis_text str "Z:" a.
Proof.
  unfold __repr__, axis_text. rewrite turns_abs_z. cbn [x y z].
  pose proof (py_mod_bounds a 1 Rlt_0_1) as Hb.
  assert (R0 : Reqb 0 0 = true) by now apply Reqb_true. rewrite R0.
  assert (Ra : py_mod a 1 <> 0 -> Reqb a 0 = false).
  { intros Hn. unfold Reqb. destruct (Req_dec_T a 0) as [-> | ]; [ | reflexivity].
    exfalso. apply Hn. apply py_mod_small. lra. }
  destruct (py_mod_abs a) as [-> | [[Hn ->] | [Hz ->]]].
  - destruct (Req_dec_T (py_mod a 1) 0) as [ | Hn]; [reflexivity | ]. now rewrite (Ra Hn).
  - rewrite (Ra Hn). cbn [andb].
    repeat (destruct (Req_dec_T _ _); try lra); repeat (destruct (Rlt_dec _ _); try lra);
      reflexivity.
  - rewrite Hz. destruct (Req_dec_T 0 0); [reflexivity | lra].
Qed.

(** X23: every rotation that is [==] to [Rotation()] is printed as
    "(no rotation)", by [repr] and by [str], whatever the float printer. *)
Theorem repr_of_no_rotation (r : Rotation) :
  __eq__ r no_rotation = true ->
  __repr__ str tuple_repr r = "(no rotation)"%string
  /\ __str__ str tuple_repr r = "(no rotation)"%string.
Proof.
  intros E. unfold __str__, __repr__. rewrite (whole_turns_of_eq_no_rotation r E).
  destruct (Req_dec_T 0 0); [now split | lra].
Qed.

(** X24: what is printed for a rotation along a coordinate axis does not
    change when whole turns are added to it. *)
Theorem repr_ignores_whole_turns_on_an_axis (a : R) (k : Z) :
  __repr__ str tuple_repr (mkRotation (a + IZR k) 0 0) = __repr__ str tuple_repr (mkRotation a 0 0)
  /\ __repr__ str tuple_repr (mkRotation 0 (a + IZR k) 0)
     = __repr__ str tuple_repr (mkRotation 0 a 0)
  /\ __repr__ str tuple_repr (mkRotation 0 0 (a + IZR k))
     = __repr__ str tuple_repr (mkRotation 0 0 a).
Proof.
  rewrite !repr_x_axis, !repr_y_axis, !repr_z_axis. unfold axis_text.
  now rewrite py_mod_add_whole.
Qed.

(** X25: a rotation along the x axis whose turns leave a remainder of a
    quarter, a half or three quarters modulo one is printed with the
    vulgar fraction of the source. *)
Theorem repr_of_quarter_turns_about_x (k : Z) :
  __repr__ str tuple_repr (mkRotation (0.25 + IZR k) 0 0) = String.append "X:" "¼"
  /\ __repr__ str tuple_repr (mkRotation (0.5 + IZR k) 0 0) = String.append "X:" "½"
  /\ __repr__ str tuple_repr (mkRotation (0.75 + IZR k) 0 0) = String.append "X:" "¾".
Proof.
  rewrite !repr_x_axis. unfold axis_text. rewrite !py_mod_add_whole, !py_mod_small by lra.
  unfold str_fraction.
  repeat split;
    repeat (destruct (Req_dec_T _ _); try lra); repeat (destruct (Rlt_dec _ _); try lra);
    reflexivity.
Qed.
End PrintingFacts.

(** The doctest [Rotation(x=1)], with stand-ins for the two printers. *)
Lemma repr_of_no_rotation_witness :
  __repr__ (fun _ => "1.0"%string) (fun _ => "(1.0, 0.0, 0.0)"%string) (mkRotation 1 0 0)
  = "(no rotation)"%string
  /\ __str__ (fun _ => "1.0"%string) (fun _ => "(1.0, 0.0, 0.0)"%string) (mkRotation 1 0 0)
     = "(no rotation)"%string.
Proof.
  apply (repr_of_no_rotation (fun _ => "1.0"%string) (fun _ => "(1.0, 0.0, 0.0)"%string)
                             (mkRotation 1 0 0)).
  apply eq_canonical. rewrite canonical_no_rotation.
  replace (mkRotation 1 0 0) with (about (1, 0, 0) (IZR 1)) by (unfold about; f_equal; lra).
  rewrite canonical_about.
  - unfold key_of. rewrite py_mod_whole. destruct (Req_dec_T 0 0); [reflexivity | lra].
  - unfold norm3. ring.
  - unfold leading_positive. lra.
  - rewrite Rabs_right; lra.
Defined.

(** ** Turns and axis of a scaled direction *)

(** X26: for the rotation vector of [c] turns about a unit direction [n],
    [turns] is the magnitude of [c], and [axis] is [n], turned around when
    [c] is negative, or the zero triple below a ten-millionth of a turn. *)
Theorem turns_and_axis_of_scaled_direction (n : R * R * R) (c : R) :
  norm3 n = 1 ->
  turns (about n c) = Rabs c
  /\ axis (about n c) = if Rlt_dec (Rabs c) 0.0000001 then (0, 0, 0)
                        else if Rlt_dec c 0 then opp3 n else n.
Proof.
  intros Hn. split; [now apply turns_about | ].
  destruct (Rlt_dec (Rabs c) 0.0000001) as [Hs | Hs].
  - unfold axis. rewrite (turns_about n c Hn).
    destruct (Rlt_dec (Rabs c) 0.0000001); [reflexivity | lra].
  - apply axis_about; [exact Hn | lra].
Qed.

Lemma turns_and_axis_of_scaled_direction_witness :
  turns (about (0, 0, 1) (-0.5)) = Rabs (-0.5)
  /\ axis (about (0, 0, 1) (-0.5))
     = if Rlt_dec (Rabs (-0.5)) 0.0000001 then (0, 0, 0)
       else if Rlt_dec (-0.5) 0 then opp3 (0, 0, 1) else (0, 0, 1).
Proof.
  apply (turns_and_axis_of_scaled_direction (0, 0, 1) (-0.5)). unfold norm3. ring.
Defined.
